(** * slides.md: the markdown-to-slide pipeline of [main.go]

    A shallow embedding of the parsing core of [main.go]
    ([normalizeAssetPath], [parseMarkdown], [parseFrontmatter],
    [markdownToHTML], [parseInline]) together with the parts of the Go
    standard library they call ([strings], [html], [regexp], [fmt]).

    Go strings are byte sequences: a string is a [list ascii]. *)

From Stdlib Require Import List Ascii Bool Arith NArith ZArith Lia Permutation.
From Stdlib Require Import PrimFloat.
From Stdlib Require String.
Import ListNotations String.StringSyntax.
Open Scope string_scope.
Open Scope list_scope.

(** ** Byte strings *)

Definition str := list ascii.

(** String literals are read as byte lists. *)
Coercion String.list_ascii_of_string : String.string >-> list.

Fixpoint str_eqb (a b : str) : bool :=
  match a, b with
  | [], [] => true
  | x :: a', y :: b' => Ascii.eqb x y && str_eqb a' b'
  | _, _ => false
  end.

Definition isEmpty (s : str) : bool :=
  match s with [] => true | _ => false end.

(** ** Package [strings] *)

Module strings.

(** [strings.HasPrefix(s, prefix)] *)
Fixpoint HasPrefix (s prefix : str) {struct prefix} : bool :=
  match prefix, s with
  | [], _ => true
  | c :: p', d :: s' => Ascii.eqb c d && HasPrefix s' p'
  | _ :: _, [] => false
  end.

(** [strings.TrimPrefix(s, prefix)] *)
Definition TrimPrefix (s prefix : str) : str :=
  if HasPrefix s prefix then skipn (length prefix) s else s.

(** [strings.Cut(s, sep)]: the text before and after the first
    (leftmost) instance of [sep]; [None] when [sep] does not occur.  It
    is the [strings.Index] search that [Split], [SplitN] and
    [ReplaceAll] are built on. *)
Fixpoint Cut (s sep : str) {struct s} : option (str * str) :=
  if HasPrefix s sep then Some ([], skipn (length sep) s)
  else match s with
       | [] => None
       | c :: s' =>
         match Cut s' sep with
         | Some (b, a) => Some (c :: b, a)
         | None => None
         end
       end.

(** [strings.Split(s, sep)] for a non-empty [sep] (every call site in
    [main.go] passes a non-empty literal).  The instances of [sep] are
    found left to right and do not overlap; the text left over after
    each cut is strictly shorter, so [length s] cuts are enough. *)
Fixpoint splitFuel (fuel : nat) (s sep : str) : list str :=
  match fuel with
  | 0 => [s]
  | S n =>
    match Cut s sep with
    | None => [s]
    | Some (b, a) => b :: splitFuel n a sep
    end
  end.

Definition Split (s sep : str) : list str := splitFuel (length s) s sep.

(** [strings.SplitN(s, sep, 2)] *)
Definition SplitN2 (s sep : str) : list str :=
  match Cut s sep with
  | None => [s]
  | Some (b, a) => [b; a]
  end.

(** [strings.Join(elems, sep)] *)
Fixpoint Join (elems : list str) (sep : str) : str :=
  match elems with
  | [] => []
  | [x] => x
  | x :: rest => x ++ sep ++ Join rest sep
  end.

(** [strings.ReplaceAll(s, old, new)] for a non-empty [old]. *)
Fixpoint replaceFuel (fuel : nat) (s old new : str) : str :=
  match fuel with
  | 0 => s
  | S n =>
    match Cut s old with
    | None => s
    | Some (b, a) => b ++ new ++ replaceFuel n a old new
    end
  end.

Definition ReplaceAll (s old new : str) : str :=
  replaceFuel (length s) s old new.

(** *** [strings.TrimSpace]

    [TrimSpace] removes the leading and trailing runes for which
    [unicode.IsSpace] holds.  The runes are read off the UTF-8 bytes;
    a byte that does not start (or, from the right, end) the encoding
    of a white space rune stops the trimming.  The white space runes
    and their encodings:
    - U+0009..U+000D, U+0020: one byte;
    - U+0085 (C2 85), U+00A0 (C2 A0): two bytes;
    - U+1680 (E1 9A 80), U+2000..U+200A (E2 80 80 .. E2 80 8A),
      U+2028 (E2 80 A8), U+2029 (E2 80 A9), U+202F (E2 80 AF),
      U+205F (E2 81 9F), U+3000 (E3 80 80): three bytes. *)

Definition code (c : ascii) : N := N_of_ascii c.

Definition isSpace1 (c : ascii) : bool :=
  match code c with
  | 9%N | 10%N | 11%N | 12%N | 13%N | 32%N => true
  | _ => false
  end.

Definition isSpace2 (c1 c2 : ascii) : bool :=
  N.eqb (code c1) 194 && (N.eqb (code c2) 133 || N.eqb (code c2) 160).

Definition isSpace3 (c1 c2 c3 : ascii) : bool :=
  (N.eqb (code c1) 225 && N.eqb (code c2) 154 && N.eqb (code c3) 128)
  || (N.eqb (code c1) 226 && N.eqb (code c2) 128
      && ((N.leb 128 (code c3) && N.leb (code c3) 138)
          || N.eqb (code c3) 168 || N.eqb (code c3) 169
          || N.eqb (code c3) 175))
  || (N.eqb (code c1) 226 && N.eqb (code c2) 129 && N.eqb (code c3) 159)
  || (N.eqb (code c1) 227 && N.eqb (code c2) 128 && N.eqb (code c3) 128).

(** [strings.TrimLeftFunc(s, unicode.IsSpace)] *)
Fixpoint TrimLeftSpace (s : str) : str :=
  match s with
  | [] => []
  | c1 :: r1 =>
    if isSpace1 c1 then TrimLeftSpace r1 else
    match r1 with
    | [] => s
    | c2 :: r2 =>
      if isSpace2 c1 c2 then TrimLeftSpace r2 else
      match r2 with
      | [] => s
      | c3 :: r3 => if isSpace3 c1 c2 c3 then TrimLeftSpace r3 else s
      end
    end
  end.

(** Trimming from the right, on the reversed string: the last byte
    comes first. *)
Fixpoint trimRev (r : str) : str :=
  match r with
  | [] => []
  | c1 :: r1 =>
    if isSpace1 c1 then trimRev r1 else
    match r1 with
    | [] => r
    | c2 :: r2 =>
      if isSpace2 c2 c1 then trimRev r2 else
      match r2 with
      | [] => r
      | c3 :: r3 => if isSpace3 c3 c2 c1 then trimRev r3 else r
      end
    end
  end.

(** [strings.TrimRightFunc(s, unicode.IsSpace)] *)
Definition TrimRightSpace (s : str) : str := rev (trimRev (rev s)).

Definition TrimSpace (s : str) : str := TrimRightSpace (TrimLeftSpace s).

(** *** [strings.ToLower]

    The ASCII letters are mapped bytewise.  On other runes the library
    consults the Unicode tables; the only runes outside ASCII whose
    lower case is an ASCII letter are U+0130 and U+212A (giving [i] and
    [k]), and [main.go] only ever compares the result with prefixes
    made of [h t p s d a : /], so bytes outside ASCII are left as they
    are here. *)
Definition lowerByte (c : ascii) : ascii :=
  if N.leb 65 (code c) && N.leb (code c) 90
  then ascii_of_N (code c + 32) else c.

Definition ToLower (s : str) : str := map lowerByte s.

End strings.

(** ** Package [html] *)

(** The double quote byte. *)
Definition dquote : ascii := "034"%char.

Module html.

(** The replacement table of [html.EscapeString]. *)
Definition escapeByte (c : ascii) : str :=
  if Ascii.eqb c "&" then "&amp;"
  else if Ascii.eqb c "'" then "&#39;"
  else if Ascii.eqb c "<" then "&lt;"
  else if Ascii.eqb c ">" then "&gt;"
  else if Ascii.eqb c dquote then "&#34;"
  else [c].

(** [html.EscapeString(s)] *)
Definition EscapeString (s : str) : str := flat_map escapeByte s.

End html.

(** ** Package [fmt]: the verb [%d] on a non-negative [int] *)

Module fmt.

Definition digit (n : nat) : ascii := ascii_of_nat (48 + n).

Fixpoint digitsFuel (fuel n : nat) (acc : str) : str :=
  match fuel with
  | 0 => acc
  | S f =>
    let acc' := digit (n mod 10) :: acc in
    if n <? 10 then acc' else digitsFuel f (n / 10) acc'
  end.

Definition itoa (n : nat) : str := digitsFuel (S n) n [].

End fmt.

(** ** Package [regexp]

    Go's [regexp] finds the leftmost match and, among the matches that
    start there, the one a backtracking search finds first: the left
    branch of an alternation before the right one, a greedy repetition
    as long as possible, a lazy one as short as possible.  The matcher
    below is that backtracking search, written with a continuation.
    Every repetition in [main.go] is over a single character class, and
    that is what the syntax offers.  All the classes of [main.go]
    separate ASCII bytes from one another and from the bytes of longer
    UTF-8 sequences, so matching bytes and matching runes agree. *)

Module regexp.

Inductive regex : Type :=
| Bol                                  (* ^ *)
| Eol                                  (* $ *)
| Chr (c : ascii)                      (* a literal byte *)
| Cls (p : ascii -> bool)              (* a character class *)
| Plus (p : ascii -> bool)             (* class+ *)
| Star (p : ascii -> bool)             (* class* *)
| PlusLazy (p : ascii -> bool)         (* class+? *)
| Cat (r1 r2 : regex)
| Alt (r1 r2 : regex)                  (* r1|r2 *)
| Grp (r : regex).                     (* ( r ), a capture group *)

(** The classes of [main.go]. *)
Definition digitClass (c : ascii) : bool :=           (* \d *)
  N.leb 48 (strings.code c) && N.leb (strings.code c) 57.
Definition spaceClass (c : ascii) : bool :=           (* \s is [\t\n\f\r ] *)
  match strings.code c with
  | 9%N | 10%N | 12%N | 13%N | 32%N => true
  | _ => false
  end.
Definition anyClass (c : ascii) : bool :=             (* . *)
  negb (N.eqb (strings.code c) 10).
Definition notChr (x c : ascii) : bool :=              (* [^x] *)
  negb (Ascii.eqb c x).
Definition notChr2 (x y c : ascii) : bool :=           (* [^xy] *)
  negb (Ascii.eqb c x) && negb (Ascii.eqb c y).

(** The state of a match in progress: whether the position is the
    start of the text, the text still to read, and the groups captured
    so far, in the order of their opening parentheses (no group of
    [main.go] is nested in another). *)
Definition result : Type := list str * str.
Definition cont : Type := bool -> str -> list str -> option result.

(** Greedy repetition of a class: as many bytes as possible, giving
    them back one at a time when the rest fails. *)
Fixpoint starGreedy (p : ascii -> bool) (k : str -> option result)
    (s : str) : option result :=
  match s with
  | c :: s' =>
    if p c then
      match starGreedy p k s' with
      | Some r => Some r
      | None => k s
      end
    else k s
  | [] => k s
  end.

(** Lazy repetition of a class: as few bytes as possible. *)
Fixpoint starLazy (p : ascii -> bool) (k : str -> option result)
    (s : str) : option result :=
  match k s with
  | Some r => Some r
  | None =>
    match s with
    | c :: s' => if p c then starLazy p k s' else None
    | [] => None
    end
  end.

Fixpoint run (r : regex) (b : bool) (s : str) (cs : list str) (k : cont)
    : option result :=
  match r with
  | Bol => if b then k b s cs else None
  | Eol => match s with [] => k b s cs | _ :: _ => None end
  | Chr c =>
    match s with
    | d :: s' => if Ascii.eqb d c then k false s' cs else None
    | [] => None
    end
  | Cls p =>
    match s with
    | d :: s' => if p d then k false s' cs else None
    | [] => None
    end
  | Plus p =>
    match s with
    | d :: s' =>
      if p d then starGreedy p (fun s'' => k false s'' cs) s' else None
    | [] => None
    end
  | Star p =>
    starGreedy p
      (fun s'' => k (b && (length s'' =? length s)) s'' cs) s
  | PlusLazy p =>
    match s with
    | d :: s' =>
      if p d then starLazy p (fun s'' => k false s'' cs) s' else None
    | [] => None
    end
  | Cat r1 r2 => run r1 b s cs (fun b' s' cs' => run r2 b' s' cs' k)
  | Alt r1 r2 =>
    match run r1 b s cs k with
    | Some x => Some x
    | None => run r2 b s cs k
    end
  | Grp r1 =>
    run r1 b s cs
      (fun b' s' cs' =>
         k b' s' (cs' ++ [firstn (length s - length s') s]))
  end.

(** A match that starts at the head of [s]: the text of the match, the
    groups, and the text after the match. *)
Definition matchAt (r : regex) (b : bool) (s : str)
    : option (str * list str * str) :=
  match run r b s [] (fun _ s' cs => Some (cs, s')) with
  | Some (cs, rest) => Some (firstn (length s - length rest) s, cs, rest)
  | None => None
  end.

(** The leftmost match: the text before it, the match, the groups, the
    text after it. *)
Fixpoint find (r : regex) (b : bool) (s : str)
    : option (str * str * list str * str) :=
  match matchAt r b s with
  | Some (m, cs, rest) => Some ([], m, cs, rest)
  | None =>
    match s with
    | [] => None
    | c :: s' =>
      match find r false s' with
      | Some (pre, m, cs, rest) => Some (c :: pre, m, cs, rest)
      | None => None
      end
    end
  end.

(** [re.FindStringSubmatch(s)]: the leftmost match and its groups, the
    empty slice when there is none. *)
Definition FindStringSubmatch (r : regex) (s : str) : list str :=
  match find r true s with
  | Some (_, m, cs, _) => m :: cs
  | None => []
  end.

(** The successive matches of [r] in [s], each with the text that
    precedes it, and the text left after the last one.  A search
    resumes where the previous match ended.  No regular expression of
    [main.go] matches the empty string, so the text left shrinks with
    every match. *)
Fixpoint findAllFuel (fuel : nat) (r : regex) (b : bool) (s : str)
    : list (str * str * list str) * str :=
  match fuel with
  | 0 => ([], s)
  | S n =>
    match find r b s with
    | None => ([], s)
    | Some (pre, m, cs, rest) =>
      let (segs, tail) := findAllFuel n r false rest in
      ((pre, m, cs) :: segs, tail)
    end
  end.

Definition findAll (r : regex) (s : str)
    : list (str * str * list str) * str :=
  findAllFuel (length s) r true s.

(** [re.ReplaceAllStringFunc(src, repl)] *)
Definition ReplaceAllStringFunc (r : regex) (src : str)
    (repl : str -> str) : str :=
  let (segs, tail) := findAll r src in
  flat_map (fun seg : str * str * list str =>
              let '(pre, m, _) := seg in pre ++ repl m) segs ++ tail.

(** A replacement template: literal text and group references [$n]. *)
Inductive tpart : Type :=
| TLit (s : str)
| TRef (n : nat).

Definition expand (t : list tpart) (m : str) (cs : list str) : str :=
  flat_map (fun p => match p with
                     | TLit s => s
                     | TRef n => nth n (m :: cs) []
                     end) t.

(** [re.ReplaceAllString(src, template)] *)
Definition ReplaceAllString (r : regex) (src : str) (t : list tpart)
    : str :=
  let (segs, tail) := findAll r src in
  flat_map (fun seg : str * str * list str =>
              let '(pre, m, cs) := seg in pre ++ expand t m cs) segs
  ++ tail.

End regexp.

(** ** Iteration over a Go map

    [range] over a map visits the entries in an order the language
    leaves unspecified and the runtime randomises.  A choice sequence
    [o] fixes one order: the next entry visited is the one at index
    [hd 0 o] (modulo the number of entries left) among those not yet
    visited.  Every choice sequence gives a permutation of the entries
    and every permutation is given by some choice sequence. *)

Definition order : Type := list nat.

Fixpoint removeNth {A : Type} (k : nat) (l : list A) : list A :=
  match l, k with
  | [], _ => []
  | _ :: l', 0 => l'
  | x :: l', S k' => x :: removeNth k' l'
  end.

Fixpoint rangeFuel {A : Type} (fuel : nat) (o : order) (l : list A)
    : list A :=
  match fuel, l with
  | S f, x :: _ =>
    let k := hd 0 o mod length l in
    nth k l x :: rangeFuel f (tl o) (removeNth k l)
  | _, _ => []
  end.

Definition rangeMap {A : Type} (o : order) (l : list A) : list A :=
  rangeFuel (length l) o l.

(** A map with string keys, as the list of its entries; [mapSet] is
    the assignment [m[k] = v]. *)
Fixpoint mapSet (m : list (str * str)) (k v : str) : list (str * str) :=
  match m with
  | [] => [(k, v)]
  | (k', v') :: m' =>
    if str_eqb k' k then (k, v) :: m' else (k', v') :: mapSet m' k v
  end.

(** ** [main.go] *)

Definition nl : ascii := "010"%char.

(** Reads a literal the way Go reads an interpreted string literal,
    for the escapes [\n], [\t] and [\\]. *)
Fixpoint golit (s : str) : str :=
  match s with
  | [] => []
  | c :: r =>
    match r with
    | d :: r' =>
      if Ascii.eqb c "\" then
        if Ascii.eqb d "n" then nl :: golit r'
        else if Ascii.eqb d "t" then "009"%char :: golit r'
        else if Ascii.eqb d "\" then "\"%char :: golit r'
        else c :: golit r
      else c :: golit r
    | [] => [c]
    end
  end.

Import strings.

(** [orderedListRegex = regexp.MustCompile(`^(\d+)\.\s+(.+)$`)] *)
Definition orderedListRegex : regexp.regex :=
  regexp.Cat regexp.Bol
    (regexp.Cat (regexp.Grp (regexp.Plus regexp.digitClass))
       (regexp.Cat (regexp.Chr ".")
          (regexp.Cat (regexp.Plus regexp.spaceClass)
             (regexp.Cat (regexp.Grp (regexp.Plus regexp.anyClass))
                regexp.Eol)))).

(** [func normalizeAssetPath(src string) string] *)
Definition normalizeAssetPath (src : str) : str :=
  let lower := ToLower src in
  if HasPrefix lower "http://" || HasPrefix lower "https://"
     || HasPrefix lower "data:" || HasPrefix lower "/"
  then src
  else "/assets/" ++ src.

(** *** [parseInline] *)

(** [codeRegex := regexp.MustCompile("`([^`]+)`")] *)
Definition codeRegex : regexp.regex :=
  regexp.Cat (regexp.Chr "`")
    (regexp.Cat (regexp.Grp (regexp.Plus (regexp.notChr "`")))
       (regexp.Chr "`")).

(** [imageRegex]: an exclamation mark, then in square brackets a
    group of any number of bytes other than the closing bracket, then
    in parentheses a group of one or more bytes other than the closing
    parenthesis (the link pattern below with a leading [!] and a
    starred first group). *)
Definition imageRegex : regexp.regex :=
  regexp.Cat (regexp.Chr "!")
    (regexp.Cat (regexp.Chr "[")
       (regexp.Cat (regexp.Grp (regexp.Star (regexp.notChr "]")))
          (regexp.Cat (regexp.Chr "]")
             (regexp.Cat (regexp.Chr "(")
                (regexp.Cat (regexp.Grp (regexp.Plus (regexp.notChr ")")))
                   (regexp.Chr ")")))))).

(** [linkRegex := regexp.MustCompile(`\[([^\]]+)\]\(([^)]+)\)`)] *)
Definition linkRegex : regexp.regex :=
  regexp.Cat (regexp.Chr "[")
    (regexp.Cat (regexp.Grp (regexp.Plus (regexp.notChr "]")))
       (regexp.Cat (regexp.Chr "]")
          (regexp.Cat (regexp.Chr "(")
             (regexp.Cat (regexp.Grp (regexp.Plus (regexp.notChr ")")))
                (regexp.Chr ")"))))).

(** [boldRegex := regexp.MustCompile(`\*\*([^*]+)\*\*`)] *)
Definition boldRegex : regexp.regex :=
  regexp.Cat (regexp.Chr "*")
    (regexp.Cat (regexp.Chr "*")
       (regexp.Cat (regexp.Grp (regexp.Plus (regexp.notChr "*")))
          (regexp.Cat (regexp.Chr "*") (regexp.Chr "*")))).

(** [italicRegex := regexp.MustCompile(`(^|\s)\*([^*\n]+?)\*(\s|$)`)] *)
Definition italicRegex : regexp.regex :=
  regexp.Cat (regexp.Grp (regexp.Alt regexp.Bol (regexp.Cls regexp.spaceClass)))
    (regexp.Cat (regexp.Chr "*")
       (regexp.Cat (regexp.Grp (regexp.PlusLazy (regexp.notChr2 "*" nl)))
          (regexp.Cat (regexp.Chr "*")
             (regexp.Grp (regexp.Alt (regexp.Cls regexp.spaceClass)
                            regexp.Eol))))).

(** [fmt.Sprintf("__CODE%d__", codeCounter)] *)
Definition placeholderOf (codeCounter : nat) : str :=
  "__CODE" ++ fmt.itoa codeCounter ++ "__".

(** The closure handed to [codeRegex.ReplaceAllStringFunc], called once
    per match, left to right: it reads and updates [codeCounter] and
    [codePlaceholders] and returns the placeholder. *)
Definition protectOne (st : nat * list (str * str)) (m : str)
    : nat * list (str * str) * str :=
  let (codeCounter, codePlaceholders) := st in
  let placeholder := placeholderOf codeCounter in
  let parts := regexp.FindStringSubmatch codeRegex m in
  let entry :=
    if length parts =? 2
    then "<code>" ++ nth 1 parts [] ++ "</code>"
    else m in
  (S codeCounter, mapSet codePlaceholders placeholder entry, placeholder).

Fixpoint protectSegs (segs : list (str * str * list str))
    (st : nat * list (str * str)) : list (str * str) * str :=
  match segs with
  | [] => (snd st, [])
  | (pre, m, _) :: segs' =>
    let '(st', placeholder) := protectOne st m in
    let (table, out) := protectSegs segs' st' in
    (table, pre ++ placeholder ++ out)
  end.

(** The code pass: the text with every code span replaced by its
    placeholder, and the map [codePlaceholders]. *)
Definition protectCode (text : str) : list (str * str) * str :=
  let (segs, tail) := regexp.findAll codeRegex text in
  let (table, out) := protectSegs segs (0, []) in
  (table, out ++ tail).

Definition imageRepl (m : str) : str :=
  let parts := regexp.FindStringSubmatch imageRegex m in
  if length parts =? 3 then
    let alt := nth 1 parts [] in
    let src := normalizeAssetPath (nth 2 parts []) in
    "<img src=" ++ dquote :: src ++ dquote :: " alt=" ++ dquote :: alt
      ++ dquote :: "/>"
  else m.

Definition linkRepl (m : str) : str :=
  let parts := regexp.FindStringSubmatch linkRegex m in
  if length parts =? 3 then
    let label := nth 1 parts [] in
    let href := normalizeAssetPath (nth 2 parts []) in
    "<a href=" ++ dquote :: href ++ dquote :: ">" ++ label ++ "</a>"
  else m.

(** [<strong>$1</strong>] and [$1<em>$2</em>$3] *)
Definition boldTemplate : list regexp.tpart :=
  [regexp.TLit "<strong>"; regexp.TRef 1; regexp.TLit "</strong>"].
Definition italicTemplate : list regexp.tpart :=
  [regexp.TRef 1; regexp.TLit "<em>"; regexp.TRef 2; regexp.TLit "</em>";
   regexp.TRef 3].

(** The passes between the code pass and the restoration. *)
Definition markupPasses (text : str) : str :=
  let text := regexp.ReplaceAllStringFunc imageRegex text imageRepl in
  let text := regexp.ReplaceAllStringFunc linkRegex text linkRepl in
  let text := regexp.ReplaceAllString boldRegex text boldTemplate in
  regexp.ReplaceAllString italicRegex text italicTemplate.

(** The loop [for placeholder, replacement := range codePlaceholders],
    over the entries in the order they are visited. *)
Definition restoreCode (entries : list (str * str)) (text : str) : str :=
  fold_left (fun t e => ReplaceAll t (fst e) (snd e)) entries text.

(** [func parseInline(text string) string]; [o] is the order in which
    the final loop visits [codePlaceholders]. *)
Definition parseInline (o : order) (text : str) : str :=
  let text := html.EscapeString text in
  let (codePlaceholders, text) := protectCode text in
  let text := markupPasses text in
  restoreCode (rangeMap o codePlaceholders) text.

(** *** [markdownToHTML] *)

(** The loop variables [inCodeBlock], [inUL], [inOL]. *)
Record state : Type := mkState {
  inCodeBlock : bool;
  inUL : bool;
  inOL : bool
}.

Definition initState : state := mkState false false false.

(** The loop [for level < len(trimmed) && trimmed[level] == '#'
    { level++ }]: the number of leading [#]. *)
Fixpoint headingLevel (trimmed : str) : nat :=
  match trimmed with
  | c :: r => if Ascii.eqb c "#" then S (headingLevel r) else 0
  | [] => 0
  end.

(** [fmt.Sprintf("<h%d>%s</h%d>\n", level, content, level)] *)
Definition headingTag (level : nat) (content : str) : str :=
  "<h" ++ fmt.itoa level ++ ">" ++ content
    ++ "</h" ++ fmt.itoa level ++ ">" ++ [nl].

(** [fmt.Sprintf("<li>%s</li>\n", content)] *)
Definition liTag (content : str) : str := "<li>" ++ content ++ "</li>" ++ [nl].

(** [fmt.Sprintf("<p>%s</p>\n", content)] *)
Definition pTag (content : str) : str := "<p>" ++ content ++ "</p>" ++ [nl].

Definition closeUL : str := "</ul>" ++ [nl].
Definition closeOL : str := "</ol>" ++ [nl].
Definition openUL : str := "<ul>" ++ [nl].
Definition openOL : str := "<ol>" ++ [nl].
Definition hrTag : str := "<hr>" ++ [nl].
Definition openPre : str := "<pre><code>".
Definition closePre : str := "</code></pre>".

(** One iteration of the loop over the lines: the new loop variables
    and the strings written to [result], one list element per
    [result.WriteString].  [o] is the iteration order of the map of
    the [parseInline] call of this line. *)
Definition step (o : order) (st : state) (line : str) : state * list str :=
  let trimmed := TrimSpace line in
  if HasPrefix trimmed "```" then
    let closed :=
      (if inUL st then [closeUL] else [])
      ++ (if inOL st then [closeOL] else []) in
    if inCodeBlock st
    then (mkState false false false, closed ++ [closePre])
    else (mkState true false false, closed ++ [openPre])
  else if inCodeBlock st then
    (st, [html.EscapeString line; [nl]])
  else if HasPrefix trimmed "#" && (headingLevel trimmed <=? 6) then
    let level := headingLevel trimmed in
    let content := TrimSpace (skipn level trimmed) in
    let content := parseInline o content in
    (st, [headingTag level content])
  else if str_eqb trimmed "---" || str_eqb trimmed "***"
          || str_eqb trimmed "___" then
    (st, [hrTag])
  else if HasPrefix trimmed "- " || HasPrefix trimmed "* " then
    let content :=
      parseInline o (TrimPrefix (TrimPrefix trimmed "- ") "* ") in
    (mkState (inCodeBlock st) true false,
     (if inOL st then [closeOL] else [])
     ++ (if inUL st then [] else [openUL])
     ++ [liTag content])
  else
    let match_ := regexp.FindStringSubmatch orderedListRegex trimmed in
    if 0 <? length match_ then
      let content := parseInline o (nth 2 match_ []) in
      (mkState (inCodeBlock st) false true,
       (if inUL st then [closeUL] else [])
       ++ (if inOL st then [] else [openOL])
       ++ [liTag content])
    else if negb (isEmpty trimmed) then
      let content := parseInline o trimmed in
      (mkState (inCodeBlock st) false false,
       (if inUL st then [closeUL] else [])
       ++ (if inOL st then [closeOL] else [])
       ++ [pTag content])
    else (st, []).

(** The loop over the lines, from line number [i] on; [os i] is the
    map iteration order met while line [i] is processed. *)
Fixpoint loop (os : nat -> order) (i : nat) (st : state) (lines : list str)
    : state * list str :=
  match lines with
  | [] => (st, [])
  | line :: rest =>
    let (st', out) := step (os i) st line in
    let (st'', out') := loop os (S i) st' rest in
    (st'', out ++ out')
  end.

(** What is written after the loop. *)
Definition finish (st : state) : list str :=
  (if inCodeBlock st then [closePre] else [])
  ++ (if inUL st then [closeUL] else [])
  ++ (if inOL st then [closeOL] else []).

(** Everything written to [result], in order. *)
Definition written (os : nat -> order) (md : str) : list str :=
  if isEmpty md then []
  else
    let (st, out) := loop os 0 initState (Split md [nl]) in
    out ++ finish st.

(** [func markdownToHTML(md string) string] *)
Definition markdownToHTML (os : nat -> order) (md : str) : str :=
  concat (written os md).

(** *** [parseMarkdown] *)

(** The literal ["\n---\n"]. *)
Definition slideBreak : str := nl :: "---" ++ [nl].

(** The loop of the heading path over [lines], with the variables
    [slides], [currentSlide] and [inCodeBlock]. *)
Fixpoint headingLoop (lines : list str) (slides : list str)
    (currentSlide : list str) (inCode : bool) : list str * list str :=
  match lines with
  | [] => (slides, currentSlide)
  | line :: rest =>
    if HasPrefix line "```" then
      headingLoop rest slides (currentSlide ++ [line]) (negb inCode)
    else if negb inCode && HasPrefix line "#" then
      let slides' :=
        if 0 <? length currentSlide
        then slides ++ [Join currentSlide [nl]]
        else slides in
      headingLoop rest slides' [line] inCode
    else headingLoop rest slides (currentSlide ++ [line]) inCode
  end.

(** The loop of the separator path over [parts]. *)
Fixpoint breakLoop (parts : list str) (slides : list str) : list str :=
  match parts with
  | [] => slides
  | part :: rest =>
    let part := TrimSpace part in
    if negb (isEmpty part)
    then breakLoop rest (slides ++ [part])
    else breakLoop rest slides
  end.

(** [func parseMarkdown(content string) []string] *)
Definition parseMarkdown (content : str) : list str :=
  let content := TrimSpace content in
  let parts := Split content slideBreak in
  if length parts =? 1 then
    let lines := Split content [nl] in
    let (slides, currentSlide) := headingLoop lines [] [] false in
    if 0 <? length currentSlide
    then slides ++ [Join currentSlide [nl]]
    else slides
  else breakLoop parts [].

(** *** [parseFrontmatter] *)

Record Frontmatter : Type := mkFrontmatter { Title : str }.

Section ParseFrontmatter.

(** [yaml.Unmarshal([]byte(fmText), &fm)] of [gopkg.in/yaml.v3], a
    library outside the repository: [None] when it returns an error,
    else the value it leaves in [fm]. *)
Variable yamlUnmarshal : str -> option Frontmatter.

(** [func parseFrontmatter(content string) (string, string)] *)
Definition parseFrontmatter (content : str) : str * str :=
  let trimmed := TrimSpace content in
  if negb (HasPrefix trimmed ("---" ++ [nl])) && negb (str_eqb trimmed "---")
  then ([], content)
  else
    match SplitN2 trimmed slideBreak with
    | [part0; part1] =>
      let fmText := TrimPrefix part0 ("---" ++ [nl]) in
      let body := part1 in
      match yamlUnmarshal fmText with
      | None => ([], content)
      | Some fm => (Title fm, body)
      end
    | _ => ([], content)
    end.

End ParseFrontmatter.

(** ** Vocabulary of the statements *)

(** [Occurs sep s]: [sep] is a substring of [s]. *)
Definition Occurs (sep s : str) : Prop := exists a b, s = a ++ sep ++ b.

(** [BeginsFold target p]: [target] begins with [p], letter case
    apart. *)
Definition BeginsFold (target p : str) : Prop :=
  exists a r, target = a ++ r /\ strings.ToLower a = strings.ToLower p.

(** The targets that [normalizeAssetPath] is to leave alone. *)
Definition AbsoluteTarget (target : str) : Prop :=
  BeginsFold target "http://" \/ BeginsFold target "https://"
  \/ BeginsFold target "data:" \/ BeginsFold target "/".


(** The frontmatter delimiter line opens the text: the text is the
    line [---] alone, or starts with [---] and a newline. *)
Definition BeginsWithDelimiter (t : str) : Prop :=
  t = "---" \/ exists r, t = "---" ++ nl :: r.

(** A stand-in for the YAML decoder in examples: it reads the
    one-line mapping [title: text] and the empty document, and rejects
    everything else. *)
Definition titleLineYaml (s : str) : option Frontmatter :=
  if strings.HasPrefix s "title: " then Some (mkFrontmatter (skipn 7 s))
  else if isEmpty s then Some (mkFrontmatter [])
  else None.


Definition nonEmpty (s : str) : bool := negb (isEmpty s).

(** *** Lines, as the block rules name them *)

(** A fence line: trimmed, it starts with three backticks. *)
Definition IsFence (line : str) : Prop :=
  exists r, strings.TrimSpace line = "```" ++ r.

(** [t] has exactly [n] leading [#]. *)
Definition HashRun (n : nat) (t : str) : Prop :=
  exists r, t = repeat "#"%char n ++ r /\ strings.HasPrefix r "#" = false.

(** A heading line as [markdownToHTML] takes it: trimmed, it has
    between one and six leading [#]. *)
Definition IsHeadingLine (line : str) : Prop :=
  exists n, 1 <= n <= 6 /\ HashRun n (strings.TrimSpace line).

(** [r] starts with a white space rune. *)
Definition StartsWithSpace (r : str) : Prop := strings.TrimLeftSpace r <> r.

(** A heading line as the block rules word it: trimmed, it has between
    one and six leading [#] and white space after them. *)
Definition IsSpacedHeadingLine (line : str) : Prop :=
  exists n r, 1 <= n <= 6
              /\ strings.TrimSpace line = repeat "#"%char n ++ r
              /\ StartsWithSpace r.

(** A horizontal rule line. *)
Definition IsRule (line : str) : Prop :=
  strings.TrimSpace line = "---" \/ strings.TrimSpace line = "***"
  \/ strings.TrimSpace line = "___".

Definition IsBlank (line : str) : Prop := strings.TrimSpace line = [].

(** An unordered item: trimmed, the line starts with [- ] or [* ]. *)
Definition IsBullet (line : str) : Prop :=
  exists r, strings.TrimSpace line = "- " ++ r
            \/ strings.TrimSpace line = "* " ++ r.

(** An ordered item: trimmed, the line matches [orderedListRegex]. *)
Definition IsNumbered (line : str) : Prop :=
  regexp.FindStringSubmatch orderedListRegex (strings.TrimSpace line) <> [].

(** A paragraph line: none of the above, and not blank. *)
Definition IsParagraph (line : str) : Prop :=
  ~ IsFence line /\ ~ IsHeadingLine line /\ ~ IsRule line
  /\ ~ IsBullet line /\ ~ IsNumbered line /\ ~ IsBlank line.

(** The closing tags of the lists open in [st], as [markdownToHTML]
    writes them. *)
Definition closers (st : state) : list str :=
  (if inUL st then [closeUL] else []) ++ (if inOL st then [closeOL] else []).

(** The line is rendered as a heading of level [n]: nothing but one
    heading element is written. *)
Definition RendersHeading (n : nat) (out : list str) : Prop :=
  exists content, out = [headingTag n content].

(** The cases of one iteration of the loop of [markdownToHTML], in the
    order the code tests them; each case states what the earlier tests
    found. *)
Inductive StepCase (o : order) (st : state) (line : str)
    : state * list str -> Prop :=
| SFence :
    IsFence line ->
    StepCase o st line
      (mkState (negb (inCodeBlock st)) false false,
       closers st ++ [if inCodeBlock st then closePre else openPre])
| SCode :
    ~ IsFence line -> inCodeBlock st = true ->
    StepCase o st line (st, [html.EscapeString line; [nl]])
| SHeading (n : nat) :
    ~ IsFence line -> inCodeBlock st = false ->
    1 <= n <= 6 -> HashRun n (strings.TrimSpace line) ->
    StepCase o st line
      (st, [headingTag n
              (parseInline o
                 (strings.TrimSpace (skipn n (strings.TrimSpace line))))])
| SRule :
    ~ IsFence line -> inCodeBlock st = false -> ~ IsHeadingLine line ->
    IsRule line ->
    StepCase o st line (st, [hrTag])
| SBullet :
    ~ IsFence line -> inCodeBlock st = false -> ~ IsHeadingLine line ->
    ~ IsRule line -> IsBullet line ->
    StepCase o st line
      (mkState false true false,
       (if inOL st then [closeOL] else [])
       ++ (if inUL st then [] else [openUL])
       ++ [liTag (parseInline o
                    (strings.TrimPrefix
                       (strings.TrimPrefix (strings.TrimSpace line) "- ")
                       "* "))])
| SNumbered :
    ~ IsFence line -> inCodeBlock st = false -> ~ IsHeadingLine line ->
    ~ IsRule line -> ~ IsBullet line -> IsNumbered line ->
    StepCase o st line
      (mkState false false true,
       (if inUL st then [closeUL] else [])
       ++ (if inOL st then [] else [openOL])
       ++ [liTag (parseInline o
                    (nth 2 (regexp.FindStringSubmatch orderedListRegex
                              (strings.TrimSpace line)) []))])
| SParagraph :
    IsParagraph line -> inCodeBlock st = false ->
    StepCase o st line
      (mkState false false false,
       closers st ++ [pTag (parseInline o (strings.TrimSpace line))])
| SBlank :
    ~ IsFence line -> inCodeBlock st = false -> ~ IsHeadingLine line ->
    ~ IsRule line -> ~ IsBullet line -> ~ IsNumbered line ->
    IsBlank line ->
    StepCase o st line (st, []).

(** At most one list is open. *)
Definition ListsExclusive (st : state) : Prop := inUL st && inOL st = false.

(** The four list tags. *)
Inductive listTag : Type := OpenUL | CloseUL | OpenOL | CloseOL.

(** The list tag that starts at the head of a text, if one does. *)
Definition tagAt (s : str) : list listTag :=
  if strings.HasPrefix s "<ul>" then [OpenUL]
  else if strings.HasPrefix s "</ul>" then [CloseUL]
  else if strings.HasPrefix s "<ol>" then [OpenOL]
  else if strings.HasPrefix s "</ol>" then [CloseOL]
  else [].

(** The list tags of a text, in the order they occur in it. *)
Fixpoint scanTags (s : str) : list listTag :=
  match s with
  | [] => []
  | _ :: r => tagAt s ++ scanTags r
  end.

(** The list tag that a written string is, if it is one, and the list
    tags among the strings written. *)
Definition chunkTag (c : str) : list listTag :=
  if str_eqb c openUL then [OpenUL]
  else if str_eqb c closeUL then [CloseUL]
  else if str_eqb c openOL then [OpenOL]
  else if str_eqb c closeOL then [CloseOL]
  else [].

Definition writtenTags (out : list str) : list listTag :=
  flat_map chunkTag out.

(** A sequence of list tags in which every list is closed before the
    next one opens: the lists neither nest nor interleave. *)
Inductive Flat : list listTag -> Prop :=
| Flat_nil : Flat []
| Flat_ul (l : list listTag) : Flat l -> Flat (OpenUL :: CloseUL :: l)
| Flat_ol (l : list listTag) : Flat l -> Flat (OpenOL :: CloseOL :: l).

(** The tags [r] still to come close what is open in [st] and go on
    flat. *)
Definition Completes (st : state) (r : list listTag) : Prop :=
  match inUL st, inOL st with
  | false, false => Flat r
  | true, false => exists r', r = CloseUL :: r' /\ Flat r'
  | false, true => exists r', r = CloseOL :: r' /\ Flat r'
  | true, true => False
  end.

(** *** White space at the ends of a text *)

(** The text starts with the encoding of a white space rune. *)
Definition spaceStart (s : str) : bool :=
  match s with
  | [] => false
  | c1 :: r1 =>
    strings.isSpace1 c1
    || match r1 with
       | [] => false
       | c2 :: r2 =>
         strings.isSpace2 c1 c2
         || match r2 with
            | [] => false
            | c3 :: _ => strings.isSpace3 c1 c2 c3
            end
       end
  end.

(** The text holds something other than white space: trimming does not
    delete it all. *)
Definition HasText (s : str) : Prop := strings.TrimSpace s <> [].

(** A text that is not empty and does not start with white space. *)
Definition Good (s : str) : Prop := s <> [] /\ spaceStart s = false.

Definition GoodHead (lines : list str) : Prop :=
  match lines with
  | [] => True
  | l :: _ => Good l
  end.

(** *** What a regular expression matches *)

Module regexpSpec.
Import regexp.

(** [den r b s cs b' s' cs']: read from the state [(b, s, cs)], the
    expression [r] can match a prefix of [s] and leave the state
    [(b', s', cs')]. *)
Fixpoint den (r : regex) (b : bool) (s : str) (cs : list str)
    (b' : bool) (s' : str) (cs' : list str) : Prop :=
  match r with
  | Bol => b = true /\ b' = b /\ s' = s /\ cs' = cs
  | Eol => s = [] /\ b' = b /\ s' = s /\ cs' = cs
  | Chr c => s = c :: s' /\ b' = false /\ cs' = cs
  | Cls p => exists d, p d = true /\ s = d :: s' /\ b' = false /\ cs' = cs
  | Plus p | PlusLazy p =>
    exists d a, p d = true /\ forallb p a = true /\ s = d :: a ++ s'
                /\ b' = false /\ cs' = cs
  | Star p =>
    exists a, forallb p a = true /\ s = a ++ s'
              /\ b' = (b && (length s' =? length s)) /\ cs' = cs
  | Cat r1 r2 =>
    exists b1 s1 cs1, den r1 b s cs b1 s1 cs1 /\ den r2 b1 s1 cs1 b' s' cs'
  | Alt r1 r2 => den r1 b s cs b' s' cs' \/ den r2 b s cs b' s' cs'
  | Grp r1 =>
    exists cs1, den r1 b s cs b' s' cs1
                /\ cs' = cs1 ++ [firstn (length s - length s') s]
  end.

(** [Segs r b s segs tail]: [segs] are the successive leftmost matches
    of [r] in [s], each with the text before it, and [tail] is the text
    after the last one, in which [r] has no match. *)
Inductive Segs (r : regex) : bool -> str -> list (str * str * list str)
                             -> str -> Prop :=
| Segs_done (b : bool) (s : str) :
    find r b s = None -> Segs r b s [] s
| Segs_step (b : bool) (s pre m rest tail : str) (cs : list str)
    (segs : list (str * str * list str)) :
    find r b s = Some (pre, m, cs, rest) ->
    Segs r false rest segs tail ->
    Segs r b s ((pre, m, cs) :: segs) tail.

(** No match of [r] is empty. *)
Definition NonEmptyMatches (r : regex) : Prop :=
  forall b s m cs rest, matchAt r b s = Some (m, cs, rest) -> m <> [].

End regexpSpec.

(** *** Escaped text *)

(** The bytes that [html.EscapeString] must not let through. *)
Definition special (c : ascii) : bool :=
  Ascii.eqb c "<" || Ascii.eqb c ">" || Ascii.eqb c "&".

(** The entities [html.EscapeString] writes. *)
Definition entities : list str :=
  map String.list_ascii_of_string ["&amp;"; "&#39;"; "&lt;"; "&gt;"; "&#34;"].

(** The pieces of markup [parseInline] writes: the [code], [strong],
    [em] and [a] tags, and the [img] and [a] elements cut at their
    attribute values. *)
Definition inlineTags : list str :=
  map String.list_ascii_of_string
    ["<code>"; "</code>"; "<strong>"; "</strong>"; "<em>"; "</em>"; "</a>"]
  ++ ["<img src=" ++ [dquote]; dquote :: " alt=" ++ [dquote];
      dquote :: "/>"; "<a href=" ++ [dquote]; dquote :: ">"].

(** The tags [markdownToHTML] writes itself: those of headings,
    paragraphs, list items, rules and code blocks, and the list
    tags. *)
Definition plainBlockTags : list str :=
  map String.list_ascii_of_string
    ["<h1>"; "<h2>"; "<h3>"; "<h4>"; "<h5>"; "<h6>";
     "</h1>"; "</h2>"; "</h3>"; "</h4>"; "</h5>"; "</h6>";
     "<p>"; "</p>"; "<li>"; "</li>"; "<hr>"; "<pre>"; "</pre>"].

Definition listTagNames : list str :=
  map String.list_ascii_of_string ["<ul>"; "</ul>"; "<ol>"; "</ol>"].

Definition blockTags : list str := plainBlockTags ++ listTagNames.

(** All the markup but the list tags. *)
Definition nonListTags : list str := inlineTags ++ plainBlockTags.

(** [Escaped tags s]: [s] is made of bytes other than [<], [>], [&],
    of entities, and of the pieces of markup listed in [tags]; so every
    [<], [>] and [&] of [s] lies in an entity or in one of [tags]. *)
Inductive Escaped (tags : list str) : str -> Prop :=
| Escaped_nil : Escaped tags []
| Escaped_byte (c : ascii) (s : str) :
    special c = false -> Escaped tags s -> Escaped tags (c :: s)
| Escaped_entity (e s : str) :
    In e entities -> Escaped tags s -> Escaped tags (e ++ s)
| Escaped_tag (t s : str) :
    In t tags -> Escaped tags s -> Escaped tags (t ++ s).

(** A byte that is not special and occurs in no entity and no tag. *)
Definition neutral (tags : list str) (c : ascii) : bool :=
  negb (special c)
  && forallb (fun t => negb (existsb (Ascii.eqb c) t)) (entities ++ tags).

(** A text without special bytes. *)
Definition plain (s : str) : bool := forallb (fun c => negb (special c)) s.

(** An entry of [codePlaceholders] as the code pass leaves it: the key
    is a placeholder and the value is escaped text. *)
Definition entryOK (tags : list str) (e : str * str) : Prop :=
  (exists n, fst e = placeholderOf n) /\ Escaped tags (snd e).

(** All the markup [markdownToHTML] writes. *)
Definition allTags : list str := inlineTags ++ blockTags.

(** A string [markdownToHTML] writes: one of the four list tags with
    its newline, or escaped text that holds no list tag. *)
Definition ChunkOK (c : str) : Prop :=
  c = openUL \/ c = closeUL \/ c = openOL \/ c = closeOL
  \/ Escaped nonListTags c.

(** *** Code spans *)

(** The number that a decimal numeral denotes. *)
Definition digitVal (c : ascii) : nat := nat_of_ascii c - 48.
Definition atoi (s : str) : nat :=
  fold_left (fun a c => 10 * a + digitVal c) s 0.

(** [x] holds no code span: nowhere in [x] is there a backtick, then
    one or more bytes other than a backtick, then a backtick. *)
Definition NoSpan (x : str) : Prop :=
  ~ exists a c b, c <> [] /\ ~ In "`"%char c
                  /\ x = a ++ "`"%char :: c ++ "`"%char :: b.

(** [CodeSpans k e out table]: reading [e] from the left, with the
    counter at [k], [out] is [e] with every code span replaced by its
    placeholder, and [table] maps each placeholder to the contents of
    its span between [<code>] and [</code>], in the order of the
    spans.  A span starts at the first backtick that has a span start
    at it. *)
Inductive CodeSpans : nat -> str -> str -> list (str * str) -> Prop :=
| CodeSpans_none (k : nat) (e : str) :
    NoSpan e -> CodeSpans k e e []
| CodeSpans_span (k : nat) (pre c rest out : str)
    (table : list (str * str)) :
    c <> [] -> ~ In "`"%char c -> NoSpan (pre ++ ["`"%char]) ->
    CodeSpans (S k) rest out table ->
    CodeSpans k (pre ++ "`"%char :: c ++ "`"%char :: rest)
      (pre ++ placeholderOf k ++ out)
      ((placeholderOf k, "<code>" ++ c ++ "</code>") :: table).

(** *** The heading path of [parseMarkdown] *)

(** What the heading path returns after its loop: the slides, and the
    slide in the making when it holds a line. *)
Definition flush (p : list str * list str) : list str :=
  if 0 <? length (snd p) then fst p ++ [strings.Join (snd p) [nl]] else fst p.

(** The text starts with a [#]. *)
Definition Hashed (s : str) : Prop := strings.HasPrefix s "#" = true.

(** The carriage return. *)
Definition cr : ascii := "013"%char.

(** Every newline of the text follows a carriage return. *)
Definition CRLF (t : str) : Prop :=
  forall a b, t = a ++ nl :: b -> exists a', a = a' ++ [cr].

(** No line of [lines] holds a newline. *)
Definition NlFree (lines : list str) : Prop :=
  Forall (fun l => ~ In nl l) lines.

(** The number of lines that start with three backticks, as the loop
    of the heading path of [parseMarkdown] tells a fence. *)
Definition fenceCount (lines : list str) : nat :=
  length (filter (fun l => strings.HasPrefix l "```") lines).

(** The number of fence lines of a text. *)
Definition fences (a : str) : nat := fenceCount (strings.Split a [nl]).

(** In the slide [s], a line after the first starts with [#] only
    inside a fenced block: after an odd number of fence lines. *)
Definition HeadingsFenced (s : str) : Prop :=
  forall a b, s = a ++ nl :: b -> Hashed b -> Nat.odd (fences a) = true.

(** The lines of a slide in the making: a later line that starts with
    [#] comes after an odd number of fence lines. *)
Definition Inner (cur : list str) : Prop :=
  forall pre l post,
    cur = pre ++ l :: post -> pre <> [] -> Hashed l ->
    Nat.odd (fenceCount pre) = true.

(** *** Text without markup *)

(** None of the bytes [cs] occurs in [s]. *)
Definition Lacks (cs : list ascii) (s : str) : Prop :=
  forall c, In c cs -> ~ In c s.

(** The bytes of the entities [html.EscapeString] writes. *)
Definition entityBytes : str := "&#;0123456789amplgtq".

(** The last byte of [s] is [c]. *)
Definition EndsWith (c : ascii) (s : str) : Prop := exists p, s = p ++ [c].

(** The number of asterisks in a text. *)
Definition stars (s : str) : nat := count_occ ascii_dec s "*"%char.

(** No two asterisks stand side by side in the text. *)
Fixpoint noPair (s : str) : bool :=
  match s with
  | [] => true
  | c :: r =>
    match r with
    | d :: _ => negb (Ascii.eqb c "*" && Ascii.eqb d "*") && noPair r
    | [] => true
    end
  end.

(** *** Prose *)

(** A line of prose: trimmed, it holds no backtick, no opening bracket
    and no asterisk, and does not start with [#], [-], [_] or a
    digit. *)
Definition Prose (line : str) : Prop :=
  Lacks ["`"; "["; "*"]%char (strings.TrimSpace line)
  /\ match strings.TrimSpace line with
     | [] => True
     | c :: _ =>
       c <> "#"%char /\ c <> "-"%char /\ c <> "_"%char
       /\ regexp.digitClass c = false
     end.

(** The paragraph of an escaped line; nothing for a blank line. *)
Definition renderProse (line : str) : str :=
  if isEmpty (strings.TrimSpace line) then []
  else pTag (html.EscapeString (strings.TrimSpace line)).

(** *** [strings.ToLower] on arbitrary text

    [main] lowers a theme's transition name and compares the result
    with [fade], [slide] and [cut], so here the two runes outside
    ASCII whose lower case is an ASCII letter count: U+0130 (the bytes
    C4 B0), lowered to [i], and U+212A (E2 84 AA), lowered to [k].
    Every other byte outside ASCII is left as it is, where the library
    writes the lower case rune, or U+FFFD for a byte that is not UTF-8:
    bytes outside ASCII either way.  So the result is made of ASCII
    bytes exactly when the library's is, and then they are equal. *)
Fixpoint ToLowerRunes (s : str) : str :=
  match s with
  | [] => []
  | c1 :: r1 =>
    match r1 with
    | c2 :: r2 =>
      if N.eqb (strings.code c1) 196 && N.eqb (strings.code c2) 176
      then "i"%char :: ToLowerRunes r2
      else
        match r2 with
        | c3 :: r3 =>
          if N.eqb (strings.code c1) 226 && N.eqb (strings.code c2) 132
             && N.eqb (strings.code c3) 170
          then "k"%char :: ToLowerRunes r3
          else strings.lowerByte c1 :: ToLowerRunes r1
        | [] => strings.lowerByte c1 :: ToLowerRunes r1
        end
    | [] => [strings.lowerByte c1]
    end
  end.

(** *** [fileExists], [resolveConfigPath] *)

Section ConfigPath.

(** What the function reads of the process and of the file system:
    [os.Getenv(key)]; [os.UserHomeDir()], [None] when it returns an
    error; [os.Stat(path)], [None] when it returns an error and
    otherwise [info.IsDir()]; and [filepath.Join(a, b)], which depends
    on the operating system. *)
Variable Getenv : str -> str.
Variable UserHomeDir : option str.
Variable Stat : str -> option bool.
Variable filepathJoin : str -> str -> str.

(** [func fileExists(path string) bool] *)
Definition fileExists (path : str) : bool :=
  if isEmpty (strings.TrimSpace path) then false
  else
    match Stat path with
    | Some isDir => negb isDir
    | None => false
    end.

(** [func resolveConfigPath(userSpecified string) string] *)
Definition resolveConfigPath (userSpecified : str) : str :=
  if negb (isEmpty (strings.TrimSpace userSpecified)) then userSpecified
  else
    let xdg := Getenv "XDG_CONFIG_HOME" in
    let xdg :=
      if isEmpty (strings.TrimSpace xdg) then
        match UserHomeDir with
        | Some home =>
          if negb (isEmpty (strings.TrimSpace home))
          then filepathJoin home ".config"
          else xdg
        | None => xdg
        end
      else xdg in
    let local :=
      if fileExists "slides.md.yaml" then "slides.md.yaml" : str
      else if fileExists "themes.yaml" then "themes.yaml" : str
      else "themes.yaml" : str in
    if negb (isEmpty (strings.TrimSpace xdg)) then
      let candidate := filepathJoin xdg "slides.md.yaml" in
      if fileExists candidate then candidate else local
    else local.

End ConfigPath.

(** *** [Theme], [Slide] and what [main] prepares *)

Module Theme.

(** [type Theme struct]; [int] is 64 bits wide. *)
Record Theme : Type := mkTheme {
  Name : str;
  CSS : str;
  Title : str;
  Logo : str;
  ClassificationLabel : str;
  ClassificationBg : str;
  ClassificationFg : str;
  Transition : str;
  Watermark : bool;
  WatermarkText : str;
  WatermarkOpacity : PrimFloat.float;
  WatermarkAppendDate : bool;
  WatermarkMoveSeconds : Z;
  FirstSlide : str;
  LastSlide : str
}.

End Theme.

(** [type Slide struct]; [Number] counts slides, far below the range
    of [int]. *)
Record Slide : Type := mkSlide {
  Content : str;
  Number : nat
}.

(** [main]: the slides of the body, with the first and the last slide
    of the theme put around them. *)
Definition slidesContent (theme : Theme.Theme) (body : str) : list str :=
  let slidesContent := parseMarkdown body in
  let slidesContent :=
    if negb (isEmpty (strings.TrimSpace (Theme.FirstSlide theme)))
    then [Theme.FirstSlide theme] ++ slidesContent
    else slidesContent in
  if negb (isEmpty (strings.TrimSpace (Theme.LastSlide theme)))
  then slidesContent ++ [Theme.LastSlide theme]
  else slidesContent.

(** [main]: the loop [for i, slide := range slidesContent], from index
    [i] on; [oss i] gives the map iteration orders met while slide [i]
    is converted. *)
Fixpoint slidesFrom (oss : nat -> nat -> order) (i : nat)
    (slidesContent : list str) : list Slide :=
  match slidesContent with
  | [] => []
  | slide :: rest =>
    mkSlide (markdownToHTML (oss i) slide) (i + 1)
      :: slidesFrom oss (S i) rest
  end.

(** [main]: the page title, the deck's own before the theme's. *)
Definition pageTitle (theme : Theme.Theme) (deckTitle : str) : str :=
  if negb (isEmpty (strings.TrimSpace deckTitle)) then deckTitle
  else Theme.Title theme.

(** [main]: the transition, [cut] unless the theme names [fade],
    [slide] or [cut]. *)
Definition transition (theme : Theme.Theme) : str :=
  let transition :=
    ToLowerRunes (strings.TrimSpace (Theme.Transition theme)) in
  if str_eqb transition "fade" || str_eqb transition "slide"
     || str_eqb transition "cut"
  then transition
  else "cut".

Section Deck.

Variable yamlUnmarshal : str -> option Frontmatter.

(** [main], from the text of the markdown file to what the handlers
    serve: the slides, the page title and the transition. *)
Definition deck (oss : nat -> nat -> order) (theme : Theme.Theme)
    (mdContent : str) : list Slide * str * str :=
  let (deckTitle, body) := parseFrontmatter yamlUnmarshal mdContent in
  (slidesFrom oss 0 (slidesContent theme body),
   pageTitle theme deckTitle,
   transition theme).

End Deck.

(** *** [renderSlides]: the data handed to the template *)

(** The value of a Go [int], 64 bits wide, after an operation whose
    exact result is [z]. *)
Definition wrapInt (z : Z) : Z :=
  ((z + 9223372036854775808) mod 18446744073709551616 - 9223372036854775808)%Z.

(** The em dash of the watermark text, as its UTF-8 bytes. *)
Definition emDash : str := ["226"; "128"; "148"]%char.

Module data.

Record Classification : Type := mkClassification {
  Label : str;
  Bg : str;
  Fg : str
}.

Record Watermark : Type := mkWatermark {
  Enabled : bool;
  Text : str;
  Opacity : str;
  Repeat : list Z;
  MoveMs : Z
}.

(** The anonymous struct [data] of [renderSlides]. *)
Record T : Type := mkData {
  Title : str;
  DeckTitle : str;
  Logo : str;
  classification : Classification;
  Transition : str;
  watermark : Watermark;
  Slides : list Slide
}.

End data.

Section RenderSlides.

(** [time.Now().Format("2006-01-02")] and [fmt.Sprintf("%.2f", op)]. *)
Variable today : str.
Variable formatFixed2 : PrimFloat.float -> str.

(** [renderSlides], from [data.Title = pageTitle] to
    [data.Slides = slides]: the fields of [data] before the template
    is executed. *)
Definition renderData (slides : list Slide) (theme : Theme.Theme)
    (pageTitle transition : str) : data.T :=
  let DeckTitle := pageTitle in
  let Bg :=
    if isEmpty (strings.TrimSpace (Theme.ClassificationBg theme))
    then "#5e81ac" : str
    else Theme.ClassificationBg theme in
  let Fg :=
    if isEmpty (strings.TrimSpace (Theme.ClassificationFg theme))
    then "#ffffff" : str
    else Theme.ClassificationFg theme in
  let watermark :=
    if Theme.Watermark theme then
      let text := strings.TrimSpace (Theme.WatermarkText theme) in
      let text := if isEmpty text then DeckTitle else text in
      let text :=
        if Theme.WatermarkAppendDate theme
        then text ++ " " ++ emDash ++ " " ++ today
        else text in
      let op := Theme.WatermarkOpacity theme in
      let op :=
        if PrimFloat.leb op PrimFloat.zero || PrimFloat.ltb PrimFloat.one op
        then 0x1.47ae147ae147bp-4%float
        else op in
      data.mkWatermark true text (formatFixed2 op)
        (map Z.of_nat (seq 0 96))
        (if (0 <? Theme.WatermarkMoveSeconds theme)%Z
         then wrapInt (Theme.WatermarkMoveSeconds theme * 1000)
         else 0%Z)
    else data.mkWatermark false [] [] [] 0%Z in
  data.mkData pageTitle DeckTitle (normalizeAssetPath (Theme.Logo theme))
    (data.mkClassification (Theme.ClassificationLabel theme) Bg Fg)
    transition watermark slides.

End RenderSlides.

(** * Properties *)

(** ** Strings *)

Lemma str_eqb_eq (a b : str) : str_eqb a b = true <-> a = b.
Proof.
  revert b; induction a as [|x a IH]; intros [|y b]; simpl;
    try (split; [discriminate | discriminate]); try tauto.
  rewrite andb_true_iff, Ascii.eqb_eq, IH.
  split; [intros [-> ->]; reflexivity | intros H; inversion H; auto].
Qed.

Lemma isEmpty_true (s : str) : isEmpty s = true <-> s = [].
Proof. destruct s; simpl; split; congruence. Qed.

Module stringsFacts.
Import strings.

Lemma HasPrefix_iff (s p : str) :
  HasPrefix s p = true <-> exists r, s = p ++ r.
Proof.
  revert s; induction p as [|c p IH]; intros s; simpl.
  - split; [exists s; reflexivity | reflexivity].
  - destruct s as [|d s].
    + split; [discriminate | intros [r H]; discriminate].
    + rewrite andb_true_iff, Ascii.eqb_eq, IH.
      split.
      * intros [-> [r ->]]. exists r; reflexivity.
      * intros [r H]. inversion H; subst. split; [reflexivity | exists r; reflexivity].
Qed.

Lemma HasPrefix_app (p r : str) : HasPrefix (p ++ r) p = true.
Proof. apply HasPrefix_iff; exists r; reflexivity. Qed.


Lemma Cut_Some (s sep b a : str) :
  Cut s sep = Some (b, a) -> s = b ++ sep ++ a.
Proof.
  revert b a; induction s as [|c s IH]; intros b a; simpl.
  - destruct (HasPrefix [] sep) eqn:E; [|discriminate].
    intros H; inversion H; subst.
    apply HasPrefix_iff in E. destruct E as [r E].
    destruct sep; [reflexivity | discriminate].
  - destruct (HasPrefix (c :: s) sep) eqn:E.
    + intros H; inversion H; subst; clear H.
      apply HasPrefix_iff in E. destruct E as [r E]. rewrite E.
      simpl. rewrite skipn_app, skipn_all, Nat.sub_diag. reflexivity.
    + destruct (Cut s sep) as [[b' a']|] eqn:E'; [|discriminate].
      intros H; inversion H; subst; clear H.
      simpl. f_equal. apply IH. reflexivity.
Qed.

(** The cut is at the leftmost instance: [sep] starts at no earlier
    position. *)
Lemma Cut_leftmost (s sep b a : str) :
  Cut s sep = Some (b, a) ->
  forall b1 b2, b = b1 ++ b2 -> b2 <> [] ->
                HasPrefix (b2 ++ sep ++ a) sep = false.
Proof.
  revert b a; induction s as [|c s IH]; intros b a; simpl.
  - destruct (HasPrefix [] sep); [|discriminate].
    intros H; inversion H; subst. intros b1 b2 Hb Hne; destruct b1, b2; simpl in *; congruence.
  - destruct (HasPrefix (c :: s) sep) eqn:E.
    + intros H; inversion H; subst. intros b1 b2 Hb Hne; destruct b1, b2; simpl in *; congruence.
    + destruct (Cut s sep) as [[b' a']|] eqn:E'; [|discriminate].
      intros H; inversion H; subst; clear H.
      intros b1 b2 Hb Hne.
      destruct b1 as [|x b1]; simpl in Hb.
      * subst b2. simpl. rewrite <- (Cut_Some _ _ _ _ E'). exact E.
      * inversion Hb; subst. eapply IH; eauto.
Qed.

Lemma Cut_None (s sep : str) : Cut s sep = None <-> ~ Occurs sep s.
Proof.
  split.
  - induction s as [|c s IH]; simpl.
    + destruct (HasPrefix [] sep) eqn:E; [discriminate|]. intros _ [a [b H]].
      destruct a; [|discriminate]. simpl in H.
      rewrite H, HasPrefix_app in E. discriminate.
    + destruct (HasPrefix (c :: s) sep) eqn:E; [discriminate|].
      destruct (Cut s sep) as [[b' a']|] eqn:E'; [discriminate|].
      intros _ [a [b H]]. destruct a as [|x a]; simpl in H.
      * rewrite H, HasPrefix_app in E. discriminate.
      * inversion H; subst. apply IH; [reflexivity|]. exists a, b; reflexivity.
  - intros H. destruct (Cut s sep) as [[b a]|] eqn:E; [|reflexivity].
    exfalso. apply H. exists b, a. apply Cut_Some; assumption.
Qed.

Lemma Cut_shorter (s sep b a : str) :
  sep <> [] -> Cut s sep = Some (b, a) -> length a < length s.
Proof.
  intros Hne H. apply Cut_Some in H. subst s.
  rewrite !length_app. destruct sep; [congruence|]. simpl. lia.
Qed.

Lemma splitFuel_enough (sep : str) (Hne : sep <> []) (n : nat) :
  forall m s, length s <= n -> length s <= m ->
              splitFuel n s sep = splitFuel m s sep.
Proof.
  induction n as [|n IH]; intros m s Hn Hm.
  - destruct s; [|simpl in Hn; lia].
    destruct m; cbn [splitFuel]; [reflexivity|].
    destruct (Cut [] sep) as [[b a]|] eqn:E; [|reflexivity].
    apply Cut_shorter in E; [simpl in E; lia | assumption].
  - destruct m as [|m].
    + destruct s; [|simpl in Hm; lia]. cbn [splitFuel].
      destruct (Cut [] sep) as [[b a]|] eqn:E; [|reflexivity].
      apply Cut_shorter in E; [simpl in E; lia | assumption].
    + cbn [splitFuel]. destruct (Cut s sep) as [[b a]|] eqn:E; [|reflexivity].
      f_equal. pose proof (Cut_shorter _ _ _ _ Hne E). apply IH; lia.
Qed.

(** The equation of [Split]. *)
Lemma Split_eq (s sep : str) :
  sep <> [] ->
  Split s sep = match Cut s sep with
                | None => [s]
                | Some (b, a) => b :: Split a sep
                end.
Proof.
  intros Hne. unfold Split.
  destruct s as [|c s].
  - cbn [length splitFuel]. destruct (Cut [] sep) as [[b a]|] eqn:E; [|reflexivity].
    apply Cut_shorter in E; [simpl in E; lia | assumption].
  - cbn [length splitFuel].
    destruct (Cut (c :: s) sep) as [[b a]|] eqn:E; [|reflexivity].
    f_equal. pose proof (Cut_shorter _ _ _ _ Hne E) as Hl. simpl in Hl.
    apply splitFuel_enough; [assumption | lia | lia].
Qed.

Lemma replaceFuel_enough (old new : str) (Hne : old <> []) (n : nat) :
  forall m s, length s <= n -> length s <= m ->
              replaceFuel n s old new = replaceFuel m s old new.
Proof.
  induction n as [|n IH]; intros m s Hn Hm.
  - destruct s; [|simpl in Hn; lia].
    destruct m; cbn [replaceFuel]; [reflexivity|].
    destruct (Cut [] old) as [[b a]|] eqn:E; [|reflexivity].
    apply Cut_shorter in E; [simpl in E; lia | assumption].
  - destruct m as [|m].
    + destruct s; [|simpl in Hm; lia]. cbn [replaceFuel].
      destruct (Cut [] old) as [[b a]|] eqn:E; [|reflexivity].
      apply Cut_shorter in E; [simpl in E; lia | assumption].
    + cbn [replaceFuel]. destruct (Cut s old) as [[b a]|] eqn:E; [|reflexivity].
      do 2 f_equal. pose proof (Cut_shorter _ _ _ _ Hne E). apply IH; lia.
Qed.

(** The equation of [ReplaceAll]. *)
Lemma ReplaceAll_eq (s old new : str) :
  old <> [] ->
  ReplaceAll s old new = match Cut s old with
                         | None => s
                         | Some (b, a) => b ++ new ++ ReplaceAll a old new
                         end.
Proof.
  intros Hne. unfold ReplaceAll.
  destruct s as [|c s].
  - cbn [length replaceFuel]. destruct (Cut [] old) as [[b a]|] eqn:E; [|reflexivity].
    apply Cut_shorter in E; [simpl in E; lia | assumption].
  - cbn [length replaceFuel].
    destruct (Cut (c :: s) old) as [[b a]|] eqn:E; [|reflexivity].
    do 2 f_equal. pose proof (Cut_shorter _ _ _ _ Hne E) as Hl. simpl in Hl.
    apply replaceFuel_enough; [assumption | lia | lia].
Qed.

Lemma Split_not_nil (s sep : str) : Split s sep <> [].
Proof.
  unfold Split. destruct (length s); cbn [splitFuel]; [discriminate|].
  destruct (Cut s sep) as [[b a]|]; discriminate.
Qed.

(** Joining the pieces of a split with the separator gives the text
    back. *)
Lemma Join_Split (sep : str) (Hne : sep <> []) (s : str) :
  Join (Split s sep) sep = s.
Proof.
  remember (length s) as n eqn:Hn.
  revert s Hn. induction n as [n IH] using lt_wf_ind. intros s Hn.
  rewrite Split_eq by assumption.
  destruct (Cut s sep) as [[b a]|] eqn:E; [|reflexivity].
  pose proof (Cut_shorter _ _ _ _ Hne E) as Hl.
  pose proof (Cut_Some _ _ _ _ E) as Hs.
  specialize (IH (length a) ltac:(lia) a eq_refl).
  cbn [Join]. pose proof (Split_not_nil a sep) as Hnn.
  destruct (Split a sep) as [|x l]; [congruence|].
  rewrite IH. symmetry; exact Hs.
Qed.

End stringsFacts.

(** ** [normalizeAssetPath] *)

Section NormalizeAssetPath.
Import strings stringsFacts.

Lemma HasPrefix_ToLower (target p : str) :
  ToLower p = p ->
  HasPrefix (ToLower target) p = true <-> BeginsFold target p.
Proof.
  intros Hp. rewrite HasPrefix_iff. unfold BeginsFold, ToLower in *. split.
  - intros [r H]. apply map_eq_app in H. destruct H as [a [r' [Ht [Ha Hr]]]].
    exists a, r'. rewrite Ha, Hp. auto.
  - intros [a [r [Ht Ha]]]. exists (map lowerByte r).
    rewrite Ht, map_app, Ha, Hp. reflexivity.
Qed.

Lemma normalizeAssetPath_cases (target : str) :
  (AbsoluteTarget target /\ normalizeAssetPath target = target)
  \/ (~ AbsoluteTarget target
      /\ normalizeAssetPath target = "/assets/" ++ target).
Proof.
  unfold normalizeAssetPath, AbsoluteTarget.
  destruct (HasPrefix (ToLower target) "http://") eqn:E1;
    [left; split; [|reflexivity]; left;
     apply HasPrefix_ToLower; [reflexivity | assumption]|].
  destruct (HasPrefix (ToLower target) "https://") eqn:E2;
    [left; split; [|reflexivity]; right; left;
     apply HasPrefix_ToLower; [reflexivity | assumption]|].
  destruct (HasPrefix (ToLower target) "data:") eqn:E3;
    [left; split; [|reflexivity]; right; right; left;
     apply HasPrefix_ToLower; [reflexivity | assumption]|].
  destruct (HasPrefix (ToLower target) "/") eqn:E4;
    [left; split; [|reflexivity]; right; right; right;
     apply HasPrefix_ToLower; [reflexivity | assumption]|].
  right. split; [|reflexivity].
  intros [H|[H|[H|H]]]; apply HasPrefix_ToLower in H;
    try reflexivity; congruence.
Qed.



End NormalizeAssetPath.

(** ** [parseFrontmatter] *)

Section ParseFrontmatterFacts.
Import strings stringsFacts.



Lemma BeginsWithDelimiter_iff (t : str) :
  HasPrefix t ("---" ++ [nl]) || str_eqb t "---" = true
  <-> BeginsWithDelimiter t.
Proof.
  unfold BeginsWithDelimiter.
  rewrite orb_true_iff, HasPrefix_iff, str_eqb_eq. tauto.
Qed.



End ParseFrontmatterFacts.

(** ** [parseMarkdown]: the separator path *)

Section Separators.
Import strings stringsFacts.



Lemma breakLoop_filter (parts slides : list str) :
  breakLoop parts slides
  = slides ++ filter nonEmpty (map TrimSpace parts).
Proof.
  revert slides; induction parts as [|part rest IH]; intros slides; simpl.
  - rewrite app_nil_r; reflexivity.
  - unfold nonEmpty at 1. destruct (negb (isEmpty (TrimSpace part))).
    + rewrite IH, <- app_assoc. reflexivity.
    + apply IH.
Qed.

Lemma slideBreak_not_nil : slideBreak <> [].
Proof. discriminate. Qed.



End Separators.

(** ** [markdownToHTML]: the dispatch on a line *)

Section Dispatch.
Import strings stringsFacts.

Lemma HasPrefix_byte (c x : ascii) (t : str) :
  HasPrefix (c :: t) [x] = Ascii.eqb x c.
Proof. cbn [HasPrefix]. apply andb_true_r. Qed.

Lemma HasPrefix_hash (c : ascii) (t : str) :
  HasPrefix (c :: t) "#" = Ascii.eqb c "#".
Proof.
  change (HasPrefix (c :: t) ["#"%char] = Ascii.eqb c "#").
  rewrite HasPrefix_byte. apply Ascii.eqb_sym.
Qed.

Lemma headingLevel_HashRun (t : str) : HashRun (headingLevel t) t.
Proof.
  induction t as [|c t IH]; simpl.
  - exists []. split; reflexivity.
  - destruct (Ascii.eqb c "#") eqn:E.
    + apply Ascii.eqb_eq in E. subst c. destruct IH as [r [Ht Hr]].
      exists r. split; [simpl; f_equal; exact Ht | exact Hr].
    + exists (c :: t). split; [reflexivity|]. rewrite HasPrefix_hash. exact E.
Qed.

Lemma HashRun_headingLevel (n : nat) (t : str) :
  HashRun n t -> headingLevel t = n.
Proof.
  intros [r [-> Hr]]. induction n as [|n IH]; cbn [repeat app headingLevel].
  - destruct r as [|c r]; [reflexivity|]. rewrite HasPrefix_hash in Hr.
    cbn [headingLevel]. rewrite Hr. reflexivity.
  - rewrite Ascii.eqb_refl, IH. reflexivity.
Qed.

Lemma HashRun_skipn (n : nat) (t : str) :
  HashRun n t -> exists r, t = repeat "#"%char n ++ r /\ skipn n t = r.
Proof.
  intros [r [-> Hr]]. exists r. split; [reflexivity|].
  rewrite skipn_app, repeat_length, Nat.sub_diag, skipn_all2
    by (rewrite repeat_length; lia).
  reflexivity.
Qed.

(** The guard of the heading branch. *)
Lemma heading_guard (line : str) :
  HasPrefix (TrimSpace line) "#" && (headingLevel (TrimSpace line) <=? 6) = true
  <-> IsHeadingLine line.
Proof.
  unfold IsHeadingLine. set (t := TrimSpace line).
  rewrite andb_true_iff, Nat.leb_le. split.
  - intros [Hp Hl]. exists (headingLevel t). split.
    + split; [|exact Hl]. apply HasPrefix_iff in Hp. destruct Hp as [r ->].
      simpl. lia.
    + apply headingLevel_HashRun.
  - intros [n [[H1 H6] Hr]]. rewrite (HashRun_headingLevel n t Hr).
    split; [|exact H6]. destruct Hr as [r [-> _]].
    destruct n; [lia|]. reflexivity.
Qed.

Lemma rule_guard (line : str) :
  str_eqb (TrimSpace line) "---" || str_eqb (TrimSpace line) "***"
  || str_eqb (TrimSpace line) "___" = true
  <-> IsRule line.
Proof.
  unfold IsRule. rewrite !orb_true_iff, !str_eqb_eq. tauto.
Qed.

Lemma bullet_guard (line : str) :
  HasPrefix (TrimSpace line) "- " || HasPrefix (TrimSpace line) "* " = true
  <-> IsBullet line.
Proof.
  unfold IsBullet. rewrite orb_true_iff, !HasPrefix_iff. split.
  - intros [[r H]|[r H]]; exists r; auto.
  - intros [r [H|H]]; [left | right]; exists r; exact H.
Qed.

Lemma fence_guard (line : str) :
  HasPrefix (TrimSpace line) "```" = true <-> IsFence line.
Proof. unfold IsFence. apply HasPrefix_iff. Qed.

Lemma numbered_guard (line : str) :
  (0 <? length (regexp.FindStringSubmatch orderedListRegex (TrimSpace line)))
  = true <-> IsNumbered line.
Proof.
  unfold IsNumbered. rewrite Nat.ltb_lt.
  destruct (regexp.FindStringSubmatch orderedListRegex (TrimSpace line));
    simpl; split; intros; try congruence; lia.
Qed.

Lemma blank_guard (line : str) :
  negb (isEmpty (TrimSpace line)) = false <-> IsBlank line.
Proof.
  unfold IsBlank. rewrite negb_false_iff. apply isEmpty_true.
Qed.

(** An ordered item starts with a digit: [orderedListRegex] is
    anchored at the start of the text. *)
Lemma orderedListRegex_anchored (s : str) :
  regexp.find orderedListRegex false s = None.
Proof.
  induction s as [|c s IH]; [reflexivity|].
  cbn [regexp.find]. rewrite IH. reflexivity.
Qed.

Lemma numbered_digit (t : str) :
  regexp.FindStringSubmatch orderedListRegex t <> [] ->
  exists d r, t = d :: r /\ regexp.digitClass d = true.
Proof.
  unfold regexp.FindStringSubmatch.
  destruct t as [|d r]; [intros H; exfalso; apply H; reflexivity|].
  destruct (regexp.digitClass d) eqn:Ed; [exists d, r; auto|].
  cbn [regexp.find]. rewrite orderedListRegex_anchored.
  unfold regexp.matchAt, orderedListRegex. cbn [regexp.run]. rewrite Ed.
  intros H; exfalso; apply H; reflexivity.
Qed.


(** Every line falls in one case of the dispatch. *)
Lemma step_case (o : order) (st : state) (line : str) :
  StepCase o st line (step o st line).
Proof.
  unfold step.
  destruct (HasPrefix (TrimSpace line) "```") eqn:Ef.
  { apply fence_guard in Ef.
    replace (if inCodeBlock st
             then (mkState false false false,
                   ((if inUL st then [closeUL] else [])
                    ++ (if inOL st then [closeOL] else [])) ++ [closePre])
             else (mkState true false false,
                   ((if inUL st then [closeUL] else [])
                    ++ (if inOL st then [closeOL] else [])) ++ [openPre]))
      with (mkState (negb (inCodeBlock st)) false false,
            closers st ++ [if inCodeBlock st then closePre else openPre])
      by (unfold closers; destruct (inCodeBlock st); reflexivity).
    apply SFence; assumption. }
  assert (Hnf : ~ IsFence line)
    by (intros H; apply fence_guard in H; congruence).
  destruct (inCodeBlock st) eqn:Ec.
  { apply SCode; assumption. }
  destruct (HasPrefix (TrimSpace line) "#"
            && (headingLevel (TrimSpace line) <=? 6)) eqn:Eh.
  { apply heading_guard in Eh. destruct Eh as [n [Hn Hr]].
    rewrite (HashRun_headingLevel n _ Hr).
    apply SHeading; assumption. }
  assert (Hnh : ~ IsHeadingLine line)
    by (intros H; apply heading_guard in H; congruence).
  destruct (str_eqb (TrimSpace line) "---" || str_eqb (TrimSpace line) "***"
            || str_eqb (TrimSpace line) "___") eqn:Er.
  { apply rule_guard in Er. apply SRule; assumption. }
  assert (Hnr : ~ IsRule line)
    by (intros H; apply rule_guard in H; congruence).
  destruct (HasPrefix (TrimSpace line) "- " || HasPrefix (TrimSpace line) "* ")
    eqn:Eb.
  { apply bullet_guard in Eb. apply SBullet; assumption. }
  assert (Hnb : ~ IsBullet line)
    by (intros H; apply bullet_guard in H; congruence).
  destruct (0 <? length (regexp.FindStringSubmatch orderedListRegex
                           (TrimSpace line))) eqn:En.
  { apply numbered_guard in En. apply SNumbered; assumption. }
  assert (Hnn : ~ IsNumbered line)
    by (intros H; apply numbered_guard in H; congruence).
  destruct (negb (isEmpty (TrimSpace line))) eqn:Ee.
  - rewrite app_assoc. fold (closers st).
    apply SParagraph; [|assumption].
    repeat split; try assumption.
    intros H; apply blank_guard in H; congruence.
  - apply blank_guard in Ee. apply SBlank; assumption.
Qed.

End Dispatch.

(** ** [html.EscapeString] writes no [<] *)

Lemma escapeByte_no_lt (c : ascii) : ~ In "<"%char (html.escapeByte c).
Proof.
  unfold html.escapeByte.
  destruct (Ascii.eqb c "&"); [simpl; intuition discriminate|].
  destruct (Ascii.eqb c "'"); [simpl; intuition discriminate|].
  destruct (Ascii.eqb c "<") eqn:E; [simpl; intuition discriminate|].
  destruct (Ascii.eqb c ">"); [simpl; intuition discriminate|].
  destruct (Ascii.eqb c dquote); [simpl; intuition discriminate|].
  simpl. intros [H|[]]. subst c. discriminate.
Qed.

Lemma EscapeString_no_lt (s : str) : ~ In "<"%char (html.EscapeString s).
Proof.
  unfold html.EscapeString. rewrite in_flat_map.
  intros [c [_ H]]. exact (escapeByte_no_lt c H).
Qed.

(** ** [markdownToHTML]: lines and lists *)

(** No line is of two kinds. *)
Ltac line_form H :=
  match type of H with
  | IsFence _ => destruct H as [? H]
  | IsHeadingLine _ =>
    let n := fresh "n" in
    destruct H as [n [[? ?] [? [H _]]]]; destruct n; [lia|];
    cbn [repeat app] in H
  | IsRule _ => destruct H as [H|[H|H]]
  | IsBlank _ => unfold IsBlank in H
  | IsBullet _ => destruct H as [? [H|H]]
  | IsNumbered _ =>
    apply numbered_digit in H; destruct H as [? [? [H ?]]]
  end.

Ltac clash H1 H2 :=
  exfalso; line_form H1; line_form H2; rewrite H1 in H2; inversion H2; subst;
  match goal with
  | Hd : regexp.digitClass _ = true |- _ => vm_compute in Hd; discriminate
  end.

Section Lists.
Import strings stringsFacts.

Lemma heading_line (n : nat) (line : str) :
  1 <= n <= 6 -> HashRun n (TrimSpace line) -> IsHeadingLine line.
Proof. intros; exists n; auto. Qed.

(** C3. In one iteration of the loop of [markdownToHTML]:
    - a heading line, a horizontal rule line or a blank line leaves
      [inUL] and [inOL] as they were and writes neither [</ul>] nor
      [</ol>];
    - a fence line writes the closing tag of every open list and then
      its own tag, and leaves no list open;
    - an unordered item met outside a code block writes [</ol>] first
      if an ordered list is open, and an ordered item writes [</ul>]
      first if an unordered list is open;
    - a paragraph line met outside a code block writes the closing tag
      of every open list and then its paragraph, and leaves no list
      open.
    So a heading, a blank line and a rule between two unordered items
    stay inside the one list, and an ordered item after two unordered
    ones closes their list. *)
Theorem step_list_state :
  (forall (o : order) (st : state) (line : str),
    let st' := fst (step o st line) in
    let out := snd (step o st line) in
    (IsHeadingLine line \/ IsRule line \/ IsBlank line ->
     inUL st' = inUL st /\ inOL st' = inOL st
     /\ ~ In closeUL out /\ ~ In closeOL out)
    /\ (IsFence line ->
        inUL st' = false /\ inOL st' = false
        /\ exists own, out = closers st ++ [own]
                       /\ (own = openPre \/ own = closePre))
    /\ (inCodeBlock st = false -> IsBullet line ->
        inUL st' = true /\ inOL st' = false
        /\ exists item,
            out = (if inOL st then [closeOL] else [])
                    ++ (if inUL st then [] else [openUL]) ++ [liTag item])
    /\ (inCodeBlock st = false -> IsNumbered line ->
        inUL st' = false /\ inOL st' = true
        /\ exists item,
            out = (if inUL st then [closeUL] else [])
                    ++ (if inOL st then [] else [openOL]) ++ [liTag item])
    /\ (inCodeBlock st = false -> IsParagraph line ->
        inUL st' = false /\ inOL st' = false
        /\ out = closers st
                   ++ [pTag (parseInline o (TrimSpace line))]))
  /\ (forall os : nat -> order,
         markdownToHTML os (golit "- a\n# h\n\n---\n- b")
         = golit "<ul>\n<li>a</li>\n<h1>h</h1>\n<hr>\n<li>b</li>\n</ul>\n")
  /\ (forall os : nat -> order,
         markdownToHTML os (golit "- a\n- b\n1. c")
         = golit "<ul>\n<li>a</li>\n<li>b</li>\n</ul>\n"
             ++ golit "<ol>\n<li>c</li>\n</ol>\n").
Proof.
  split; [|split; intros os; vm_compute; reflexivity].
  intros o st line st' out. subst st' out.
  destruct (step_case o st line)
    as [Hf | Hnf Hc | n Hnf Hc Hn Hr | Hnf Hc Hnh Hr | Hnf Hc Hnh Hnr Hb
        | Hnf Hc Hnh Hnr Hnb Hn | Hp Hc | Hnf Hc Hnh Hnr Hnb Hnn He];
    cbn [fst snd inUL inOL].
  - (* fence *)
    split; [intros [H|[H|H]]; [clash Hf H | clash Hf H | clash Hf H]|].
    split; [intros _; split; [reflexivity|]; split; [reflexivity|];
            eexists; split; [reflexivity|];
            destruct (inCodeBlock st); auto|].
    split; [intros _ H; clash Hf H|].
    split; [intros _ H; clash Hf H|].
    intros _ [H _]; contradiction.
  - (* a line of a code block *)
    split; [intros _; split; [reflexivity|]; split; [reflexivity|];
            split; (intros [H|[H|[]]];
                    [apply (EscapeString_no_lt line); rewrite H;
                     left; reflexivity | discriminate])|].
    split; [intros H; contradiction|].
    repeat split; intros; congruence.
  - (* heading *)
    pose proof (heading_line n line Hn Hr) as Hh.
    split; [intros _; split; [reflexivity|]; split; [reflexivity|];
            split; intros [H|[]]; discriminate|].
    split; [intros H; contradiction|].
    split; [intros _ H; clash Hh H|].
    split; [intros _ H; clash Hh H|].
    intros _ [_ [H _]]; contradiction.
  - (* horizontal rule *)
    split; [intros _; split; [reflexivity|]; split; [reflexivity|];
            split; intros [H|[]]; discriminate|].
    split; [intros H; contradiction|].
    split; [intros _ H; clash Hr H|].
    split; [intros _ H; clash Hr H|].
    intros _ [_ [_ [H _]]]; contradiction.
  - (* unordered item *)
    split; [intros [H|[H|H]]; [contradiction | contradiction | clash Hb H]|].
    split; [intros H; contradiction|].
    split; [intros _ _; split; [reflexivity|]; split; [reflexivity|];
            eexists; reflexivity|].
    split; [intros _ H; clash Hb H|].
    intros _ [_ [_ [_ [H _]]]]; contradiction.
  - (* ordered item *)
    split; [intros [H|[H|H]]; [contradiction | contradiction | clash Hn H]|].
    split; [intros H; contradiction|].
    split; [intros _ H; contradiction|].
    split; [intros _ _; split; [reflexivity|]; split; [reflexivity|];
            eexists; reflexivity|].
    intros _ [_ [_ [_ [_ [H _]]]]]; contradiction.
  - (* paragraph *)
    destruct Hp as [Hnf [Hnh [Hnr [Hnb [Hnn Hne]]]]].
    split; [intros [H|[H|H]]; contradiction|].
    split; [intros H; contradiction|].
    split; [intros _ H; contradiction|].
    split; [intros _ H; contradiction|].
    intros _ _. auto.
  - (* blank *)
    split; [intros _; split; [reflexivity|]; split; [reflexivity|];
            split; intros []|].
    split; [intros H; contradiction|].
    split; [intros _ H; contradiction|].
    split; [intros _ H; contradiction|].
    intros _ [_ [_ [_ [_ [_ H]]]]]; contradiction.
Qed.

End Lists.

Ltac not_heading Hc :=
  match type of Hc with
  | _ = [headingTag ?n _] =>
    destruct n as [|[|[|[|[|[|[|n]]]]]]]; try lia;
    vm_compute in Hc; discriminate
  end.

Section Lists2.
Import strings stringsFacts.

(** The statement at an unordered item met while an ordered list is
    open. *)
Lemma step_list_state_witness :
  inUL (fst (step [] (mkState false false true) "- b")) = true
  /\ inOL (fst (step [] (mkState false false true) "- b")) = false
  /\ exists item,
      snd (step [] (mkState false false true) "- b")
      = [closeOL] ++ [openUL] ++ [liTag item].
Proof.
  apply (proj1 (proj2 (proj2
           (proj1 step_list_state [] (mkState false false true) "- b")))).
  - reflexivity.
  - exists "b". left. vm_compute. reflexivity.
Defined.

(** C6, as the code has it.  A line met outside a code block that is
    not a fence line is rendered as a heading exactly when, trimmed, it
    has between one and six leading [#]; whatever follows them, white
    space or not, the line is then rendered as the one element [<hN>]
    with [N] the number of leading [#], around the inline transform of
    the rest of the line, trimmed. *)
Theorem heading_rendering :
  forall (o : order) (st : state) (line : str),
    inCodeBlock st = false -> ~ IsFence line ->
    ((exists n, 1 <= n <= 6 /\ RendersHeading n (snd (step o st line)))
     <-> IsHeadingLine line)
    /\ (forall (n : nat) (r : str),
           1 <= n <= 6 ->
           TrimSpace line = repeat "#"%char n ++ r ->
           HasPrefix r "#" = false ->
           step o st line
           = (st, [headingTag n (parseInline o (TrimSpace r))])).
Proof.
  intros o st line Hc0 Hnf0.
  destruct (step_case o st line)
    as [Hf | Hnf Hc | n Hnf Hc Hn Hr | Hnf Hc Hnh Hr | Hnf Hc Hnh Hnr Hb
        | Hnf Hc Hnh Hnr Hnb Hn | Hp Hc | Hnf Hc Hnh Hnr Hnb Hnn He];
    try contradiction; try congruence.
  - (* heading *)
    split.
    + split; [intros _; exact (heading_line n line Hn Hr)|].
      intros _. exists n. split; [exact Hn|]. eexists. reflexivity.
    + intros m r Hm Ht Hr'.
      assert (Hm' : HashRun m (TrimSpace line)) by (exists r; auto).
      rewrite <- (HashRun_headingLevel n _ Hr),
              (HashRun_headingLevel m _ Hm').
      destruct (HashRun_skipn m _ Hm') as [r' [Ht' Hs]].
      rewrite Hs. rewrite Ht in Ht'. apply app_inv_head in Ht'. subst r'.
      reflexivity.
  - (* horizontal rule *)
    split.
    + split; [|intros H; contradiction].
      intros [n [Hn [c Hc']]]. cbn [snd] in Hc'. not_heading Hc'.
    + intros n r Hn Ht Hr'. exfalso. apply Hnh. exists n.
      split; [exact Hn | exists r; auto].
  - (* unordered item *)
    split.
    + split; [|intros H; contradiction].
      intros [n [Hn [c Hc']]]. cbn [snd] in Hc'.
      destruct (inOL st), (inUL st); cbn [app] in Hc';
        try discriminate; unfold liTag in Hc'; not_heading Hc'.
    + intros n r Hn Ht Hr'. exfalso. apply Hnh. exists n.
      split; [exact Hn | exists r; auto].
  - (* ordered item *)
    split.
    + split; [|intros H; contradiction].
      intros [n [Hn' [c Hc']]]. cbn [snd] in Hc'.
      destruct (inOL st), (inUL st); cbn [app] in Hc';
        try discriminate; unfold liTag in Hc'; not_heading Hc'.
    + intros n r Hn' Ht Hr'. exfalso. apply Hnh. exists n.
      split; [exact Hn' | exists r; auto].
  - (* paragraph *)
    destruct Hp as [_ [Hnh _]].
    split.
    + split; [|intros H; contradiction].
      intros [n [Hn' [c Hc']]]. cbn [snd] in Hc'. unfold closers in Hc'.
      destruct (inOL st), (inUL st); cbn [app] in Hc';
        try discriminate; unfold pTag in Hc'; not_heading Hc'.
    + intros n r Hn' Ht Hr'. exfalso. apply Hnh. exists n.
      split; [exact Hn' | exists r; auto].
  - (* blank *)
    split.
    + split; [|intros H; contradiction].
      intros [n [Hn' [c Hc']]]. discriminate.
    + intros n r Hn' Ht Hr'. exfalso. apply Hnh. exists n.
      split; [exact Hn' | exists r; auto].
Qed.

(** The statement at a heading of level two. *)
Lemma heading_rendering_witness :
  step [] initState "## Getting Started"
  = (initState, [headingTag 2 (parseInline [] (TrimSpace " Getting Started"))]).
Proof.
  apply (proj2 (heading_rendering [] initState "## Getting Started"
                  eq_refl
                  ltac:(intros [r H]; vm_compute in H; discriminate))
           2 " Getting Started").
  - lia.
  - vm_compute. reflexivity.
  - reflexivity.
Defined.

(** C6 as worded fails: [#foo] has no white space after its [#], is
    no fence line, and is rendered as a heading all the same. *)
Lemma heading_without_space :
  ~ IsSpacedHeadingLine "#foo"
  /\ ~ IsFence "#foo"
  /\ (forall o : order,
         step o initState "#foo" = (initState, [headingTag 1 "foo"]))
  /\ (forall os : nat -> order,
         markdownToHTML os "#foo" = golit "<h1>foo</h1>\n").
Proof.
  split; [|split; [|split]].
  - intros [n [r [Hn [Ht Hs]]]]. vm_compute in Ht.
    destruct n as [|[|n]]; [lia| |].
    + inversion Ht; subst r. apply Hs. reflexivity.
    + discriminate.
  - intros [r H]. vm_compute in H. discriminate.
  - intros o. vm_compute. reflexivity.
  - intros os. vm_compute. reflexivity.
Qed.

(** C7: what the code does with an unordered item.  The list state
    moves as the rule says, but the text of the item is the trimmed
    line after [TrimPrefix] with [- ] and then [TrimPrefix] with [* ]:
    on [- * x] both prefixes go and the item is [x], not [* x]. *)
Theorem bullet_item_strips_both_markers :
  (forall (o : order) (st : state) (line : str),
      inCodeBlock st = false -> IsBullet line ->
      step o st line
      = (mkState false true false,
         (if inOL st then [closeOL] else [])
         ++ (if inUL st then [] else [openUL])
         ++ [liTag (parseInline o
                      (TrimPrefix (TrimPrefix (TrimSpace line) "- ")
                         "* "))]))
  /\ TrimPrefix (TrimPrefix "- * x" "- ") "* " = "x"
  /\ (forall os : nat -> order,
         markdownToHTML os "- * x" = golit "<ul>\n<li>x</li>\n</ul>\n").
Proof.
  split; [|split; [reflexivity | intros os; vm_compute; reflexivity]].
  intros o st line Hc0 Hb0.
  destruct (step_case o st line)
    as [Hf | Hnf Hc | n Hnf Hc Hn Hr | Hnf Hc Hnh Hr | Hnf Hc Hnh Hnr Hb
        | Hnf Hc Hnh Hnr Hnb Hn | Hp Hc | Hnf Hc Hnh Hnr Hnb Hnn He];
    try contradiction; try congruence.
  - clash Hf Hb0.
  - pose proof (heading_line n line Hn Hr) as Hh. clash Hh Hb0.
  - clash Hr Hb0.
  - destruct Hp as [_ [_ [_ [H _]]]]. contradiction.
Qed.

(** The statement at [- * x], first line of a slide. *)
Lemma bullet_item_strips_both_markers_witness :
  step [] initState "- * x"
  = (mkState false true false, [openUL; liTag "x"]).
Proof.
  rewrite (proj1 bullet_item_strips_both_markers [] initState "- * x").
  - vm_compute. reflexivity.
  - reflexivity.
  - exists "* x". left. vm_compute. reflexivity.
Defined.

End Lists2.

(** ** [strings.TrimSpace] *)

Section TrimSpaceFacts.
Import strings stringsFacts.

Lemma TrimLeftSpace_fix (s : str) :
  spaceStart s = false -> TrimLeftSpace s = s.
Proof.
  destruct s as [|c1 [|c2 [|c3 r]]]; cbn [spaceStart TrimLeftSpace];
    intros H; try reflexivity;
    destruct (isSpace1 c1); try discriminate;
    try (destruct (isSpace2 c1 c2); try discriminate);
    try (destruct (isSpace3 c1 c2 c3); try discriminate);
    reflexivity.
Qed.

Lemma TrimLeftSpace_start (s : str) : spaceStart (TrimLeftSpace s) = false.
Proof.
  remember (length s) as n eqn:Hn. revert s Hn.
  induction n as [n IH] using lt_wf_ind. intros s Hn.
  destruct s as [|c1 r1]; [reflexivity|].
  cbn [TrimLeftSpace]. destruct (isSpace1 c1) eqn:E1.
  { apply (IH (length r1)); [simpl in Hn; lia | reflexivity]. }
  destruct r1 as [|c2 r2].
  { cbn [spaceStart]. rewrite E1. reflexivity. }
  destruct (isSpace2 c1 c2) eqn:E2.
  { apply (IH (length r2)); [simpl in Hn; lia | reflexivity]. }
  destruct r2 as [|c3 r3].
  { cbn [spaceStart]. rewrite E1, E2. reflexivity. }
  destruct (isSpace3 c1 c2 c3) eqn:E3.
  { apply (IH (length r3)); [simpl in Hn; lia | reflexivity]. }
  cbn [spaceStart]. rewrite E1, E2, E3. reflexivity.
Qed.

(** Whether a text starts with white space is decided by its first
    bytes. *)
Lemma spaceStart_app (p q : str) :
  spaceStart p = true -> spaceStart (p ++ q) = true.
Proof.
  destruct p as [|c1 [|c2 [|c3 r]]]; cbn [spaceStart app]; intros H;
    try discriminate.
  - rewrite orb_false_r in H. rewrite H. reflexivity.
  - rewrite orb_false_r in H. apply orb_true_iff in H.
    destruct H as [-> | ->]; [reflexivity|].
    rewrite orb_true_l, orb_true_r. reflexivity.
  - exact H.
Qed.

Lemma isSpace2_nl (c : ascii) : isSpace2 c nl = false.
Proof. unfold isSpace2. apply andb_false_r. Qed.

Lemma isSpace3_nl2 (c c3 : ascii) : isSpace3 c nl c3 = false.
Proof.
  unfold isSpace3. cbn [code nl N_of_ascii N.eqb].
  change (code nl) with 10%N. cbn [N.eqb Pos.eqb].
  rewrite !andb_false_r. reflexivity.
Qed.

Lemma isSpace3_nl3 (c1 c2 : ascii) : isSpace3 c1 c2 nl = false.
Proof.
  unfold isSpace3. change (code nl) with 10%N.
  cbn [N.eqb Pos.eqb N.leb N.compare Pos.compare Pos.compare_cont].
  rewrite !andb_false_r. reflexivity.
Qed.

(** A newline after a line does not make the line start with white
    space. *)
Lemma spaceStart_line (l x : str) :
  l <> [] -> spaceStart (l ++ nl :: x) = spaceStart l.
Proof.
  intros Hne.
  destruct l as [|c1 [|c2 [|c3 r]]]; [congruence| | |];
    cbn [spaceStart app].
  - rewrite isSpace2_nl. destruct x; [reflexivity|].
    rewrite isSpace3_nl2. reflexivity.
  - rewrite isSpace3_nl3. reflexivity.
  - reflexivity.
Qed.

(** Trimming on the right leaves a prefix. *)
Lemma trimRev_suffix (r : str) : exists q, r = q ++ trimRev r.
Proof.
  remember (length r) as n eqn:Hn. revert r Hn.
  induction n as [n IH] using lt_wf_ind. intros r Hn.
  destruct r as [|c1 r1]; [exists []; reflexivity|].
  cbn [trimRev]. destruct (isSpace1 c1).
  { destruct (IH (length r1) ltac:(simpl in Hn; lia) r1 eq_refl) as [q Hq].
    exists (c1 :: q). simpl. f_equal. exact Hq. }
  destruct r1 as [|c2 r2]; [exists []; reflexivity|].
  destruct (isSpace2 c2 c1).
  { destruct (IH (length r2) ltac:(simpl in Hn; lia) r2 eq_refl) as [q Hq].
    exists (c1 :: c2 :: q). simpl. do 2 f_equal. exact Hq. }
  destruct r2 as [|c3 r3]; [exists []; reflexivity|].
  destruct (isSpace3 c3 c2 c1).
  { destruct (IH (length r3) ltac:(simpl in Hn; lia) r3 eq_refl) as [q Hq].
    exists (c1 :: c2 :: c3 :: q). simpl. do 3 f_equal. exact Hq. }
  exists []; reflexivity.
Qed.

Lemma TrimRightSpace_prefix (s : str) : exists q, s = TrimRightSpace s ++ q.
Proof.
  unfold TrimRightSpace. destruct (trimRev_suffix (rev s)) as [q Hq].
  exists (rev q). rewrite <- rev_app_distr, <- Hq, rev_involutive.
  reflexivity.
Qed.

(** If trimming on the right deletes a text, the text starts with white
    space. *)
Lemma trimRev_nil (r : str) :
  trimRev r = [] -> r = [] \/ spaceStart (rev r) = true.
Proof.
  remember (length r) as n eqn:Hn. revert r Hn.
  induction n as [n IH] using lt_wf_ind. intros r Hn H.
  destruct r as [|c1 r1]; [left; reflexivity|]. right.
  cbn [trimRev] in H. destruct (isSpace1 c1) eqn:E1.
  { destruct (IH (length r1) ltac:(simpl in Hn; lia) r1 eq_refl H) as [->|Hs].
    - cbn. rewrite E1. reflexivity.
    - cbn [rev]. apply spaceStart_app. exact Hs. }
  destruct r1 as [|c2 r2]; [discriminate|].
  destruct (isSpace2 c2 c1) eqn:E2.
  { destruct (IH (length r2) ltac:(simpl in Hn; lia) r2 eq_refl H) as [->|Hs].
    - cbn. rewrite E2. apply orb_true_r.
    - cbn [rev]. rewrite <- app_assoc. apply spaceStart_app. exact Hs. }
  destruct r2 as [|c3 r3]; [discriminate|].
  destruct (isSpace3 c3 c2 c1) eqn:E3; [|discriminate].
  destruct (IH (length r3) ltac:(simpl in Hn; lia) r3 eq_refl H) as [->|Hs].
  - cbn. rewrite E3. rewrite !orb_true_r. reflexivity.
  - cbn [rev]. rewrite <- !app_assoc. apply spaceStart_app. exact Hs.
Qed.

Lemma Good_HasText (s : str) : Good s -> HasText s.
Proof.
  intros [Hne Hs]. unfold HasText, TrimSpace.
  rewrite (TrimLeftSpace_fix s Hs). unfold TrimRightSpace.
  intros H. apply (f_equal (@rev ascii)) in H.
  rewrite rev_involutive in H. cbn [rev] in H.
  apply trimRev_nil in H. destruct H as [H|H].
  - apply (f_equal (@rev ascii)) in H. rewrite rev_involutive in H.
    cbn in H. congruence.
  - rewrite rev_involutive in H. congruence.
Qed.

(** What [TrimSpace] returns is empty or [Good]. *)
Lemma TrimSpace_Good (s : str) : TrimSpace s <> [] -> Good (TrimSpace s).
Proof.
  intros Hne. split; [exact Hne|].
  unfold TrimSpace in *.
  destruct (TrimRightSpace_prefix (TrimLeftSpace s)) as [q Hq].
  destruct (spaceStart (TrimRightSpace (TrimLeftSpace s))) eqn:E;
    [|reflexivity].
  apply (spaceStart_app _ q) in E. rewrite <- Hq in E.
  rewrite TrimLeftSpace_start in E. discriminate.
Qed.

End TrimSpaceFacts.

(** ** [parseMarkdown]: slides with text *)

Section SlidesWithText.
Import strings stringsFacts.

Lemma Join_cons (l l' sep : str) (ls : list str) :
  Join (l :: l' :: ls) sep = l ++ sep ++ Join (l' :: ls) sep.
Proof. reflexivity. Qed.

Lemma Join_Good (l : str) (ls : list str) : Good l -> Good (Join (l :: ls) [nl]).
Proof.
  intros [Hne Hs]. destruct ls as [|l' ls]; [split; assumption|].
  rewrite Join_cons. cbn [app]. split.
  - destruct l; [congruence | discriminate].
  - rewrite spaceStart_line by assumption. exact Hs.
Qed.

Lemma hash_Good (line : str) : HasPrefix line "#" = true -> Good line.
Proof.
  intros H. apply HasPrefix_iff in H. destruct H as [r ->].
  split; [discriminate|]. destruct r as [|c2 [|c3 r]]; reflexivity.
Qed.

Lemma GoodHead_snoc (cs : list str) (line : str) :
  GoodHead cs -> (cs = [] -> Good line) -> GoodHead (cs ++ [line]).
Proof.
  destruct cs as [|l cs]; simpl; auto.
Qed.

(** The loop of the heading path keeps every slide [Good]. *)
Lemma headingLoop_Good (lines : list str) :
  forall (slides currentSlide : list str) (inCode : bool),
    Forall Good slides -> GoodHead currentSlide ->
    (currentSlide = [] -> GoodHead lines) ->
    Forall Good (fst (headingLoop lines slides currentSlide inCode))
    /\ GoodHead (snd (headingLoop lines slides currentSlide inCode)).
Proof.
  induction lines as [|line rest IH]; intros slides cs b Hs Hc Hl.
  - split; assumption.
  - cbn [headingLoop].
    assert (Hsnoc : GoodHead (cs ++ [line])).
    { apply GoodHead_snoc; [assumption|]. intros E. exact (Hl E). }
    assert (Hne : cs ++ [line] = [] -> GoodHead rest).
    { intros E. destruct cs; discriminate. }
    destruct (HasPrefix line "```"); [apply IH; assumption|].
    destruct (negb b && HasPrefix line "#") eqn:E; [|apply IH; assumption].
    apply andb_true_iff in E. destruct E as [_ E].
    apply IH.
    + destruct cs as [|l cs]; [exact Hs|]. cbn [length Nat.ltb Nat.leb].
      apply Forall_app. split; [exact Hs|].
      constructor; [|constructor]. apply Join_Good. exact Hc.
    + apply hash_Good. exact E.
    + discriminate.
Qed.

(** The first line of a [Good] text is [Good]. *)
Lemma first_line_Good (t : str) : Good t -> GoodHead (Split t [nl]).
Proof.
  intros [Hne Hs]. rewrite Split_eq by discriminate.
  destruct (Cut t [nl]) as [[b a]|] eqn:E; [|split; assumption].
  apply Cut_Some in E. cbn [GoodHead]. subst t.
  destruct b as [|c b]; [discriminate|].
  split; [discriminate|].
  change ((c :: b) ++ [nl] ++ a) with ((c :: b) ++ nl :: a) in Hs.
  rewrite spaceStart_line in Hs by discriminate. exact Hs.
Qed.

Lemma breakLoop_Good (parts slides : list str) :
  Forall Good slides -> Forall Good (breakLoop parts slides).
Proof.
  revert slides. induction parts as [|part rest IH]; intros slides Hs.
  - exact Hs.
  - cbn [breakLoop].
    destruct (isEmpty (TrimSpace part)) eqn:E; cbn [negb];
      [apply IH; exact Hs|].
    apply IH. apply Forall_app. split; [exact Hs|].
    constructor; [|constructor]. apply TrimSpace_Good.
    intros H. rewrite H in E. discriminate.
Qed.

(** C4: what the code does.  When the body holds some text, every
    slide [parseMarkdown] returns holds some text.  But for an empty or
    all-white-space body the heading path returns one slide, the empty
    string: [strings.Split] of the empty text is one empty line, so
    [len(currentSlide) > 0] holds and the empty slide is appended. *)
Theorem parseMarkdown_slides_with_text :
  (forall body : str,
      HasText body -> Forall HasText (parseMarkdown body))
  /\ (forall body : str,
         ~ HasText body -> parseMarkdown body = [[]])
  /\ parseMarkdown [] = [[]]
  /\ parseMarkdown (golit "  \n\t ") = [[]]
  /\ ~ HasText [].
Proof.
  split; [|split; [|split; [|split]]].
  - intros body Hb. unfold HasText in Hb.
    pose proof (TrimSpace_Good body Hb) as Hg.
    apply Forall_impl with (P := Good); [exact Good_HasText|].
    unfold parseMarkdown.
    destruct (length (Split (TrimSpace body) slideBreak) =? 1).
    + pose proof (headingLoop_Good (Split (TrimSpace body) [nl]) [] [] false
                    (Forall_nil _) I
                    (fun _ => first_line_Good (TrimSpace body) Hg)) as H.
      destruct (headingLoop (Split (TrimSpace body) [nl]) [] [] false)
        as [slides cs].
      cbn [fst snd] in H. destruct H as [Hs Hc].
      destruct cs as [|l cs]; [exact Hs|]. cbn [length Nat.ltb Nat.leb].
      apply Forall_app. split; [exact Hs|].
      constructor; [|constructor]. apply Join_Good. exact Hc.
    + apply breakLoop_Good. constructor.
  - intros body Hb. unfold HasText in Hb.
    assert (E : TrimSpace body = []).
    { destruct (TrimSpace body); [reflexivity|].
      exfalso. apply Hb. discriminate. }
    unfold parseMarkdown. rewrite E. reflexivity.
  - reflexivity.
  - vm_compute. reflexivity.
  - intros H. apply H. reflexivity.
Qed.

(** The statement at a body with two headings, and at the empty
    body. *)
Lemma parseMarkdown_slides_with_text_witness :
  Forall HasText (parseMarkdown (golit "# A\nbody\n# B\nbody2"))
  /\ parseMarkdown (golit " \n ") = [[]].
Proof.
  split.
  - apply (proj1 parseMarkdown_slides_with_text).
    unfold HasText. vm_compute. discriminate.
  - apply (proj1 (proj2 parseMarkdown_slides_with_text)).
    unfold HasText. vm_compute. intros H. apply H. reflexivity.
Defined.

End SlidesWithText.

(** ** The matcher *)

Module regexpFacts.
Import regexp regexpSpec.

Lemma starGreedy_sound (p : ascii -> bool) (k : str -> option result)
    (s : str) (res : result) :
  starGreedy p k s = Some res ->
  exists a s', s = a ++ s' /\ forallb p a = true /\ k s' = Some res.
Proof.
  induction s as [|c s IH]; cbn [starGreedy]; intros H.
  - exists [], []. auto.
  - destruct (p c) eqn:E; [|exists [], (c :: s); auto].
    destruct (starGreedy p k s) as [r|] eqn:E'.
    + inversion H; subst r. destruct (IH eq_refl) as [a [s' [Hs [Ha Hk]]]].
      exists (c :: a), s'. subst s. cbn [forallb app]. rewrite E, Ha. auto.
    + exists [], (c :: s). auto.
Qed.

Lemma starLazy_sound (p : ascii -> bool) (k : str -> option result)
    (s : str) (res : result) :
  starLazy p k s = Some res ->
  exists a s', s = a ++ s' /\ forallb p a = true /\ k s' = Some res.
Proof.
  induction s as [|c s IH]; cbn [starLazy]; intros H.
  - destruct (k []) eqn:E; [|discriminate]. inversion H; subst.
    exists [], []. auto.
  - destruct (k (c :: s)) eqn:E;
      [inversion H; subst; exists [], (c :: s); auto|].
    destruct (p c) eqn:Ep; [|discriminate].
    destruct (IH H) as [a [s' [Hs [Ha Hk]]]].
    exists (c :: a), s'. subst s. cbn [forallb app]. rewrite Ep, Ha. auto.
Qed.

(** The matcher only finds what the expression matches. *)
Lemma run_sound (r : regex) :
  forall (b : bool) (s : str) (cs : list str) (k : cont) (res : result),
    run r b s cs k = Some res ->
    exists b' s' cs', den r b s cs b' s' cs' /\ k b' s' cs' = Some res.
Proof.
  induction r as [| |c|p|p|p|p|r1 IH1 r2 IH2|r1 IH1 r2 IH2|r1 IH1];
    intros b s cs k res H; cbn [run den] in *.
  - destruct b; [|discriminate]. exists true, s, cs. auto.
  - destruct s; [|discriminate]. exists b, [], cs. auto.
  - destruct s as [|d s]; [discriminate|].
    destruct (Ascii.eqb d c) eqn:E; [|discriminate].
    apply Ascii.eqb_eq in E. subst d. exists false, s, cs. auto.
  - destruct s as [|d s]; [discriminate|].
    destruct (p d) eqn:E; [|discriminate].
    exists false, s, cs. split; [exists d; auto | assumption].
  - destruct s as [|d s]; [discriminate|].
    destruct (p d) eqn:E; [|discriminate].
    apply starGreedy_sound in H. destruct H as [a [s' [Hs [Ha Hk]]]].
    exists false, s', cs. split; [exists d, a; subst s; auto | assumption].
  - apply starGreedy_sound in H. destruct H as [a [s' [Hs [Ha Hk]]]].
    exists (b && (length s' =? length s)), s', cs.
    split; [exists a; auto | assumption].
  - destruct s as [|d s]; [discriminate|].
    destruct (p d) eqn:E; [|discriminate].
    apply starLazy_sound in H. destruct H as [a [s' [Hs [Ha Hk]]]].
    exists false, s', cs. split; [exists d, a; subst s; auto | assumption].
  - apply IH1 in H. destruct H as [b1 [s1 [cs1 [H1 H]]]].
    apply IH2 in H. destruct H as [b2 [s2 [cs2 [H2 H]]]].
    exists b2, s2, cs2. split; [exists b1, s1, cs1; auto | assumption].
  - destruct (run r1 b s cs k) as [x|] eqn:E.
    + inversion H; subst x. apply IH1 in E.
      destruct E as [b' [s' [cs' [H1 Hk]]]]. exists b', s', cs'. auto.
    + apply IH2 in H. destruct H as [b' [s' [cs' [H2 Hk]]]].
      exists b', s', cs'. auto.
  - apply IH1 in H. destruct H as [b' [s' [cs1 [H1 Hk]]]].
    exists b', s', (cs1 ++ [firstn (length s - length s') s]).
    split; [exists cs1; auto | assumption].
Qed.

(** What is matched is a prefix of the text. *)
Lemma den_prefix (r : regex) :
  forall b s cs b' s' cs',
    den r b s cs b' s' cs' -> exists a, s = a ++ s'.
Proof.
  induction r as [| |c|p|p|p|p|r1 IH1 r2 IH2|r1 IH1 r2 IH2|r1 IH1];
    intros b s cs b' s' cs' H; cbn [den] in H.
  - destruct H as [_ [_ [-> _]]]. exists []. reflexivity.
  - destruct H as [_ [_ [-> _]]]. exists []. reflexivity.
  - destruct H as [-> _]. exists [c]. reflexivity.
  - destruct H as [d [_ [-> _]]]. exists [d]. reflexivity.
  - destruct H as [d [a [_ [_ [-> _]]]]]. exists (d :: a). reflexivity.
  - destruct H as [a [_ [-> _]]]. exists a. reflexivity.
  - destruct H as [d [a [_ [_ [-> _]]]]]. exists (d :: a). reflexivity.
  - destruct H as [b1 [s1 [cs1 [H1 H2]]]].
    apply IH1 in H1. apply IH2 in H2.
    destruct H1 as [a1 ->]. destruct H2 as [a2 ->].
    exists (a1 ++ a2). rewrite app_assoc. reflexivity.
  - destruct H as [H|H]; [eapply IH1 | eapply IH2]; eassumption.
  - destruct H as [cs1 [H _]]. eapply IH1; eassumption.
Qed.

Lemma firstn_prefix (a s : str) :
  firstn (length (a ++ s) - length s) (a ++ s) = a.
Proof.
  rewrite length_app, Nat.add_sub, firstn_app, Nat.sub_diag, firstn_all.
  cbn [firstn]. apply app_nil_r.
Qed.

Lemma matchAt_sound (r : regex) (b : bool) (s m rest : str)
    (cs : list str) :
  matchAt r b s = Some (m, cs, rest) ->
  s = m ++ rest /\ exists b', den r b s [] b' rest cs.
Proof.
  unfold matchAt.
  destruct (run r b s [] (fun _ s' cs0 => Some (cs0, s'))) as [[cs0 rest0]|]
    eqn:E; [|discriminate].
  intros H; inversion H; subst; clear H.
  apply run_sound in E. destruct E as [b' [s' [cs' [Hd Hk]]]].
  inversion Hk; subst; clear Hk.
  destruct (den_prefix r _ _ _ _ _ _ Hd) as [a Ha]. subst s.
  rewrite firstn_prefix. split; [reflexivity | exists b'; exact Hd].
Qed.

Lemma find_sound (r : regex) (s : str) :
  forall (b : bool) (pre m rest : str) (cs : list str),
    find r b s = Some (pre, m, cs, rest) ->
    s = pre ++ m ++ rest
    /\ exists b', matchAt r b' (m ++ rest) = Some (m, cs, rest).
Proof.
  induction s as [|c s IH]; intros b pre m rest cs; cbn [find].
  - destruct (matchAt r b []) as [[[m0 cs0] rest0]|] eqn:E; [|discriminate].
    intros H; inversion H; subst; clear H.
    destruct (matchAt_sound r b [] _ _ _ E) as [Hs _].
    split; [exact Hs | exists b; rewrite <- Hs; exact E].
  - destruct (matchAt r b (c :: s)) as [[[m0 cs0] rest0]|] eqn:E.
    + intros H; inversion H; subst; clear H.
      destruct (matchAt_sound r b _ _ _ _ E) as [Hs _].
      split; [exact Hs | exists b; rewrite <- Hs; exact E].
    + destruct (find r false s) as [[[[pre0 m0] cs0] rest0]|] eqn:E';
        [|discriminate].
      intros H; inversion H; subst; clear H.
      destruct (IH _ _ _ _ _ E') as [Hs Hm].
      split; [cbn [app]; f_equal; exact Hs | exact Hm].
Qed.

(** With a regular expression that matches no empty string, the fuel
    of [findAll] never runs out. *)
Lemma findAllFuel_Segs (r : regex) (Hne : NonEmptyMatches r) (fuel : nat) :
  forall (b : bool) (s : str),
    length s <= fuel ->
    Segs r b s (fst (findAllFuel fuel r b s)) (snd (findAllFuel fuel r b s)).
Proof.
  induction fuel as [|n IH]; intros b s Hl.
  - destruct s; [|simpl in Hl; lia]. cbn [findAllFuel fst snd].
    apply Segs_done. cbn [find].
    destruct (matchAt r b []) as [[[m cs] rest]|] eqn:E; [|reflexivity].
    exfalso. destruct (matchAt_sound r b [] _ _ _ E) as [Hs _].
    apply (Hne _ _ _ _ _ E). destruct m; [reflexivity | discriminate].
  - cbn [findAllFuel].
    destruct (find r b s) as [[[[pre m] cs] rest]|] eqn:E;
      [|apply Segs_done; exact E].
    destruct (find_sound r s _ _ _ _ _ E) as [Hs [b' Hm]].
    pose proof (Hne _ _ _ _ _ Hm) as Hnm.
    assert (Hlr : length rest <= n).
    { subst s. rewrite !length_app in Hl. destruct m; [congruence|].
      simpl in Hl. lia. }
    specialize (IH false rest Hlr).
    destruct (findAllFuel n r false rest) as [segs tail].
    cbn [fst snd] in *. eapply Segs_step; eassumption.
Qed.

Lemma findAll_Segs (r : regex) (Hne : NonEmptyMatches r) (s : str) :
  Segs r true s (fst (findAll r s)) (snd (findAll r s)).
Proof. apply findAllFuel_Segs; [exact Hne | apply le_n]. Qed.

End regexpFacts.

(** ** The shapes of the matches of [parseInline] *)

Ltac den_inv :=
  repeat match goal with
         | H : exists _, _ |- _ => destruct H
         | H : _ /\ _ |- _ => destruct H
         end.

Section Shapes.
Import regexp regexpSpec regexpFacts.

Lemma firstn_prefix_cons (d : ascii) (a s : str) :
  firstn (length (d :: a ++ s) - length s) (d :: a ++ s) = d :: a.
Proof. exact (firstn_prefix (d :: a) s). Qed.

Lemma firstn_one (d : ascii) (s : str) :
  firstn (length (d :: s) - length s) (d :: s) = [d].
Proof. exact (firstn_prefix [d] s). Qed.

Lemma firstn_none (s : str) : firstn (length s - length s) s = [].
Proof. rewrite Nat.sub_diag. reflexivity. Qed.

Lemma tail_eq (x m rest : str) : x ++ rest = m ++ rest -> m = x.
Proof. intros H. apply app_inv_tail in H. congruence. Qed.

(** A match of [codeRegex]: a backtick, one or more bytes other than a
    backtick, a backtick. *)
Lemma codeRegex_shape (b : bool) (s m rest : str) (cs : list str) :
  matchAt codeRegex b s = Some (m, cs, rest) ->
  exists c, c <> [] /\ forallb (notChr "`") c = true
            /\ m = "`"%char :: c ++ ["`"%char] /\ cs = [c]
            /\ s = m ++ rest.
Proof.
  intros H. destruct (matchAt_sound _ _ _ _ _ _ H) as [Hs [b' Hd]].
  unfold codeRegex in Hd. cbn [den] in Hd. revert Hs. den_inv. subst. intros Hs.
  match goal with
  | Hp : ?p ?d = true, Ha : forallb ?p ?a = true |- _ =>
    exists (d :: a); rewrite firstn_prefix_cons;
    assert (Hm : m = "`"%char :: (d :: a) ++ ["`"%char])
      by (apply (tail_eq _ _ rest); rewrite <- Hs; cbn [app];
          rewrite <- app_assoc; reflexivity);
    split; [discriminate|];
    split; [cbn [forallb]; rewrite Hp, Ha; reflexivity|];
    split; [exact Hm|]; split; [reflexivity | exact Hs]
  end.
Qed.

(** A match of [imageRegex]. *)
Lemma imageRegex_shape (b : bool) (s m rest : str) (cs : list str) :
  matchAt imageRegex b s = Some (m, cs, rest) ->
  exists alt src,
    m = "!"%char :: "["%char :: alt ++ "]"%char :: "("%char :: src
          ++ [")"%char]
    /\ cs = [alt; src] /\ s = m ++ rest.
Proof.
  intros H. destruct (matchAt_sound _ _ _ _ _ _ H) as [Hs [b' Hd]].
  unfold imageRegex in Hd. cbn [den] in Hd. revert Hs. den_inv. subst. intros Hs.
  rewrite firstn_prefix, firstn_prefix_cons. cbn [app].
  match goal with
  | |- exists alt src, _ /\ [?a; ?b] = _ /\ _ => exists a, b
  end.
  split; [|auto].
  apply (tail_eq _ _ rest). rewrite <- Hs. cbn [app].
  rewrite <- !app_assoc. cbn [app]. rewrite <- !app_assoc. reflexivity.
Qed.

(** A match of [linkRegex]. *)
Lemma linkRegex_shape (b : bool) (s m rest : str) (cs : list str) :
  matchAt linkRegex b s = Some (m, cs, rest) ->
  exists label href,
    m = "["%char :: label ++ "]"%char :: "("%char :: href ++ [")"%char]
    /\ cs = [label; href] /\ s = m ++ rest.
Proof.
  intros H. destruct (matchAt_sound _ _ _ _ _ _ H) as [Hs [b' Hd]].
  unfold linkRegex in Hd. cbn [den] in Hd. revert Hs. den_inv. subst. intros Hs.
  rewrite !firstn_prefix_cons. cbn [app].
  match goal with
  | |- exists label href, _ /\ [?a; ?b] = _ /\ _ => exists a, b
  end.
  split; [|auto].
  apply (tail_eq _ _ rest). rewrite <- Hs. cbn [app].
  rewrite <- !app_assoc. cbn [app]. rewrite <- !app_assoc. reflexivity.
Qed.

(** A match of [boldRegex]. *)
Lemma boldRegex_shape (b : bool) (s m rest : str) (cs : list str) :
  matchAt boldRegex b s = Some (m, cs, rest) ->
  exists x,
    m = "*"%char :: "*"%char :: x ++ ["*"%char; "*"%char]
    /\ cs = [x] /\ s = m ++ rest.
Proof.
  intros H. destruct (matchAt_sound _ _ _ _ _ _ H) as [Hs [b' Hd]].
  unfold boldRegex in Hd. cbn [den] in Hd. revert Hs. den_inv. subst. intros Hs.
  rewrite !firstn_prefix_cons. cbn [app].
  match goal with
  | |- exists x, _ /\ [?a] = _ /\ _ => exists a
  end.
  split; [|auto].
  apply (tail_eq _ _ rest). rewrite <- Hs. cbn [app].
  rewrite <- !app_assoc. reflexivity.
Qed.

(** A match of [italicRegex]: the groups before and after the
    asterisks hold at most one byte each. *)
Lemma italicRegex_shape (b : bool) (s m rest : str) (cs : list str) :
  matchAt italicRegex b s = Some (m, cs, rest) ->
  exists g1 x g3,
    m = g1 ++ "*"%char :: x ++ "*"%char :: g3
    /\ cs = [g1; x; g3] /\ s = m ++ rest.
Proof.
  intros H. destruct (matchAt_sound _ _ _ _ _ _ H) as [Hs [b' Hd]].
  unfold italicRegex in Hd. cbn [den] in Hd.
  destruct Hd as (b1 & s1 & cs1 & (cs1' & Hg1 & Hc1) & b2 & s2 & cs2
                  & (Hs1 & _ & Hc2) & b3 & s3 & cs3
                  & (cs3' & (d & a & _ & _ & Hs2 & _ & Hc3') & Hc3)
                  & b4 & s4 & cs4 & (Hs3 & _ & Hc4) & cs5 & Hg3 & Hcs).
  assert (G1 : exists g1, firstn (length s - length s1) s = g1
                          /\ s = g1 ++ s1 /\ cs1' = []).
  { destruct Hg1 as [(_ & _ & E & Hc)|(e & _ & E & _ & Hc)].
    - exists []. rewrite E, firstn_none. auto.
    - exists [e]. rewrite E, firstn_one. auto. }
  assert (G3 : exists g3, firstn (length s4 - length rest) s4 = g3
                          /\ s4 = g3 ++ rest /\ cs5 = cs4).
  { destruct Hg3 as [(e & _ & E & _ & Hc)|(E & _ & E' & Hc)].
    - exists [e]. rewrite E, firstn_one. auto.
    - exists []. rewrite E', E. auto. }
  destruct G1 as (g1 & Hf1 & Hg1' & Hn1).
  destruct G3 as (g3 & Hf3 & Hg3' & Hn3).
  assert (Hfx : firstn (length s2 - length s3) s2 = d :: a)
    by (rewrite Hs2; apply firstn_prefix_cons).
  exists g1, (d :: a), g3.
  split; [|split; [|exact Hs]].
  - apply (tail_eq _ _ rest). rewrite <- Hs, Hg1', Hs1, Hs2, Hs3, Hg3'.
    rewrite <- !app_assoc. cbn [app]. rewrite <- !app_assoc. reflexivity.
  - rewrite Hcs, Hf3, Hn3, Hc4, Hc3, Hfx, Hc3', Hc2, Hc1, Hf1, Hn1.
    reflexivity.
Qed.

Lemma codeRegex_NonEmpty : NonEmptyMatches codeRegex.
Proof.
  intros b s m cs rest H. apply codeRegex_shape in H. den_inv. subst.
  discriminate.
Qed.

Lemma imageRegex_NonEmpty : NonEmptyMatches imageRegex.
Proof.
  intros b s m cs rest H. apply imageRegex_shape in H. den_inv. subst.
  discriminate.
Qed.

Lemma linkRegex_NonEmpty : NonEmptyMatches linkRegex.
Proof.
  intros b s m cs rest H. apply linkRegex_shape in H. den_inv. subst.
  discriminate.
Qed.

Lemma boldRegex_NonEmpty : NonEmptyMatches boldRegex.
Proof.
  intros b s m cs rest H. apply boldRegex_shape in H. den_inv. subst.
  discriminate.
Qed.

Lemma italicRegex_NonEmpty : NonEmptyMatches italicRegex.
Proof.
  intros b s m cs rest H. apply italicRegex_shape in H.
  destruct H as [g1 [x [g3 [-> _]]]]. destruct g1; discriminate.
Qed.

End Shapes.

(** ** Escaped text *)

Section EscapedFacts.
Variable tags : list str.

Lemma Escaped_app (a b : str) :
  Escaped tags a -> Escaped tags b -> Escaped tags (a ++ b).
Proof.
  intros Ha Hb. induction Ha as [|c s Hc Hs IH|e s He Hs IH|t s Ht Hs IH].
  - exact Hb.
  - cbn [app]. apply Escaped_byte; assumption.
  - rewrite <- app_assoc. apply Escaped_entity; assumption.
  - rewrite <- app_assoc. apply Escaped_tag; assumption.
Qed.

Lemma Escaped_plain (s : str) : plain s = true -> Escaped tags s.
Proof.
  induction s as [|c s IH]; cbn [plain forallb]; intros H.
  - constructor.
  - apply andb_true_iff in H. destruct H as [Hc Hs].
    apply Escaped_byte; [apply negb_true_iff; exact Hc | exact (IH Hs)].
Qed.

Lemma Escaped_single_tag (t : str) : In t tags -> Escaped tags t.
Proof.
  intros H. rewrite <- (app_nil_r t). apply Escaped_tag; [exact H|constructor].
Qed.

Lemma neutral_not_in (c : ascii) (t : str) :
  neutral tags c = true -> In t (entities ++ tags) -> ~ In c t.
Proof.
  unfold neutral. rewrite andb_true_iff, forallb_forall.
  intros [_ H] Ht Hc. specialize (H t Ht).
  apply negb_true_iff in H.
  assert (existsb (Ascii.eqb c) t = true).
  { apply existsb_exists. exists c. split; [exact Hc | apply Ascii.eqb_refl]. }
  congruence.
Qed.

Lemma neutral_byte (c : ascii) : neutral tags c = true -> special c = false.
Proof.
  unfold neutral. rewrite andb_true_iff. intros [H _].
  apply negb_true_iff. exact H.
Qed.

(** An atom that straddles a neutral byte would hold it. *)
Lemma atom_split (t s a b : str) (c : ascii) :
  neutral tags c = true -> In t (entities ++ tags) ->
  t ++ s = a ++ c :: b ->
  exists l, a = t ++ l /\ s = l ++ c :: b.
Proof.
  intros Hn Ht H. apply app_eq_app in H.
  destruct H as [l [[Ha Hb]|[Ha Hb]]].
  - destruct l as [|x l].
    + exists []. rewrite app_nil_r in Ha. cbn [app] in Hb. subst. 
      rewrite app_nil_r. auto.
    + exfalso. cbn [app] in Hb. inversion Hb; subst x.
      apply (neutral_not_in c t Hn Ht). rewrite Ha.
      apply in_or_app. right. left. reflexivity.
  - exists l. auto.
Qed.

(** Escaped text can be cut at a neutral byte. *)
Lemma Escaped_split (a b : str) (c : ascii) :
  neutral tags c = true ->
  Escaped tags (a ++ c :: b) -> Escaped tags a /\ Escaped tags b.
Proof.
  intros Hn H. remember (a ++ c :: b) as s eqn:Hs. revert a Hs.
  induction H as [|c0 s Hc H IH|e s He H IH|t s Ht H IH]; intros a Hs.
  - destruct a; discriminate.
  - destruct a as [|x a]; cbn [app] in Hs; inversion Hs; subst.
    + split; [constructor | exact H].
    + destruct (IH a eq_refl) as [Ha Hb].
      split; [apply Escaped_byte; assumption | exact Hb].
  - destruct (atom_split e s a b c Hn ltac:(apply in_or_app; auto) Hs)
      as [l [-> Hl]].
    destruct (IH l Hl) as [Ha Hb].
    split; [apply Escaped_entity; assumption | exact Hb].
  - destruct (atom_split t s a b c Hn ltac:(apply in_or_app; auto) Hs)
      as [l [-> Hl]].
    destruct (IH l Hl) as [Ha Hb].
    split; [apply Escaped_tag; assumption | exact Hb].
Qed.

Lemma Escaped_cons_neutral (c : ascii) (s : str) :
  neutral tags c = true -> Escaped tags s -> Escaped tags (c :: s).
Proof. intros Hn Hs. apply Escaped_byte; [apply neutral_byte|]; assumption. Qed.

End EscapedFacts.

Lemma Escaped_mono (tags tags' : list str) (s : str) :
  incl tags tags' -> Escaped tags s -> Escaped tags' s.
Proof.
  intros Hi H. induction H; [constructor | | |].
  - apply Escaped_byte; assumption.
  - apply Escaped_entity; assumption.
  - apply Escaped_tag; [apply Hi|]; assumption.
Qed.

(** [html.EscapeString] writes escaped text, with no markup at all. *)
Lemma escapeByte_Escaped (c : ascii) : Escaped [] (html.escapeByte c).
Proof.
  unfold html.escapeByte.
  destruct (Ascii.eqb c "&") eqn:E1;
    [apply (Escaped_entity [] "&amp;" []); [cbn; auto | constructor]|].
  destruct (Ascii.eqb c "'") eqn:E2;
    [apply (Escaped_entity [] "&#39;" []); [cbn; auto | constructor]|].
  destruct (Ascii.eqb c "<") eqn:E3;
    [apply (Escaped_entity [] "&lt;" []); [cbn; auto | constructor]|].
  destruct (Ascii.eqb c ">") eqn:E4;
    [apply (Escaped_entity [] "&gt;" []); [cbn; auto 6 | constructor]|].
  destruct (Ascii.eqb c dquote) eqn:E5;
    [apply (Escaped_entity [] "&#34;" []); [cbn; auto 6 | constructor]|].
  apply Escaped_byte; [|constructor].
  unfold special. rewrite E1, E3, E4. reflexivity.
Qed.

Lemma EscapeString_Escaped (s : str) : Escaped [] (html.EscapeString s).
Proof.
  unfold html.EscapeString. induction s as [|c s IH]; cbn [flat_map].
  - constructor.
  - apply Escaped_app; [apply escapeByte_Escaped | exact IH].
Qed.

(** ** The passes of [parseInline] keep the text escaped *)

Ltac tag_in := cbn; auto 20.
Ltac norm_in H :=
  repeat (progress (cbn [app] in H; rewrite <- ?app_assoc in H)).
Ltac cut_at H c Ha Hb :=
  first [ apply (Escaped_split inlineTags _ _ c eq_refl) in H;
          destruct H as [Ha Hb] ].
Ltac build :=
  repeat first
    [ assumption
    | apply Escaped_nil
    | apply Escaped_app; [assumption|]
    | apply Escaped_cons_neutral; [reflexivity|]
    | apply Escaped_tag; [tag_in; fail|] ].

Section Passes.
Import strings stringsFacts regexp regexpSpec regexpFacts.

(** The bytes at which the passes cut the text. *)
Lemma neutral_backtick : neutral inlineTags "`" = true. Proof. reflexivity. Qed.
Lemma neutral_star : neutral inlineTags "*" = true. Proof. reflexivity. Qed.
Lemma neutral_underscore : neutral inlineTags "_" = true. Proof. reflexivity. Qed.
Lemma neutral_bang : neutral inlineTags "!" = true. Proof. reflexivity. Qed.
Lemma neutral_lbracket : neutral inlineTags "[" = true. Proof. reflexivity. Qed.
Lemma neutral_rbracket : neutral inlineTags "]" = true. Proof. reflexivity. Qed.
Lemma neutral_lparen : neutral inlineTags "(" = true. Proof. reflexivity. Qed.
Lemma neutral_rparen : neutral inlineTags ")" = true. Proof. reflexivity. Qed.

(** Replacing every match keeps the text escaped when replacing one
    match does. *)
Lemma Segs_replace_Escaped (r : regex) (f : str -> list str -> str)
    (g : str * str * list str -> str) :
  (forall pre m cs, g (pre, m, cs) = pre ++ f m cs) ->
  (forall b s m cs rest L,
      matchAt r b s = Some (m, cs, rest) ->
      Escaped inlineTags (L ++ m ++ rest) -> Escaped inlineTags (L ++ f m cs ++ rest)) ->
  forall b s segs tail,
    Segs r b s segs tail ->
    forall L, Escaped inlineTags (L ++ s) ->
              Escaped inlineTags (L ++ flat_map g segs ++ tail).
Proof.
  intros Hg Hstep b s segs tail HS.
  induction HS as [b s Hf | b s pre m rest tail cs segs Hf HS IH]; intros L H.
  - exact H.
  - destruct (find_sound r s _ _ _ _ _ Hf) as [Hs [b' Hm]]. subst s.
    cbn [flat_map]. rewrite Hg.
    rewrite app_assoc in H. apply (Hstep _ _ _ _ _ _ Hm) in H.
    rewrite !app_assoc in H. apply IH in H.
    rewrite <- !app_assoc in H. rewrite <- !app_assoc. exact H.
Qed.

Lemma ReplaceAllStringFunc_Escaped (r : regex) (repl : str -> str)
    (src : str) :
  NonEmptyMatches r ->
  (forall b s m cs rest L,
      matchAt r b s = Some (m, cs, rest) ->
      Escaped inlineTags (L ++ m ++ rest) -> Escaped inlineTags (L ++ repl m ++ rest)) ->
  Escaped inlineTags src -> Escaped inlineTags (ReplaceAllStringFunc r src repl).
Proof.
  intros Hne Hstep H. unfold ReplaceAllStringFunc.
  pose proof (findAll_Segs r Hne src) as HS.
  destruct (findAll r src) as [segs tail]. cbn [fst snd] in HS.
  exact (Segs_replace_Escaped r (fun m _ => repl m)
           (fun seg : str * str * list str =>
              let '(pre, m, _) := seg in pre ++ repl m)
           ltac:(intros; reflexivity) Hstep _ _ _ _ HS [] H).
Qed.

Lemma ReplaceAllString_Escaped (r : regex) (t : list tpart) (src : str) :
  NonEmptyMatches r ->
  (forall b s m cs rest L,
      matchAt r b s = Some (m, cs, rest) ->
      Escaped inlineTags (L ++ m ++ rest) -> Escaped inlineTags (L ++ expand t m cs ++ rest)) ->
  Escaped inlineTags src -> Escaped inlineTags (ReplaceAllString r src t).
Proof.
  intros Hne Hstep H. unfold ReplaceAllString.
  pose proof (findAll_Segs r Hne src) as HS.
  destruct (findAll r src) as [segs tail]. cbn [fst snd] in HS.
  exact (Segs_replace_Escaped r (expand t)
           (fun seg : str * str * list str =>
              let '(pre, m, cs) := seg in pre ++ expand t m cs)
           ltac:(intros; reflexivity) Hstep _ _ _ _ HS [] H).
Qed.

(** What [FindStringSubmatch] returns on a text. *)
Lemma FindStringSubmatch_cases (r : regex) (s : str) :
  FindStringSubmatch r s = []
  \/ exists pre m cs rest b,
      FindStringSubmatch r s = m :: cs
      /\ s = pre ++ m ++ rest
      /\ matchAt r b (m ++ rest) = Some (m, cs, rest).
Proof.
  unfold FindStringSubmatch.
  destruct (find r true s) as [[[[pre m] cs] rest]|] eqn:E; [|left; reflexivity].
  right. destruct (find_sound r s _ _ _ _ _ E) as [Hs [b Hm]].
  exists pre, m, cs, rest, b. auto.
Qed.

Lemma normalizeAssetPath_Escaped (src : str) :
  Escaped inlineTags src -> Escaped inlineTags (normalizeAssetPath src).
Proof.
  intros H. unfold normalizeAssetPath.
  destruct (_ || _); [exact H|].
  apply Escaped_app; [apply Escaped_plain; reflexivity | exact H].
Qed.


Lemma imageRepl_Escaped (m : str) : Escaped inlineTags m -> Escaped inlineTags (imageRepl m).
Proof.
  intros H. unfold imageRepl.
  destruct (FindStringSubmatch_cases imageRegex m)
    as [E | (pre & m' & cs & rest & b & E & Hm & Hat)]; rewrite E.
  - exact H.
  - apply imageRegex_shape in Hat.
    destruct Hat as (alt & src & -> & -> & _). cbn [length Nat.eqb nth].
    subst m. norm_in H.
    apply Escaped_split in H; [|exact neutral_bang]. destruct H as [_ H].
    apply (Escaped_split inlineTags []) in H; [|exact neutral_lbracket].
    destruct H as [_ H]. norm_in H.
    apply Escaped_split in H; [|exact neutral_rbracket].
    destruct H as [Halt H].
    apply (Escaped_split inlineTags []) in H; [|exact neutral_lparen].
    destruct H as [_ H]. norm_in H.
    apply Escaped_split in H; [|exact neutral_rparen].
    destruct H as [Hsrc _].
    change (Escaped inlineTags (("<img src=" ++ [dquote])
                       ++ normalizeAssetPath src
                       ++ (dquote :: " alt=" ++ [dquote])
                       ++ alt ++ (dquote :: "/>"))).
    apply Escaped_tag; [tag_in|].
    apply Escaped_app; [apply normalizeAssetPath_Escaped; exact Hsrc|].
    apply Escaped_tag; [tag_in|].
    apply Escaped_app; [exact Halt|].
    apply Escaped_single_tag. tag_in.
Qed.

Lemma linkRepl_Escaped (m : str) : Escaped inlineTags m -> Escaped inlineTags (linkRepl m).
Proof.
  intros H. unfold linkRepl.
  destruct (FindStringSubmatch_cases linkRegex m)
    as [E | (pre & m' & cs & rest & b & E & Hm & Hat)]; rewrite E.
  - exact H.
  - apply linkRegex_shape in Hat.
    destruct Hat as (label & href & -> & -> & _). cbn [length Nat.eqb nth].
    subst m. norm_in H.
    apply Escaped_split in H; [|exact neutral_lbracket].
    destruct H as [_ H]. norm_in H.
    apply Escaped_split in H; [|exact neutral_rbracket].
    destruct H as [Hlabel H].
    apply (Escaped_split inlineTags []) in H; [|exact neutral_lparen].
    destruct H as [_ H]. norm_in H.
    apply Escaped_split in H; [|exact neutral_rparen].
    destruct H as [Hhref _].
    change (Escaped inlineTags (("<a href=" ++ [dquote])
                       ++ normalizeAssetPath href
                       ++ (dquote :: ">") ++ label ++ "</a>")).
    apply Escaped_tag; [tag_in|].
    apply Escaped_app; [apply normalizeAssetPath_Escaped; exact Hhref|].
    apply Escaped_tag; [tag_in|].
    apply Escaped_app; [exact Hlabel|].
    apply Escaped_single_tag. tag_in.
Qed.


Lemma imageRegex_step (b : bool) (s m : str) (cs : list str) (rest L : str) :
  matchAt imageRegex b s = Some (m, cs, rest) ->
  Escaped inlineTags (L ++ m ++ rest) ->
  Escaped inlineTags (L ++ imageRepl m ++ rest).
Proof.
  intros Hat H. apply imageRegex_shape in Hat.
  destruct Hat as (alt & src & -> & _ & _). norm_in H.
  cut_at H "!"%char HL H. apply (Escaped_split inlineTags []) in H;
    [|reflexivity]. destruct H as [_ H].
  cut_at H "]"%char Halt H. apply (Escaped_split inlineTags []) in H;
    [|reflexivity]. destruct H as [_ H].
  cut_at H ")"%char Hsrc Hrest.
  apply Escaped_app; [exact HL|]. apply Escaped_app; [|exact Hrest].
  apply imageRepl_Escaped. build.
Qed.

Lemma linkRegex_step (b : bool) (s m : str) (cs : list str) (rest L : str) :
  matchAt linkRegex b s = Some (m, cs, rest) ->
  Escaped inlineTags (L ++ m ++ rest) ->
  Escaped inlineTags (L ++ linkRepl m ++ rest).
Proof.
  intros Hat H. apply linkRegex_shape in Hat.
  destruct Hat as (label & href & -> & _ & _). norm_in H.
  cut_at H "["%char HL H.
  cut_at H "]"%char Hlabel H. apply (Escaped_split inlineTags []) in H;
    [|reflexivity]. destruct H as [_ H].
  cut_at H ")"%char Hhref Hrest.
  apply Escaped_app; [exact HL|]. apply Escaped_app; [|exact Hrest].
  apply linkRepl_Escaped. build.
Qed.

Lemma boldRegex_step (b : bool) (s m : str) (cs : list str) (rest L : str) :
  matchAt boldRegex b s = Some (m, cs, rest) ->
  Escaped inlineTags (L ++ m ++ rest) ->
  Escaped inlineTags (L ++ expand boldTemplate m cs ++ rest).
Proof.
  intros Hat H. apply boldRegex_shape in Hat.
  destruct Hat as (x & -> & -> & _). norm_in H.
  cut_at H "*"%char HL H. apply (Escaped_split inlineTags []) in H;
    [|reflexivity]. destruct H as [_ H].
  cut_at H "*"%char Hx H. apply (Escaped_split inlineTags []) in H;
    [|reflexivity]. destruct H as [_ Hrest].
  cbn [expand flat_map boldTemplate nth]. rewrite app_nil_r.
  rewrite <- !app_assoc. build.
Qed.

Lemma italicRegex_step (b : bool) (s m : str) (cs : list str) (rest L : str) :
  matchAt italicRegex b s = Some (m, cs, rest) ->
  Escaped inlineTags (L ++ m ++ rest) ->
  Escaped inlineTags (L ++ expand italicTemplate m cs ++ rest).
Proof.
  intros Hat H. apply italicRegex_shape in Hat.
  destruct Hat as (g1 & x & g3 & -> & -> & _). norm_in H.
  rewrite app_assoc in H.
  cut_at H "*"%char HL H. cut_at H "*"%char Hx Hrest.
  cbn [expand flat_map italicTemplate nth]. rewrite app_nil_r.
  rewrite <- !app_assoc. rewrite (app_assoc L g1). build.
Qed.

(** The passes between the code pass and the restoration. *)
Lemma markupPasses_Escaped (text : str) :
  Escaped inlineTags text -> Escaped inlineTags (markupPasses text).
Proof.
  intros H. unfold markupPasses.
  apply ReplaceAllString_Escaped;
    [exact italicRegex_NonEmpty | exact italicRegex_step|].
  apply ReplaceAllString_Escaped;
    [exact boldRegex_NonEmpty | exact boldRegex_step|].
  apply ReplaceAllStringFunc_Escaped;
    [exact linkRegex_NonEmpty | exact linkRegex_step|].
  apply ReplaceAllStringFunc_Escaped;
    [exact imageRegex_NonEmpty | exact imageRegex_step|].
  exact H.
Qed.

End Passes.

(** ** The code pass and the restoration *)

Section CodePass.
Import strings stringsFacts regexp regexpSpec regexpFacts.

Lemma plain_app (a b : str) : plain (a ++ b) = plain a && plain b.
Proof. apply forallb_app. Qed.

Lemma digit_not_special (k : nat) : k < 10 -> special (fmt.digit k) = false.
Proof.
  intros H. do 10 (destruct k as [|k]; [reflexivity|]). lia.
Qed.

Lemma digitsFuel_plain (fuel : nat) :
  forall n acc, plain acc = true -> plain (fmt.digitsFuel fuel n acc) = true.
Proof.
  induction fuel as [|f IH]; intros n acc H; cbn [fmt.digitsFuel].
  - exact H.
  - assert (Hd : plain (fmt.digit (n mod 10) :: acc) = true).
    { cbn [plain forallb]. rewrite digit_not_special; [exact H|].
      apply Nat.mod_upper_bound. discriminate. }
    destruct (n <? 10); [exact Hd | apply IH; exact Hd].
Qed.

Lemma placeholderOf_plain (n : nat) : plain (placeholderOf n) = true.
Proof.
  unfold placeholderOf. rewrite !plain_app.
  unfold fmt.itoa. rewrite digitsFuel_plain; reflexivity.
Qed.

(** A placeholder starts and ends with an underscore. *)
Lemma placeholderOf_ends (n : nat) :
  exists x, placeholderOf n = "_"%char :: x ++ ["_"%char].
Proof.
  exists ("_CODE" ++ fmt.itoa n ++ "_"). unfold placeholderOf.
  cbn [app String.list_ascii_of_string]. rewrite <- !app_assoc. reflexivity.
Qed.

Lemma placeholderOf_not_nil (n : nat) : placeholderOf n <> [].
Proof. discriminate. Qed.

Lemma mapSet_Forall (P : str * str -> Prop) (m : list (str * str))
    (k v : str) :
  Forall P m -> P (k, v) -> Forall P (mapSet m k v).
Proof.
  intros Hm Hkv. induction Hm as [|[k' v'] m Hx Hm IH]; cbn [mapSet].
  - constructor; [exact Hkv | constructor].
  - destruct (str_eqb k' k); constructor; assumption.
Qed.

(** The entry the code pass records for a match. *)
Lemma codeEntry_Escaped (m : str) :
  Escaped inlineTags m ->
  Escaped inlineTags
    (if length (FindStringSubmatch codeRegex m) =? 2
     then "<code>" ++ nth 1 (FindStringSubmatch codeRegex m) [] ++ "</code>"
     else m).
Proof.
  intros H.
  destruct (FindStringSubmatch_cases codeRegex m)
    as [E | (pre & m' & cs & rest & b & E & Hm & Hat)]; rewrite E.
  - exact H.
  - apply codeRegex_shape in Hat.
    destruct Hat as (c & _ & _ & -> & -> & _). cbn [length Nat.eqb nth].
    subst m. norm_in H.
    cut_at H "`"%char HL H. cut_at H "`"%char Hc Hrest.
    build. apply Escaped_single_tag. tag_in.
Qed.

Lemma protectOne_spec (n : nat) (tbl : list (str * str)) (m : str) :
  Escaped inlineTags m -> Forall (entryOK inlineTags) tbl ->
  exists tbl',
    protectOne (n, tbl) m = (S n, tbl', placeholderOf n)
    /\ Forall (entryOK inlineTags) tbl'.
Proof.
  intros Hm Ht. unfold protectOne. eexists. split; [reflexivity|].
  apply mapSet_Forall; [exact Ht|].
  split; [exists n; reflexivity|]. cbn [snd].
  apply codeEntry_Escaped. exact Hm.
Qed.

Lemma protectSegs_Escaped (b : bool) (s : str)
    (segs : list (str * str * list str)) (tail : str) :
  Segs codeRegex b s segs tail ->
  forall (L : str) (n : nat) (tbl : list (str * str)),
    Escaped inlineTags (L ++ s) -> Forall (entryOK inlineTags) tbl ->
    Escaped inlineTags (L ++ snd (protectSegs segs (n, tbl)) ++ tail)
    /\ Forall (entryOK inlineTags) (fst (protectSegs segs (n, tbl))).
Proof.
  intros HS.
  induction HS as [b s Hf | b s pre m rest tail cs segs Hf HS IH];
    intros L n tbl H Ht.
  - cbn [protectSegs fst snd app]. auto.
  - destruct (find_sound codeRegex s _ _ _ _ _ Hf) as [Hs [b' Hat]].
    subst s. apply codeRegex_shape in Hat.
    destruct Hat as (c & _ & _ & Hm & _ & _).
    assert (Hparts : Escaped inlineTags (L ++ pre) /\ Escaped inlineTags m
                     /\ Escaped inlineTags rest).
    { rewrite Hm in H. rewrite app_assoc in H. norm_in H.
      rewrite app_assoc in H.
      cut_at H "`"%char HL H. cut_at H "`"%char Hc Hrest.
      split; [exact HL|]. split; [|exact Hrest]. rewrite Hm. build. }
    destruct Hparts as (HL & Hm' & Hrest).
    destruct (protectOne_spec n tbl m Hm' Ht) as (tbl' & E & Ht').
    cbn [protectSegs]. rewrite E.
    specialize (IH ((L ++ pre) ++ placeholderOf n) (S n) tbl').
    destruct (protectSegs segs (S n, tbl')) as [table out].
    cbn [fst snd] in *.
    destruct IH as [Ho Htab]; [|exact Ht'|].
    + apply Escaped_app; [|exact Hrest].
      apply Escaped_app; [exact HL|].
      apply Escaped_plain. apply placeholderOf_plain.
    + split; [|exact Htab].
      rewrite <- !app_assoc in Ho. rewrite <- !app_assoc. exact Ho.
Qed.

(** The code pass leaves escaped text and a table of escaped
    entries. *)
Lemma protectCode_Escaped (text : str) :
  Escaped inlineTags text ->
  Escaped inlineTags (snd (protectCode text))
  /\ Forall (entryOK inlineTags) (fst (protectCode text)).
Proof.
  intros H. unfold protectCode.
  pose proof (findAll_Segs codeRegex codeRegex_NonEmpty text) as HS.
  destruct (findAll codeRegex text) as [segs tail]. cbn [fst snd] in HS.
  pose proof (protectSegs_Escaped _ _ _ _ HS [] 0 [] H (Forall_nil _)) as HP.
  destruct (protectSegs segs (0, [])) as [table out]. exact HP.
Qed.

Lemma ReplaceAll_Escaped (n : nat) (v : str) :
  Escaped inlineTags v ->
  forall t, Escaped inlineTags t ->
            Escaped inlineTags (ReplaceAll t (placeholderOf n) v).
Proof.
  intros Hv t. remember (length t) as k eqn:Hk. revert t Hk.
  induction k as [k IH] using lt_wf_ind. intros t Hk H.
  rewrite ReplaceAll_eq by apply placeholderOf_not_nil.
  destruct (Cut t (placeholderOf n)) as [[b a]|] eqn:E; [|exact H].
  pose proof (Cut_shorter _ _ _ _ (placeholderOf_not_nil n) E) as Hl.
  apply Cut_Some in E. subst t.
  destruct (placeholderOf_ends n) as [x Hx]. rewrite Hx in H.
  norm_in H. cut_at H "_"%char Hb H. cut_at H "_"%char Hx' Ha.
  apply Escaped_app; [exact Hb|]. apply Escaped_app; [exact Hv|].
  apply (IH (length a)); [lia | reflexivity | exact Ha].
Qed.

Lemma restoreCode_Escaped (entries : list (str * str)) :
  Forall (entryOK inlineTags) entries ->
  forall text, Escaped inlineTags text ->
               Escaped inlineTags (restoreCode entries text).
Proof.
  intros He. unfold restoreCode.
  induction He as [|[k v] entries [[n Hn] Hv] He IH]; intros text H.
  - exact H.
  - cbn [fold_left fst snd] in *. apply IH. rewrite Hn.
    apply ReplaceAll_Escaped; assumption.
Qed.

(** ** The order of [range] *)

Lemma removeNth_incl {A : Type} (k : nat) (l : list A) (x : A) :
  In x (removeNth k l) -> In x l.
Proof.
  revert k. induction l as [|y l IH]; intros k H; [destruct k; exact H|].
  destruct k as [|k]; cbn [removeNth] in H.
  - right; exact H.
  - destruct H as [H|H]; [left; exact H | right; exact (IH k H)].
Qed.

Lemma rangeFuel_incl {A : Type} (fuel : nat) :
  forall (o : order) (l : list A) (x : A),
    In x (rangeFuel fuel o l) -> In x l.
Proof.
  induction fuel as [|f IH]; intros o l x H; [destruct H|].
  destruct l as [|y l]; [destruct H|].
  cbn [rangeFuel] in H. destruct H as [H|H].
  - subst x. apply nth_In. apply Nat.mod_upper_bound. discriminate.
  - apply IH in H. exact (removeNth_incl _ _ _ H).
Qed.

Lemma removeNth_Permutation {A : Type} (l : list A) :
  forall (k : nat) (d : A),
    k < length l -> Permutation l (nth k l d :: removeNth k l).
Proof.
  induction l as [|y l IH]; intros k d Hk; [simpl in Hk; lia|].
  destruct k as [|k]; cbn [nth removeNth].
  - apply Permutation_refl.
  - eapply Permutation_trans; [|apply perm_swap].
    apply perm_skip. apply IH. simpl in Hk. lia.
Qed.

Lemma removeNth_length {A : Type} (l : list A) :
  forall k, k < length l -> S (length (removeNth k l)) = length l.
Proof.
  induction l as [|y l IH]; intros k Hk; [simpl in Hk; lia|].
  destruct k as [|k]; cbn [removeNth length]; [reflexivity|].
  rewrite IH; [reflexivity | simpl in Hk; lia].
Qed.

(** Every choice sequence visits every entry once. *)
Lemma rangeMap_Permutation {A : Type} (o : order) (l : list A) :
  Permutation l (rangeMap o l).
Proof.
  unfold rangeMap. remember (length l) as n eqn:Hn. revert o l Hn.
  induction n as [|n IH]; intros o l Hn.
  - destruct l; [constructor | discriminate].
  - destruct l as [|y l]; [discriminate|]. cbn [rangeFuel].
    set (k := hd 0 o mod length (y :: l)).
    assert (Hk : k < length (y :: l))
      by (apply Nat.mod_upper_bound; discriminate).
    eapply Permutation_trans; [apply (removeNth_Permutation _ k y Hk)|].
    apply perm_skip. apply IH.
    pose proof (removeNth_length (y :: l) k Hk). lia.
Qed.

(** Every order of the entries is the order of some choice
    sequence. *)
Lemma rangeMap_complete {A : Type} (l' : list A) :
  forall l, Permutation l l' -> exists o, rangeMap o l = l'.
Proof.
  induction l' as [|x l'' IH]; intros l Hp.
  - apply Permutation_sym, Permutation_nil in Hp. subst l.
    exists []. reflexivity.
  - assert (Hin : In x l)
      by (apply (Permutation_in x (Permutation_sym Hp)); left; reflexivity).
    destruct (In_nth l x x Hin) as (k & Hk & Hx).
    pose proof (removeNth_Permutation l k x Hk) as Hr. rewrite Hx in Hr.
    assert (Hp' : Permutation (removeNth k l) l'').
    { apply (Permutation_cons_inv (a := x)).
      eapply Permutation_trans; [apply Permutation_sym; exact Hr | exact Hp]. }
    destruct (IH _ Hp') as [o' Ho'].
    exists (k :: o'). unfold rangeMap in *.
    destruct l as [|y l0]; [simpl in Hk; lia|].
    cbn [length rangeFuel hd tl].
    rewrite Nat.mod_small by exact Hk.
    rewrite (nth_indep _ y x Hk), Hx. f_equal.
    pose proof (removeNth_length (y :: l0) k Hk) as Hl. cbn [length] in Hl.
    replace (length l0) with (length (removeNth k (y :: l0))) by lia.
    exact Ho'.
Qed.

(** ** [parseInline] writes escaped text *)

Lemma parseInline_Escaped (o : order) (text : str) :
  Escaped inlineTags (parseInline o text).
Proof.
  unfold parseInline.
  pose proof (protectCode_Escaped (html.EscapeString text)
                (Escaped_mono [] inlineTags _ (incl_nil_l _)
                   (EscapeString_Escaped text))) as [Hout Htab].
  destruct (protectCode (html.EscapeString text)) as [table out].
  cbn [fst snd] in *.
  apply restoreCode_Escaped; [|apply markupPasses_Escaped; exact Hout].
  apply Forall_forall. intros e He.
  apply (proj1 (Forall_forall _ _) Htab).
  unfold rangeMap in He. exact (rangeFuel_incl _ _ _ _ He).
Qed.

End CodePass.

(** ** [markdownToHTML] writes escaped text *)

Ltac build_block :=
  repeat first
    [ assumption
    | apply Escaped_nil
    | apply Escaped_app; [assumption|]
    | apply Escaped_tag; [cbn; auto 40; fail|]
    | apply Escaped_byte; [reflexivity|] ].

Ltac forall_cons := repeat first [apply Forall_nil | apply Forall_cons].

Section Blocks.
Import strings stringsFacts.

Lemma inline_in_nonList (s : str) :
  Escaped inlineTags s -> Escaped nonListTags s.
Proof. apply Escaped_mono. unfold nonListTags. apply incl_appl, incl_refl. Qed.

Lemma nonList_in_all (s : str) : Escaped nonListTags s -> Escaped allTags s.
Proof.
  apply Escaped_mono. unfold nonListTags, allTags, blockTags.
  apply incl_app; [apply incl_appl, incl_refl|].
  apply incl_appr, incl_appl, incl_refl.
Qed.

Lemma headingTag_Escaped (n : nat) (content : str) :
  1 <= n <= 6 -> Escaped nonListTags content ->
  Escaped nonListTags (headingTag n content).
Proof.
  intros Hn H. unfold headingTag.
  destruct n as [|[|[|[|[|[|[|n]]]]]]]; try lia.
  - change (Escaped nonListTags ("<h1>" ++ content ++ "</h1>" ++ [nl])).
    build_block.
  - change (Escaped nonListTags ("<h2>" ++ content ++ "</h2>" ++ [nl])).
    build_block.
  - change (Escaped nonListTags ("<h3>" ++ content ++ "</h3>" ++ [nl])).
    build_block.
  - change (Escaped nonListTags ("<h4>" ++ content ++ "</h4>" ++ [nl])).
    build_block.
  - change (Escaped nonListTags ("<h5>" ++ content ++ "</h5>" ++ [nl])).
    build_block.
  - change (Escaped nonListTags ("<h6>" ++ content ++ "</h6>" ++ [nl])).
    build_block.
Qed.

Lemma liTag_Escaped (content : str) :
  Escaped nonListTags content -> Escaped nonListTags (liTag content).
Proof. intros H. unfold liTag. build_block. Qed.

Lemma pTag_Escaped (content : str) :
  Escaped nonListTags content -> Escaped nonListTags (pTag content).
Proof. intros H. unfold pTag. build_block. Qed.

Lemma hrTag_Escaped : Escaped nonListTags hrTag.
Proof. unfold hrTag. build_block. Qed.

Lemma openPre_Escaped : Escaped nonListTags openPre.
Proof.
  change (Escaped nonListTags ("<pre>" ++ "<code>" ++ [])). build_block.
Qed.

Lemma closePre_Escaped : Escaped nonListTags closePre.
Proof.
  change (Escaped nonListTags ("</code>" ++ "</pre>" ++ [])). build_block.
Qed.

(** Every string written is escaped text. *)
Lemma ChunkOK_Escaped (c : str) : ChunkOK c -> Escaped allTags c.
Proof.
  intros [-> | [-> | [-> | [-> | H]]]]; [| | | |exact (nonList_in_all c H)].
  - unfold openUL. build_block.
  - unfold closeUL. build_block.
  - unfold openOL. build_block.
  - unfold closeOL. build_block.
Qed.

Lemma ChunkOK_text (c : str) : Escaped nonListTags c -> ChunkOK c.
Proof. unfold ChunkOK. auto 6. Qed.

Lemma closers_ChunkOK (st : state) : Forall ChunkOK (closers st).
Proof.
  unfold closers, ChunkOK.
  destruct (inUL st), (inOL st); cbn [app]; forall_cons; auto.
Qed.

Lemma parseInline_ChunkText (o : order) (text : str) :
  Escaped nonListTags (parseInline o text).
Proof. apply inline_in_nonList, parseInline_Escaped. Qed.

Lemma step_ChunkOK (o : order) (st : state) (line : str) :
  Forall ChunkOK (snd (step o st line)).
Proof.
  destruct (step_case o st line)
    as [Hf | Hnf Hc | n Hnf Hc Hn Hr | Hnf Hc Hnh Hr | Hnf Hc Hnh Hnr Hb
        | Hnf Hc Hnh Hnr Hnb Hn | Hp Hc | Hnf Hc Hnh Hnr Hnb Hnn He];
    cbn [snd].
  - apply Forall_app. split; [apply closers_ChunkOK|].
    constructor; [|constructor]. apply ChunkOK_text.
    destruct (inCodeBlock st); [apply closePre_Escaped | apply openPre_Escaped].
  - constructor; [|constructor; [|constructor]]; apply ChunkOK_text.
    + apply (Escaped_mono [] nonListTags); [apply incl_nil_l|].
      apply EscapeString_Escaped.
    + build_block.
  - constructor; [|constructor]. apply ChunkOK_text.
    apply headingTag_Escaped; [exact Hn | apply parseInline_ChunkText].
  - constructor; [apply ChunkOK_text, hrTag_Escaped | constructor].
  - destruct (inOL st), (inUL st); cbn [app]; forall_cons;
      try (unfold ChunkOK; auto; fail);
      apply ChunkOK_text, liTag_Escaped, parseInline_ChunkText.
  - destruct (inOL st), (inUL st); cbn [app]; forall_cons;
      try (unfold ChunkOK; auto; fail);
      apply ChunkOK_text, liTag_Escaped, parseInline_ChunkText.
  - apply Forall_app. split; [apply closers_ChunkOK|].
    constructor; [|constructor].
    apply ChunkOK_text, pTag_Escaped, parseInline_ChunkText.
  - constructor.
Qed.

Lemma loop_ChunkOK (os : nat -> order) (lines : list str) :
  forall (i : nat) (st : state), Forall ChunkOK (snd (loop os i st lines)).
Proof.
  induction lines as [|line rest IH]; intros i st; cbn [loop].
  - constructor.
  - pose proof (step_ChunkOK (os i) st line) as Hs.
    destruct (step (os i) st line) as [st1 out1].
    specialize (IH (S i) st1).
    destruct (loop os (S i) st1 rest) as [st2 out2].
    cbn [snd] in *. apply Forall_app. auto.
Qed.

Lemma finish_ChunkOK (st : state) : Forall ChunkOK (finish st).
Proof.
  unfold finish. destruct (inCodeBlock st), (inUL st), (inOL st); cbn [app];
    forall_cons; try (unfold ChunkOK; auto; fail);
    apply ChunkOK_text, closePre_Escaped.
Qed.

Lemma written_ChunkOK (os : nat -> order) (md : str) :
  Forall ChunkOK (written os md).
Proof.
  unfold written. destruct (isEmpty md); [constructor|].
  pose proof (loop_ChunkOK os (Split md [nl]) 0 initState) as H.
  destruct (loop os 0 initState (Split md [nl])) as [st out].
  cbn [snd] in H. apply Forall_app. split; [exact H | apply finish_ChunkOK].
Qed.

Lemma concat_Escaped (tags : list str) (l : list str) :
  Forall (Escaped tags) l -> Escaped tags (concat l).
Proof.
  intros H. induction H as [|x l Hx Hl IH]; cbn [concat].
  - constructor.
  - apply Escaped_app; assumption.
Qed.



End Blocks.

(** ** Placeholders are unique *)

Section Placeholders.

Lemma digitVal_digit (k : nat) : k < 10 -> digitVal (fmt.digit k) = k.
Proof.
  intros H. unfold digitVal, fmt.digit.
  rewrite nat_ascii_embedding by lia. lia.
Qed.

Lemma digitsFuel_value (fuel : nat) :
  forall n acc,
    n < fuel ->
    fold_left (fun a c => 10 * a + digitVal c) (fmt.digitsFuel fuel n acc) 0
    = fold_left (fun a c => 10 * a + digitVal c) acc n.
Proof.
  induction fuel as [|f IH]; intros n acc Hn; [lia|].
  cbn [fmt.digitsFuel].
  destruct (n <? 10) eqn:E.
  - apply Nat.ltb_lt in E. cbn [fold_left].
    rewrite Nat.mod_small, digitVal_digit by assumption.
    reflexivity.
  - apply Nat.ltb_ge in E.
    rewrite IH.
    + cbn [fold_left].
      rewrite digitVal_digit by (apply Nat.mod_upper_bound; discriminate).
      f_equal. symmetry. apply Nat.div_mod_eq.
    + assert (n / 10 < n) by (apply Nat.div_lt; lia). lia.
Qed.

Lemma atoi_itoa (n : nat) : atoi (fmt.itoa n) = n.
Proof.
  unfold atoi, fmt.itoa. rewrite digitsFuel_value by lia. reflexivity.
Qed.

Lemma placeholderOf_inj (i j : nat) :
  placeholderOf i = placeholderOf j -> i = j.
Proof.
  unfold placeholderOf. intros H.
  apply app_inv_head in H. apply app_inv_tail in H.
  rewrite <- (atoi_itoa i), <- (atoi_itoa j), H. reflexivity.
Qed.

Lemma str_eqb_false (a b : str) : a <> b -> str_eqb a b = false.
Proof.
  intros H. destruct (str_eqb a b) eqn:E; [|reflexivity].
  apply str_eqb_eq in E. contradiction.
Qed.

(** Assigning to a key the map does not hold adds an entry at the
    end. *)
Lemma mapSet_fresh (m : list (str * str)) (k v : str) :
  (forall k' v', In (k', v') m -> k' <> k) ->
  mapSet m k v = m ++ [(k, v)].
Proof.
  induction m as [|[k' v'] m IH]; intros H; cbn [mapSet app].
  - reflexivity.
  - rewrite str_eqb_false by (apply (H k' v'); left; reflexivity).
    f_equal. apply IH. intros k2 v2 Hin. apply (H k2 v2). right. exact Hin.
Qed.

End Placeholders.

(** ** The code pass finds the code spans *)

Section CodeSpansFacts.
Import strings stringsFacts regexp regexpSpec regexpFacts.

Lemma notChr_forallb (x : ascii) (c : str) :
  forallb (notChr x) c = true <-> ~ In x c.
Proof.
  induction c as [|d c IH]; cbn [forallb In].
  - tauto.
  - rewrite andb_true_iff, IH. unfold notChr at 1.
    rewrite negb_true_iff, Ascii.eqb_neq. intuition congruence.
Qed.

(** A greedy repetition stops where the class stops, when what
    follows cannot start with a byte of the class. *)
Lemma starGreedy_stop (p : ascii -> bool) (k : str -> option result)
    (a rest : str) :
  forallb p a = true ->
  match rest with [] => True | c :: _ => p c = false end ->
  (forall d x, p d = true -> k (d :: x) = None) ->
  starGreedy p k (a ++ rest) = k rest.
Proof.
  intros Ha Hr Hk. induction a as [|d a IH]; cbn [app].
  - destruct rest as [|c r]; cbn [starGreedy]; [reflexivity|].
    rewrite Hr. reflexivity.
  - cbn [forallb] in Ha. apply andb_true_iff in Ha. destruct Ha as [Hd Ha].
    cbn [starGreedy]. rewrite Hd, (IH Ha).
    destruct (k rest); [reflexivity|]. apply Hk. exact Hd.
Qed.

(** On a code span [codeRegex] matches, and the match is the span. *)
Lemma codeRegex_complete (b : bool) (c rest : str) :
  c <> [] -> ~ In "`"%char c ->
  matchAt codeRegex b ("`"%char :: c ++ "`"%char :: rest)
  = Some ("`"%char :: c ++ ["`"%char], [c], rest).
Proof.
  intros Hne Hc. destruct c as [|d a]; [congruence|].
  apply notChr_forallb in Hc. cbn [forallb] in Hc.
  apply andb_true_iff in Hc. destruct Hc as [Hd Ha].
  unfold matchAt, codeRegex. cbn [run app]. rewrite Ascii.eqb_refl, Hd.
  rewrite starGreedy_stop.
  - rewrite Ascii.eqb_refl, firstn_prefix_cons.
    replace ("`"%char :: d :: a ++ "`"%char :: rest)
      with (("`"%char :: d :: a ++ ["`"%char]) ++ rest)
      by (cbn [app]; rewrite <- app_assoc; reflexivity).
    rewrite firstn_prefix. reflexivity.
  - exact Ha.
  - reflexivity.
  - intros d' x Hd'. cbn [run]. unfold notChr in Hd'.
    apply negb_true_iff in Hd'. rewrite Hd'. reflexivity.
Qed.

(** [find] returns the leftmost match. *)
Lemma find_leftmost (r : regex) (s : str) :
  forall (b : bool) (pre m rest : str) (cs : list str),
    find r b s = Some (pre, m, cs, rest) ->
    forall p1 p2, pre = p1 ++ p2 -> p2 <> [] ->
                  exists b', matchAt r b' (p2 ++ m ++ rest) = None.
Proof.
  induction s as [|c s IH]; intros b pre m rest cs; cbn [find].
  - destruct (matchAt r b []) as [[[m0 cs0] rest0]|]; [|discriminate].
    intros H; inversion H; subst. intros [|] [|] ? ?; simpl in *; congruence.
  - destruct (matchAt r b (c :: s)) as [[[m0 cs0] rest0]|] eqn:E.
    + intros H; inversion H; subst. intros [|] [|] ? ?; simpl in *; congruence.
    + destruct (find r false s) as [[[[pre0 m0] cs0] rest0]|] eqn:E';
        [|discriminate].
      intros H; inversion H; subst; clear H. intros p1 p2 Hp Hne.
      destruct (find_sound r s _ _ _ _ _ E') as [Hs _].
      destruct p1 as [|x p1]; cbn [app] in Hp.
      * subst p2. exists b. cbn [app]. rewrite <- Hs. exact E.
      * inversion Hp; subst. eapply IH; eauto.
Qed.

Lemma find_none (r : regex) (s : str) :
  forall (b : bool),
    find r b s = None ->
    forall p1 p2, s = p1 ++ p2 -> exists b', matchAt r b' p2 = None.
Proof.
  induction s as [|c s IH]; intros b; cbn [find].
  - destruct (matchAt r b []) as [[[m0 cs0] rest0]|] eqn:E; [discriminate|].
    intros _ p1 p2 Hp. destruct p1; [|discriminate]. cbn [app] in Hp.
    subst p2. exists b. exact E.
  - destruct (matchAt r b (c :: s)) as [[[m0 cs0] rest0]|] eqn:E;
      [discriminate|].
    destruct (find r false s) as [[[[pre0 m0] cs0] rest0]|] eqn:E';
      [discriminate|].
    intros _ p1 p2 Hp. destruct p1 as [|x p1]; cbn [app] in Hp.
    + subst p2. exists b. exact E.
    + inversion Hp; subst. eapply IH; eauto.
Qed.

(** Where [codeRegex] has no match there is no code span. *)
Lemma find_none_NoSpan (b : bool) (s : str) :
  find codeRegex b s = None -> NoSpan s.
Proof.
  intros H (a & c & r & Hne & Hc & Hs).
  destruct (find_none codeRegex s b H a _ Hs) as [b' Hn].
  rewrite codeRegex_complete in Hn by assumption. discriminate.
Qed.

(** No code span starts before the match [find] returns. *)
Lemma find_NoSpan (b : bool) (s pre m rest : str) (cs : list str) :
  find codeRegex b s = Some (pre, m, cs, rest) ->
  NoSpan (pre ++ ["`"%char]).
Proof.
  intros H (a & c & r & Hne & Hc & Hs).
  destruct (find_sound codeRegex s _ _ _ _ _ H) as [_ [b0 Hat]].
  apply codeRegex_shape in Hat.
  destruct Hat as (c0 & _ & _ & Hm & _ & _).
  (* the span starts inside [pre] *)
  assert (Hp : exists p2, pre = a ++ p2 /\ p2 <> []
                          /\ p2 ++ ["`"%char] = "`"%char :: c ++ "`"%char :: r).
  { apply app_eq_app in Hs. destruct Hs as [l [[Hp Hl]|[Ha Hl]]].
    - exists l. split; [exact Hp|]. split; [|symmetry; exact Hl].
      intros ->. destruct c; discriminate.
    - exfalso. destruct l as [|x l].
      + cbn [app] in Hl. destruct c; discriminate.
      + cbn [app] in Hl. inversion Hl as [[Hx Hl']].
        destruct l; [|discriminate]. destruct c; discriminate. }
  destruct Hp as (p2 & Hpre & Hne2 & Hp2).
  destruct (find_leftmost codeRegex s _ _ _ _ _ H a p2 Hpre Hne2)
    as [b' Hn].
  rewrite Hm in Hn.
  replace (p2 ++ ("`"%char :: c0 ++ ["`"%char]) ++ rest)
    with ("`"%char :: c ++ "`"%char :: (r ++ c0 ++ "`"%char :: rest)) in Hn.
  - rewrite codeRegex_complete in Hn by assumption. discriminate.
  - transitivity ((p2 ++ ["`"%char]) ++ c0 ++ "`"%char :: rest).
    + rewrite Hp2. cbn [app]. rewrite <- !app_assoc. reflexivity.
    + rewrite <- !app_assoc. cbn [app]. rewrite <- !app_assoc. reflexivity.
Qed.


Lemma EscapeString_app (a b : str) :
  html.EscapeString (a ++ b) = html.EscapeString a ++ html.EscapeString b.
Proof. apply flat_map_app. Qed.

Lemma escapeByte_backtick (c : ascii) :
  In "`"%char (html.escapeByte c) -> c = "`"%char.
Proof.
  unfold html.escapeByte.
  repeat match goal with
         | |- context [if ?t then _ else _] =>
           destruct t; [cbn; intuition discriminate|]
         end.
  intros [H|[]]. congruence.
Qed.

Lemma EscapeString_backtick (c : str) :
  ~ In "`"%char c -> ~ In "`"%char (html.EscapeString c).
Proof.
  intros H Hin. unfold html.EscapeString in Hin.
  apply in_flat_map in Hin. destruct Hin as [x [Hx Hb]].
  apply escapeByte_backtick in Hb. subst x. contradiction.
Qed.

Lemma EscapeString_not_nil (c : str) : c <> [] -> html.EscapeString c <> [].
Proof.
  destruct c as [|x c]; [congruence|]. intros _.
  unfold html.EscapeString. cbn [flat_map]. unfold html.escapeByte.
  repeat match goal with
         | |- context [if ?t then _ else _] => destruct t; [discriminate|]
         end.
  discriminate.
Qed.

(** What the code pass records for a span is the span's text between
    [<code>] and [</code>]. *)
Lemma protectOne_span (n : nat) (tbl : list (str * str)) (c : str) :
  c <> [] -> ~ In "`"%char c ->
  (forall k' v', In (k', v') tbl -> k' <> placeholderOf n) ->
  protectOne (n, tbl) ("`"%char :: c ++ ["`"%char])
  = (S n, tbl ++ [(placeholderOf n, "<code>" ++ c ++ "</code>")],
     placeholderOf n).
Proof.
  intros Hne Hc Hfresh. unfold protectOne, FindStringSubmatch.
  assert (E : find codeRegex true ("`"%char :: c ++ ["`"%char])
              = Some ([], "`"%char :: c ++ ["`"%char], [c], [])).
  { cbn [find]. rewrite (codeRegex_complete true c [] Hne Hc). reflexivity. }
  rewrite E. cbn [length Nat.eqb nth].
  rewrite mapSet_fresh by exact Hfresh. reflexivity.
Qed.

Lemma protectSegs_CodeSpans (b : bool) (s : str)
    (segs : list (str * str * list str)) (tail : str) :
  Segs codeRegex b s segs tail ->
  forall (n : nat) (tbl : list (str * str)),
    (forall k' v', In (k', v') tbl ->
                   exists j, j < n /\ k' = placeholderOf j) ->
    exists table out,
      protectSegs segs (n, tbl) = (tbl ++ table, out)
      /\ CodeSpans n s (out ++ tail) table.
Proof.
  intros HS.
  induction HS as [b s Hf | b s pre m rest tail cs segs Hf HS IH];
    intros n tbl Htbl.
  - exists [], []. cbn [protectSegs snd app]. rewrite app_nil_r.
    split; [reflexivity|]. apply CodeSpans_none.
    exact (find_none_NoSpan b s Hf).
  - pose proof (find_NoSpan _ _ _ _ _ _ Hf) as Hno.
    destruct (find_sound codeRegex s _ _ _ _ _ Hf) as [Hs [b' Hat]].
    apply codeRegex_shape in Hat.
    destruct Hat as (c & Hne & Hc & Hm & _ & _).
    apply notChr_forallb in Hc. subst m s.
    cbn [protectSegs]. rewrite protectOne_span; [|assumption|assumption|].
    + destruct (IH (S n) (tbl ++ [(placeholderOf n, "<code>" ++ c ++ "</code>")]))
        as (table & out & E & HC).
      { intros k' v' Hin. apply in_app_or in Hin. destruct Hin as [Hin|Hin].
        - destruct (Htbl _ _ Hin) as [j [Hj Hk]]. exists j. split; [lia|auto].
        - destruct Hin as [Hin|[]]. inversion Hin; subst.
          exists n. split; [lia | reflexivity]. }
      rewrite E.
      exists ((placeholderOf n, "<code>" ++ c ++ "</code>") :: table),
        (pre ++ placeholderOf n ++ out).
      split; [rewrite <- app_assoc; reflexivity|].
      replace (pre ++ ("`"%char :: c ++ ["`"%char]) ++ rest)
        with (pre ++ "`"%char :: c ++ "`"%char :: rest)
        by (cbn [app]; rewrite <- app_assoc; reflexivity).
      rewrite <- !app_assoc.
      apply CodeSpans_span; assumption.
    + intros k' v' Hin Hk. destruct (Htbl _ _ Hin) as [j [Hj Hk']].
      rewrite Hk' in Hk. apply placeholderOf_inj in Hk. lia.
Qed.

(** The code pass replaces the code spans, and only them. *)
Lemma protectCode_CodeSpans (e : str) :
  CodeSpans 0 e (snd (protectCode e)) (fst (protectCode e)).
Proof.
  unfold protectCode.
  pose proof (findAll_Segs codeRegex codeRegex_NonEmpty e) as HS.
  destruct (findAll codeRegex e) as [segs tail]. cbn [fst snd] in HS.
  destruct (protectSegs_CodeSpans _ _ _ _ HS 0 []) as (table & out & E & HC).
  { intros k' v' []. }
  rewrite E. exact HC.
Qed.

Lemma rangeMap_one {A : Type} (o : order) (x : A) : rangeMap o [x] = [x].
Proof.
  unfold rangeMap. cbn [length rangeFuel]. rewrite Nat.mod_1_r.
  reflexivity.
Qed.

Lemma rangeMap_two {A : Type} (o : order) (x y : A) :
  rangeMap o [x; y] = [x; y] \/ rangeMap o [x; y] = [y; x].
Proof.
  unfold rangeMap. cbn [length rangeFuel].
  pose proof (Nat.mod_upper_bound (hd 0 o) 2 ltac:(discriminate)) as Hk.
  destruct (hd 0 o mod 2) as [|[|k]]; [| |lia];
    cbn [nth removeNth]; rewrite Nat.mod_1_r; cbn [nth]; auto.
Qed.

(** C2: what the code does.  For every line and every iteration
    order: after the escape pass each code span (a backtick, one or
    more bytes other than a backtick, a backtick; found from the left)
    has been replaced by its placeholder and its text recorded,
    unchanged, between [<code>] and [</code>]; the image, link, bold
    and italic passes run on the text with the placeholders, and the
    last pass puts the recorded markup back.  A line that is one code
    span comes out as that span's escaped text between [<code>] and
    [</code>], whatever markup it holds; a link in backticks, in
    particular, stays text.  But the last pass replaces placeholders
    wherever it finds their text, also inside markup it has just put
    back: of two spans that hold each other's placeholder, one comes
    out changed, whichever entry the loop visits first. *)
Theorem code_spans_protected :
  (forall (o : order) (line : str),
      exists out table,
        CodeSpans 0 (html.EscapeString line) out table
        /\ parseInline o line
           = restoreCode (rangeMap o table) (markupPasses out))
  /\ (forall (o : order) (c : str),
         c <> [] -> ~ In "`"%char c ->
         parseInline o ("`"%char :: c ++ ["`"%char])
         = "<code>" ++ html.EscapeString c ++ "</code>")
  /\ (forall o : order, parseInline o "`[x](y)`" = "<code>[x](y)</code>")
  /\ (forall o : order,
         parseInline o "`__CODE1__` `__CODE0__`"
         = "<code><code>__CODE0__</code></code> <code>__CODE0__</code>"
         \/ parseInline o "`__CODE1__` `__CODE0__`"
            = "<code>__CODE1__</code> <code><code>__CODE1__</code></code>").
Proof.
  split; [|split; [|split]].
  - intros o line.
    exists (snd (protectCode (html.EscapeString line))),
      (fst (protectCode (html.EscapeString line))).
    split; [apply protectCode_CodeSpans|].
    unfold parseInline.
    destruct (protectCode (html.EscapeString line)). reflexivity.
  - intros o c Hne Hc.
    pose proof (EscapeString_not_nil c Hne) as Hne'.
    pose proof (EscapeString_backtick c Hc) as Hc'.
    unfold parseInline.
    change ("`"%char :: c ++ ["`"%char]) with (["`"%char] ++ c ++ ["`"%char]).
    rewrite !EscapeString_app.
    change (html.EscapeString ["`"%char]) with ["`"%char].
    cbn [app]. set (ec := html.EscapeString c) in *.
    assert (E : protectCode ("`"%char :: ec ++ ["`"%char])
                = ([(placeholderOf 0, "<code>" ++ ec ++ "</code>")],
                   placeholderOf 0)).
    { unfold protectCode, findAll. cbn [length findAllFuel find].
      rewrite (codeRegex_complete true ec [] Hne' Hc').
      assert (E0 : findAllFuel (length (ec ++ ["`"%char])) codeRegex false []
                   = ([], [])).
      { destruct (length (ec ++ ["`"%char])); reflexivity. }
      rewrite E0. cbn [protectSegs].
      rewrite (protectOne_span 0 [] ec Hne' Hc') by (intros ? ? []).
      cbn [app snd]. rewrite !app_nil_r. reflexivity. }
    rewrite E. rewrite rangeMap_one.
    replace (markupPasses (placeholderOf 0)) with (placeholderOf 0)
      by (vm_compute; reflexivity).
    unfold restoreCode. cbn [fold_left fst snd].
    rewrite ReplaceAll_eq by discriminate.
    replace (Cut (placeholderOf 0) (placeholderOf 0))
      with (Some ([] : str, [] : str)) by (vm_compute; reflexivity).
    cbn [app]. replace (ReplaceAll [] (placeholderOf 0)
                          ("<code>" ++ ec ++ "</code>")) with ([] : str)
      by reflexivity.
    apply app_nil_r.
  - intros o. vm_compute. reflexivity.
  - intros o. unfold parseInline.
    replace (protectCode (html.EscapeString "`__CODE1__` `__CODE0__`"))
      with ([("__CODE0__" : str, "<code>__CODE1__</code>" : str);
             ("__CODE1__" : str, "<code>__CODE0__</code>" : str)],
            "__CODE0__ __CODE1__" : str)
      by (vm_compute; reflexivity).
    replace (markupPasses "__CODE0__ __CODE1__")
      with ("__CODE0__ __CODE1__" : str) by (vm_compute; reflexivity).
    destruct (rangeMap_two o
                ("__CODE0__" : str, "<code>__CODE1__</code>" : str)
                ("__CODE1__" : str, "<code>__CODE0__</code>" : str))
      as [E|E]; rewrite E; [left | right]; vm_compute; reflexivity.
Qed.

(** The statement at a span that holds bold markup and a [<]. *)
Lemma code_spans_protected_witness :
  parseInline [] ("`"%char :: "**a** <b" ++ ["`"%char])
  = "<code>" ++ html.EscapeString "**a** <b" ++ "</code>".
Proof.
  apply (proj1 (proj2 code_spans_protected) [] "**a** <b").
  - discriminate.
  - cbn. intuition discriminate.
Defined.

End CodeSpansFacts.

(** ** [markdownToHTML]: the two lists never overlap *)

Ltac flat :=
  repeat match goal with
         | H : exists _, _ |- _ => destruct H
         | H : _ /\ _ |- _ => destruct H
         | H : False |- _ => destruct H
         end;
  subst;
  repeat match goal with
         | |- exists _, _ => eexists
         | |- _ /\ _ => split
         | |- _ :: _ = _ :: _ => reflexivity
         end;
  eauto using Flat.

Section Exclusive.
Import strings stringsFacts.

(** *** The list tags of the text written *)

Lemma tagAt_other (c : ascii) (r : str) :
  Ascii.eqb c "<" = false -> tagAt (c :: r) = [].
Proof.
  intros H. rewrite Ascii.eqb_sym in H. unfold tagAt.
  cbn [HasPrefix String.list_ascii_of_string]. rewrite H. reflexivity.
Qed.

(** Entities and markup other than the list tags hold no list tag,
    whatever follows them. *)
Lemma entity_transparent (e : str) :
  In e entities -> forall y, scanTags (e ++ y) = scanTags y.
Proof.
  intros H. cbn in H.
  repeat (destruct H as [<-|H]; [intros y; reflexivity|]). destruct H.
Qed.

Lemma tag_transparent (t : str) :
  In t nonListTags -> forall y, scanTags (t ++ y) = scanTags y.
Proof.
  intros H. cbn in H.
  repeat (destruct H as [<-|H]; [intros y; reflexivity|]). destruct H.
Qed.

Lemma scanTags_transparent (s : str) :
  Escaped nonListTags s -> forall x, scanTags (s ++ x) = scanTags x.
Proof.
  intros H. induction H as [|c s Hc Hs IH|e s He Hs IH|t s Ht Hs IH];
    intros x.
  - reflexivity.
  - cbn [app scanTags]. rewrite tagAt_other, IH; [reflexivity|].
    unfold special in Hc. apply orb_false_iff in Hc. destruct Hc as [Hc _].
    apply orb_false_iff in Hc. tauto.
  - rewrite <- app_assoc, entity_transparent by exact He. apply IH.
  - rewrite <- app_assoc, tag_transparent by exact Ht. apply IH.
Qed.

Lemma chunkTag_text (c : str) : Escaped nonListTags c -> chunkTag c = [].
Proof.
  intros H. pose proof (scanTags_transparent c H []) as Hs.
  rewrite app_nil_r in Hs. unfold chunkTag.
  destruct (str_eqb c openUL) eqn:E1;
    [apply str_eqb_eq in E1; subst c; discriminate|].
  destruct (str_eqb c closeUL) eqn:E2;
    [apply str_eqb_eq in E2; subst c; discriminate|].
  destruct (str_eqb c openOL) eqn:E3;
    [apply str_eqb_eq in E3; subst c; discriminate|].
  destruct (str_eqb c closeOL) eqn:E4;
    [apply str_eqb_eq in E4; subst c; discriminate|].
  reflexivity.
Qed.

(** The list tags of a written string are read off the string, whatever
    is written after it. *)
Lemma chunk_scan (c : str) :
  ChunkOK c -> forall x, scanTags (c ++ x) = chunkTag c ++ scanTags x.
Proof.
  intros [-> | [-> | [-> | [-> | H]]]] x; try reflexivity.
  rewrite (chunkTag_text c H). apply scanTags_transparent. exact H.
Qed.

Lemma scanTags_concat (out : list str) :
  Forall ChunkOK out -> scanTags (concat out) = writtenTags out.
Proof.
  intros H. induction H as [|c out Hc Ho IH]; [reflexivity|].
  cbn [concat writtenTags flat_map]. rewrite chunk_scan by exact Hc.
  rewrite IH. reflexivity.
Qed.

(** *** The loop *)

Lemma writtenTags_app (a b : list str) :
  writtenTags (a ++ b) = writtenTags a ++ writtenTags b.
Proof. apply flat_map_app. Qed.

Lemma chunkTag_heading (n : nat) (x : str) : chunkTag (headingTag n x) = [].
Proof. reflexivity. Qed.

Lemma chunkTag_li (x : str) : chunkTag (liTag x) = [].
Proof. reflexivity. Qed.

Lemma chunkTag_p (x : str) : chunkTag (pTag x) = [].
Proof. reflexivity. Qed.

Lemma chunkTag_escaped (line : str) : chunkTag (html.EscapeString line) = [].
Proof.
  apply chunkTag_text. apply (Escaped_mono [] nonListTags);
    [apply incl_nil_l | apply EscapeString_Escaped].
Qed.

(** One iteration keeps at most one list open, and the list tags it
    writes continue a flat sequence. *)
Lemma step_completes (o : order) (st : state) (line : str)
    (r : list listTag) :
  ListsExclusive st ->
  ListsExclusive (fst (step o st line))
  /\ (Completes (fst (step o st line)) r ->
      Completes st (writtenTags (snd (step o st line)) ++ r)).
Proof.
  intros Hex.
  destruct (step_case o st line)
    as [Hf | Hnf Hc | n Hnf Hc Hn Hr | Hnf Hc Hnh Hr | Hnf Hc Hnh Hnr Hb
        | Hnf Hc Hnh Hnr Hnb Hn | Hp Hc | Hnf Hc Hnh Hnr Hnb Hnn He];
    destruct st as [c u l]; unfold ListsExclusive, Completes, closers in *;
    cbn [fst snd inUL inOL inCodeBlock] in *;
    rewrite ?writtenTags_app; unfold writtenTags; cbn [flat_map];
    rewrite ?chunkTag_heading, ?chunkTag_li, ?chunkTag_p,
      ?chunkTag_escaped;
    (split; [try reflexivity; try assumption|]);
    destruct u, l; try discriminate; try (destruct c);
    cbn [flat_map app];
    repeat match goal with
           | |- context [chunkTag ?t] =>
             let b := eval vm_compute in (chunkTag t) in
             change (chunkTag t) with b
           end;
    cbn [app]; intros H; flat.
Qed.

Lemma loop_completes (os : nat -> order) (lines : list str) :
  forall (i : nat) (st : state) (r : list listTag),
    ListsExclusive st ->
    ListsExclusive (fst (loop os i st lines))
    /\ (Completes (fst (loop os i st lines)) r ->
        Completes st (writtenTags (snd (loop os i st lines)) ++ r)).
Proof.
  induction lines as [|line rest IH]; intros i st r Hex.
  - split; [exact Hex | intros H; exact H].
  - cbn [loop].
    destruct (step (os i) st line) as [st1 out1] eqn:E1.
    destruct (loop os (S i) st1 rest) as [st2 out2] eqn:E2.
    cbn [fst snd].
    pose proof (step_completes (os i) st line) as Hs.
    rewrite E1 in Hs. cbn [fst snd] in Hs.
    destruct (Hs (writtenTags out2 ++ r) Hex) as [Hex1 Hc1].
    specialize (IH (S i) st1 r Hex1). rewrite E2 in IH. cbn [fst snd] in IH.
    destruct IH as [Hex2 Hc2].
    split; [exact Hex2|].
    intros H. rewrite writtenTags_app, <- app_assoc. auto.
Qed.

Lemma finish_completes (st : state) :
  ListsExclusive st -> Completes st (writtenTags (finish st)).
Proof.
  destruct st as [c u l]. unfold ListsExclusive, Completes, finish.
  cbn [inUL inOL inCodeBlock].
  destruct c, u, l; try discriminate; intros _; cbn; eauto using Flat.
Qed.

(** C10. After any number of iterations of the loop of
    [markdownToHTML], [inUL] and [inOL] are not both true; and in the
    fragment a call returns, the list tags, read from left to right,
    come as [<ul>] [</ul>] and [<ol>] [</ol>] pairs, each closed
    before the next opens, so that no list lies within or across
    another.  The list tags of the fragment are the ones the loop
    writes as such: no other text written holds one. *)
Theorem lists_never_overlap :
  (forall (os : nat -> order) (lines : list str) (k : nat),
      ListsExclusive (fst (loop os 0 initState (firstn k lines))))
  /\ (forall (os : nat -> order) (md : str),
         Flat (scanTags (markdownToHTML os md)))
  /\ (forall (os : nat -> order) (md : str),
         scanTags (markdownToHTML os md) = writtenTags (written os md))
  /\ (forall os : nat -> order,
         scanTags (markdownToHTML os (golit "- a\n- b\n1. c"))
         = [OpenUL; CloseUL; OpenOL; CloseOL]).
Proof.
  assert (Hscan : forall os md,
             scanTags (markdownToHTML os md) = writtenTags (written os md)).
  { intros os md. unfold markdownToHTML. apply scanTags_concat.
    apply written_ChunkOK. }
  split; [|split; [|split]].
  - intros os lines k.
    apply (loop_completes os (firstn k lines) 0 initState []). reflexivity.
  - intros os md. rewrite Hscan. unfold written.
    destruct (isEmpty md); [constructor|].
    destruct (loop os 0 initState (Split md [nl])) as [st out] eqn:E.
    pose proof (loop_completes os (Split md [nl]) 0 initState
                  (writtenTags (finish st)) eq_refl) as H.
    rewrite E in H. cbn [fst snd] in H. destruct H as [Hex Hc].
    rewrite writtenTags_app. apply Hc. apply finish_completes. exact Hex.
  - exact Hscan.
  - intros os. vm_compute. reflexivity.
Qed.

End Exclusive.

(** ** [parseMarkdown]: the slides of a text without separators *)

Section HeadingPath.
Import strings stringsFacts.

Lemma parseMarkdown_heading_path (content : str) :
  ~ Occurs slideBreak (TrimSpace content) ->
  parseMarkdown content
  = flush (headingLoop (Split (TrimSpace content) [nl]) [] [] false).
Proof.
  intros H. unfold parseMarkdown, flush.
  rewrite (Split_eq _ slideBreak slideBreak_not_nil).
  apply Cut_None in H. rewrite H. cbn [length Nat.eqb].
  destruct (headingLoop (Split (TrimSpace content) [nl]) [] [] false).
  reflexivity.
Qed.

Lemma parseMarkdown_break_path (content : str) :
  Occurs slideBreak (TrimSpace content) ->
  exists b a,
    Cut (TrimSpace content) slideBreak = Some (b, a)
    /\ parseMarkdown content
       = filter nonEmpty (map TrimSpace (b :: Split a slideBreak)).
Proof.
  intros H. unfold parseMarkdown.
  rewrite (Split_eq _ slideBreak slideBreak_not_nil).
  destruct (Cut (TrimSpace content) slideBreak) as [[b a]|] eqn:E.
  - exists b, a. split; [reflexivity|].
    pose proof (Split_not_nil a slideBreak) as Hn.
    destruct (Split a slideBreak) as [|x l] eqn:Es; [congruence|].
    cbn [length Nat.eqb]. rewrite breakLoop_filter. reflexivity.
  - apply Cut_None in E. contradiction.
Qed.

Lemma headingLoop_current (lines : list str) :
  forall (slides currentSlide : list str) (inCode : bool),
    currentSlide <> [] \/ lines <> [] ->
    snd (headingLoop lines slides currentSlide inCode) <> [].
Proof.
  induction lines as [|line rest IH]; intros slides cs b H.
  - destruct H as [H|H]; [exact H | congruence].
  - cbn [headingLoop].
    destruct (HasPrefix line "```");
      [apply IH; left; destruct cs; discriminate|].
    destruct (negb b && HasPrefix line "#");
      apply IH; left; [discriminate | destruct cs; discriminate].
Qed.

Lemma flush_not_nil (p : list str * list str) : snd p <> [] -> flush p <> [].
Proof.
  destruct p as [slides [|l cs]]; cbn [snd]; [congruence|]. intros _.
  unfold flush. cbn [snd fst length Nat.ltb Nat.leb].
  destruct slides; discriminate.
Qed.

Lemma first_part_Good (t b a : str) :
  Good t -> t = b ++ slideBreak ++ a -> Good b.
Proof.
  intros [Hne Hs] E. subst t. unfold slideBreak in Hs.
  destruct b as [|c b]; [discriminate|].
  split; [discriminate|].
  change ((c :: b) ++ (nl :: "---" ++ [nl]) ++ a)
    with ((c :: b) ++ nl :: ("---" ++ [nl]) ++ a) in Hs.
  rewrite spaceStart_line in Hs by discriminate. exact Hs.
Qed.

Lemma parseMarkdown_not_nil (content : str) : parseMarkdown content <> [].
Proof.
  destruct (Cut (TrimSpace content) slideBreak) as [[b a]|] eqn:E.
  - assert (Ho : Occurs slideBreak (TrimSpace content)).
    { exists b, a. apply Cut_Some. exact E. }
    destruct (parseMarkdown_break_path content Ho) as (b' & a' & E' & ->).
    rewrite E in E'. inversion E'; subst b' a'; clear E'.
    apply Cut_Some in E.
    assert (Hg : Good b).
    { apply (first_part_Good (TrimSpace content) b a); [|exact E].
      apply TrimSpace_Good. rewrite E. destruct b; discriminate. }
    apply Good_HasText in Hg. unfold HasText in Hg.
    cbn [map filter]. unfold nonEmpty at 1.
    destruct (TrimSpace b); [congruence|]. discriminate.
  - apply Cut_None in E. rewrite (parseMarkdown_heading_path content E).
    apply flush_not_nil. apply headingLoop_current. right.
    apply Split_not_nil.
Qed.

(** X1. Whatever the text, [parseMarkdown] returns at least one
    slide. *)
Theorem parseMarkdown_never_empty :
  forall content : str,
    exists (slide : str) (rest : list str),
      parseMarkdown content = slide :: rest.
Proof.
  intros content. pose proof (parseMarkdown_not_nil content) as H.
  destruct (parseMarkdown content) as [|slide rest]; [congruence|].
  exists slide, rest. reflexivity.
Qed.

Lemma Join_snoc (l : list str) (x sep : str) :
  l <> [] -> Join (l ++ [x]) sep = Join l sep ++ sep ++ x.
Proof.
  induction l as [|y l IH]; [congruence|]. intros _.
  destruct l as [|z l]; [reflexivity|].
  change ((y :: z :: l) ++ [x]) with (y :: (z :: l) ++ [x]).
  change ((z :: l) ++ [x]) with (z :: l ++ [x]) at 1.
  rewrite !Join_cons.
  change (z :: l ++ [x]) with ((z :: l) ++ [x]).
  rewrite IH by discriminate. rewrite <- !app_assoc. reflexivity.
Qed.

Lemma Join_lines (l : str) (rest : list str) :
  Join (l :: rest) [nl] = l ++ concat (map (cons nl) rest).
Proof.
  revert l. induction rest as [|x rest IH]; intros l.
  - cbn. symmetry; apply app_nil_r.
  - rewrite Join_cons, IH. reflexivity.
Qed.

Lemma flush_cons (slides cs : list str) :
  cs <> [] -> flush (slides, cs) = slides ++ [Join cs [nl]].
Proof.
  destruct cs; [congruence|]. reflexivity.
Qed.

(** The text of the slides, joined by newlines, grows by each line
    read. *)
Lemma headingLoop_join (lines : list str) :
  forall (slides currentSlide : list str) (inCode : bool),
    currentSlide <> [] ->
    Join (flush (headingLoop lines slides currentSlide inCode)) [nl]
    = Join (flush (slides, currentSlide)) [nl]
        ++ concat (map (cons nl) lines).
Proof.
  induction lines as [|line rest IH]; intros slides cs b Hc.
  - cbn [headingLoop map concat]. symmetry; apply app_nil_r.
  - assert (Hext : Join (flush (slides, cs ++ [line])) [nl]
                   = Join (flush (slides, cs)) [nl] ++ nl :: line).
    { rewrite !flush_cons by (try assumption; destruct cs; discriminate).
      rewrite (Join_snoc cs) by assumption.
      destruct slides as [|s0 slides].
      - cbn [app Join]. reflexivity.
      - rewrite !(Join_snoc (s0 :: slides)) by discriminate.
        rewrite <- !app_assoc. reflexivity. }
    cbn [headingLoop map concat].
    destruct (HasPrefix line "```").
    { rewrite IH by (destruct cs; discriminate).
      rewrite Hext, <- app_assoc. reflexivity. }
    destruct (negb b && HasPrefix line "#").
    + rewrite IH by discriminate.
      destruct cs as [|l cs]; [congruence|].
      cbn [length Nat.ltb Nat.leb].
      rewrite (flush_cons _ [line]) by discriminate.
      rewrite (flush_cons slides (l :: cs)) by discriminate.
      rewrite Join_snoc by (destruct slides; discriminate).
      cbn [Join]. rewrite <- !app_assoc. reflexivity.
    + rewrite IH by (destruct cs; discriminate).
      rewrite Hext, <- app_assoc. reflexivity.
Qed.

Lemma headingLoop_first (line : str) (rest : list str) :
  exists inCode,
    headingLoop (line :: rest) [] [] false
    = headingLoop rest [] [line] inCode.
Proof.
  cbn [headingLoop]. destruct (HasPrefix line "```");
    [eexists; reflexivity|].
  destruct (negb false && HasPrefix line "#"); eexists; reflexivity.
Qed.

Lemma Hashed_app (s r : str) : Hashed s -> Hashed (s ++ r).
Proof.
  unfold Hashed. intros H. apply HasPrefix_iff in H. destruct H as [x ->].
  apply HasPrefix_iff. exists (x ++ r). rewrite <- app_assoc. reflexivity.
Qed.

Lemma tl_snoc {A : Type} (l : list A) (x : A) :
  l <> [] -> tl (l ++ [x]) = tl l ++ [x].
Proof. destruct l; [congruence | reflexivity]. Qed.

(** Every slide but the first starts with a [#]. *)
Lemma headingLoop_hashed (lines : list str) :
  forall (slides currentSlide : list str) (inCode : bool),
    currentSlide <> [] ->
    Forall Hashed (tl (flush (slides, currentSlide))) ->
    Forall Hashed (tl (flush (headingLoop lines slides currentSlide inCode))).
Proof.
  induction lines as [|line rest IH]; intros slides cs b Hc Hh.
  - exact Hh.
  - assert (Hext : Forall Hashed (tl (flush (slides, cs ++ [line])))).
    { rewrite flush_cons in * by (try assumption; destruct cs; discriminate).
      destruct slides as [|s0 slides]; [constructor|].
      cbn [app tl] in *. apply Forall_app in Hh. destruct Hh as [H1 H2].
      apply Forall_app. split; [exact H1|].
      inversion H2; subst. constructor; [|constructor].
      rewrite Join_snoc by assumption. apply Hashed_app. assumption. }
    cbn [headingLoop].
    destruct (HasPrefix line "```");
      [apply IH; [destruct cs; discriminate | exact Hext]|].
    destruct (negb b && HasPrefix line "#") eqn:E;
      [|apply IH; [destruct cs; discriminate | exact Hext]].
    apply andb_true_iff in E. destruct E as [_ E].
    apply IH; [discriminate|].
    destruct cs as [|l cs]; [congruence|]. cbn [length Nat.ltb Nat.leb].
    rewrite flush_cons by discriminate. cbn [Join].
    rewrite flush_cons in Hh by discriminate.
    rewrite tl_snoc by (destruct slides; discriminate).
    apply Forall_app. split; [exact Hh|]. constructor; [exact E|constructor].
Qed.

Lemma heading_path_lossless (content : str) :
  ~ Occurs slideBreak (TrimSpace content) ->
  Join (parseMarkdown content) [nl] = TrimSpace content
  /\ Forall Hashed (tl (parseMarkdown content)).
Proof.
  intros H. rewrite (parseMarkdown_heading_path content H).
  pose proof (Join_Split [nl] ltac:(discriminate) (TrimSpace content)) as HJ.
  pose proof (Split_not_nil (TrimSpace content) [nl]) as Hn.
  destruct (Split (TrimSpace content) [nl]) as [|line rest]; [congruence|].
  destruct (headingLoop_first line rest) as [b ->]. split.
  - rewrite headingLoop_join by discriminate.
    rewrite flush_cons by discriminate. cbn [app Join].
    rewrite <- Join_lines. exact HJ.
  - apply headingLoop_hashed; [discriminate|].
    rewrite flush_cons by discriminate. constructor.
Qed.

End HeadingPath.

(** ** [strings.TrimSpace] twice *)

Section TrimSpaceIdempotence.
Import strings stringsFacts.

Lemma trimRev_idem (r : str) : trimRev (trimRev r) = trimRev r.
Proof.
  remember (length r) as n eqn:Hn. revert r Hn.
  induction n as [n IH] using lt_wf_ind. intros r Hn.
  destruct r as [|c1 r1]; [reflexivity|].
  cbn [trimRev]. destruct (isSpace1 c1) eqn:E1.
  { apply (IH (length r1)); [simpl in Hn; lia | reflexivity]. }
  destruct r1 as [|c2 r2].
  { cbn [trimRev]. rewrite E1. reflexivity. }
  destruct (isSpace2 c2 c1) eqn:E2.
  { apply (IH (length r2)); [simpl in Hn; lia | reflexivity]. }
  destruct r2 as [|c3 r3].
  { cbn [trimRev]. rewrite E1, E2. reflexivity. }
  destruct (isSpace3 c3 c2 c1) eqn:E3.
  { apply (IH (length r3)); [simpl in Hn; lia | reflexivity]. }
  cbn [trimRev]. rewrite E1, E2, E3. reflexivity.
Qed.

Lemma TrimRightSpace_idem (s : str) :
  TrimRightSpace (TrimRightSpace s) = TrimRightSpace s.
Proof.
  unfold TrimRightSpace. rewrite rev_involutive, trimRev_idem. reflexivity.
Qed.

(** Trimming twice is trimming once. *)
Lemma TrimSpace_idem (s : str) : TrimSpace (TrimSpace s) = TrimSpace s.
Proof.
  destruct (TrimSpace s) as [|c t] eqn:E; [reflexivity|].
  assert (Hg : Good (TrimSpace s))
    by (apply TrimSpace_Good; rewrite E; discriminate).
  rewrite <- E. destruct Hg as [_ Hs].
  unfold TrimSpace at 1. rewrite (TrimLeftSpace_fix _ Hs).
  unfold TrimSpace. apply TrimRightSpace_idem.
Qed.

Lemma TrimLeftSpace_suffix (s : str) : exists p, s = p ++ TrimLeftSpace s.
Proof.
  remember (length s) as n eqn:Hn. revert s Hn.
  induction n as [n IH] using lt_wf_ind. intros s Hn.
  destruct s as [|c1 r1]; [exists []; reflexivity|].
  cbn [TrimLeftSpace]. destruct (isSpace1 c1).
  { destruct (IH (length r1) ltac:(simpl in Hn; lia) r1 eq_refl) as [q Hq].
    exists (c1 :: q). simpl. f_equal. exact Hq. }
  destruct r1 as [|c2 r2]; [exists []; reflexivity|].
  destruct (isSpace2 c1 c2).
  { destruct (IH (length r2) ltac:(simpl in Hn; lia) r2 eq_refl) as [q Hq].
    exists (c1 :: c2 :: q). simpl. do 2 f_equal. exact Hq. }
  destruct r2 as [|c3 r3]; [exists []; reflexivity|].
  destruct (isSpace3 c1 c2 c3).
  { destruct (IH (length r3) ltac:(simpl in Hn; lia) r3 eq_refl) as [q Hq].
    exists (c1 :: c2 :: c3 :: q). simpl. do 3 f_equal. exact Hq. }
  exists []; reflexivity.
Qed.

(** What [TrimSpace] returns is a piece of the text. *)
Lemma TrimSpace_within (s : str) : exists p q, s = p ++ TrimSpace s ++ q.
Proof.
  destruct (TrimLeftSpace_suffix s) as [p Hp].
  destruct (TrimRightSpace_prefix (TrimLeftSpace s)) as [q Hq].
  exists p, q. unfold TrimSpace. rewrite <- Hq. exact Hp.
Qed.

Lemma Occurs_within (sep s p q : str) :
  Occurs sep s -> Occurs sep (p ++ s ++ q).
Proof.
  intros (a & b & ->). exists (p ++ a), (b ++ q).
  rewrite <- !app_assoc. reflexivity.
Qed.

End TrimSpaceIdempotence.

(** ** [parseMarkdown]: what the heading path keeps *)

Section Surroundings.
Import strings stringsFacts.

(** X2. Without a separator in the text, [parseMarkdown] cuts the text
    before lines that start with [#] and loses nothing: joined by
    newlines the slides are the trimmed text, every slide after the
    first starts with a [#], and the joined slides are cut into the
    same slides again. *)
Theorem parseMarkdown_headings_lossless :
  forall content : str,
    ~ Occurs slideBreak (TrimSpace content) ->
    Join (parseMarkdown content) [nl] = TrimSpace content
    /\ Forall Hashed (tl (parseMarkdown content))
    /\ parseMarkdown (Join (parseMarkdown content) [nl])
       = parseMarkdown content.
Proof.
  intros content H. destruct (heading_path_lossless content H) as [HJ HH].
  split; [exact HJ|]. split; [exact HH|].
  rewrite HJ. unfold parseMarkdown. rewrite TrimSpace_idem. reflexivity.
Qed.

(** The statement at a text with three headings, one of them in a
    fenced block. *)
Lemma parseMarkdown_headings_lossless_witness :
  Join (parseMarkdown (golit "intro\n# A\nbody\n```\n# code\n```\n# B")) [nl]
  = TrimSpace (golit "intro\n# A\nbody\n```\n# code\n```\n# B").
Proof.
  apply parseMarkdown_headings_lossless.
  apply Cut_None. vm_compute. reflexivity.
Defined.

(** X3. White space around the document does not change the
    slides. *)
Theorem parseMarkdown_ignores_surrounding_space :
  forall content : str,
    parseMarkdown (TrimSpace content) = parseMarkdown content.
Proof.
  intros content. unfold parseMarkdown. rewrite TrimSpace_idem. reflexivity.
Qed.

Lemma last_byte (a a' : str) (x y : ascii) :
  a ++ [x] = a' ++ [y] -> x = y.
Proof.
  intros H. apply app_inj_tail in H. tauto.
Qed.

Lemma CRLF_no_separator (t : str) : CRLF t -> ~ Occurs slideBreak t.
Proof.
  intros H (a & b & E). unfold slideBreak in E.
  destruct (H (a ++ nl :: "---") b) as [a' Ha].
  { rewrite E. rewrite <- !app_assoc. reflexivity. }
  change (a ++ nl :: "---") with (a ++ [nl; "-"; "-"]%char ++ ["-"%char]) in Ha.
  rewrite !app_assoc in Ha. apply last_byte in Ha. discriminate.
Qed.

(** X4. In a text whose lines end in carriage return and newline the
    separator never occurs: such a document is cut at headings only,
    whatever [---] lines it holds. *)
Theorem parseMarkdown_crlf :
  (forall content : str,
      CRLF content ->
      Join (parseMarkdown content) [nl] = TrimSpace content
      /\ Forall Hashed (tl (parseMarkdown content)))
  /\ parseMarkdown ("one" ++ cr :: nl :: "---" ++ cr :: nl :: "two")
     = ["one" ++ cr :: nl :: "---" ++ cr :: nl :: "two"].
Proof.
  split; [|vm_compute; reflexivity].
  intros content H.
  assert (Hn : ~ Occurs slideBreak (TrimSpace content)).
  { intros Ho. destruct (TrimSpace_within content) as (p & q & E).
    apply (CRLF_no_separator content H). rewrite E.
    apply Occurs_within. exact Ho. }
  exact (heading_path_lossless content Hn).
Qed.

(** The statement at two headings with a [---] line between them. *)
Lemma parseMarkdown_crlf_witness :
  Join (parseMarkdown ("# a" ++ cr :: nl :: "---" ++ cr :: nl :: "# b")) [nl]
  = TrimSpace ("# a" ++ cr :: nl :: "---" ++ cr :: nl :: "# b")
  /\ Forall Hashed
       (tl (parseMarkdown ("# a" ++ cr :: nl :: "---" ++ cr :: nl :: "# b"))).
Proof.
  apply (proj1 parseMarkdown_crlf).
  intros a b E.
  destruct a as [|c0 [|c1 [|c2 [|c3 [|c4 [|c5 [|c6 [|c7 [|c8 [|c9 [|c10
    [|c11 [|c12 a]]]]]]]]]]]]];
    cbn in E; inversion E; subst;
    try (eexists [_; _; _]; reflexivity);
    try (eexists [_; _; _; _; _; _; _; _]; reflexivity).
    destruct a; discriminate.
Defined.

End Surroundings.

(** ** Lines: [strings.Split] after [strings.Join] *)

Section SplitJoin.
Import strings stringsFacts.

Lemma Cut_first (c : ascii) (x r : str) :
  ~ In c x -> Cut (x ++ c :: r) [c] = Some (x, r).
Proof.
  induction x as [|d x IH]; intros H.
  - cbn [app Cut]. rewrite HasPrefix_byte, Ascii.eqb_refl. reflexivity.
  - cbn [app Cut]. rewrite HasPrefix_byte.
    destruct (Ascii.eqb c d) eqn:E.
    + apply Ascii.eqb_eq in E. subst d. exfalso. apply H. left; reflexivity.
    + rewrite IH; [reflexivity|]. intros Hin. apply H. right; exact Hin.
Qed.

Lemma Cut_absent (c : ascii) (x : str) : ~ In c x -> Cut x [c] = None.
Proof.
  intros H. apply Cut_None. intros (a & b & E). apply H. subst x.
  apply in_or_app. right. left. reflexivity.
Qed.

Lemma Split_Join (lines : list str) :
  lines <> [] -> NlFree lines -> Split (Join lines [nl]) [nl] = lines.
Proof.
  induction lines as [|x lines IH]; [congruence|]. intros _ H.
  inversion H as [|? ? Hx Hl]; subst.
  rewrite Split_eq by discriminate.
  destruct lines as [|y lines].
  - cbn [Join]. rewrite Cut_absent by assumption. reflexivity.
  - rewrite Join_cons. cbn [app]. rewrite Cut_first by assumption.
    rewrite IH by (try discriminate; assumption). reflexivity.
Qed.

Lemma Cut_before (s b a : str) (c : ascii) :
  Cut s [c] = Some (b, a) -> ~ In c b.
Proof.
  intros E Hin. apply in_split in Hin. destruct Hin as (b1 & b2 & Hb).
  pose proof (Cut_leftmost s [c] b a E b1 (c :: b2) Hb ltac:(discriminate))
    as H.
  cbn [app] in H. rewrite HasPrefix_byte, Ascii.eqb_refl in H. discriminate.
Qed.

Lemma Split_NlFree (s : str) : NlFree (Split s [nl]).
Proof.
  remember (length s) as n eqn:Hn. revert s Hn.
  induction n as [n IH] using lt_wf_ind. intros s Hn.
  rewrite Split_eq by discriminate.
  destruct (Cut s [nl]) as [[b a]|] eqn:E.
  - constructor; [exact (Cut_before s b a nl E)|].
    apply (IH (length a)); [|reflexivity].
    subst n. apply (Cut_shorter s [nl] b a); [discriminate | exact E].
  - constructor; [|constructor]. apply Cut_None in E.
    intros Hin. apply E. apply in_split in Hin.
    destruct Hin as (l1 & l2 & ->). exists l1, l2. reflexivity.
Qed.

(** A newline in the text of some lines lies between two of the
    lines. *)
Lemma Join_cut (lines : list str) :
  forall a b : str,
    NlFree lines -> Join lines [nl] = a ++ nl :: b ->
    exists pre l post,
      lines = pre ++ l :: post /\ pre <> []
      /\ a = Join pre [nl] /\ b = Join (l :: post) [nl].
Proof.
  induction lines as [|x lines IH]; intros a b H E.
  - destruct a; discriminate.
  - inversion H as [|? ? Hx Hl]; subst.
    destruct lines as [|y lines].
    + cbn [Join] in E. exfalso. apply Hx. rewrite E.
      apply in_or_app. right. left. reflexivity.
    + rewrite Join_cons in E. cbn [app] in E.
      assert (Hhere : a = x /\ b = Join (y :: lines) [nl]
                      \/ exists a', a = x ++ nl :: a'
                                    /\ Join (y :: lines) [nl] = a' ++ nl :: b).
      { apply app_eq_app in E. destruct E as [l0 [[E1 E2]|[E1 E2]]].
        - destruct l0 as [|c l0].
          + left. rewrite app_nil_r in E1. cbn [app] in E2.
            inversion E2. auto.
          + exfalso. inversion E2; subst. apply Hx.
            apply in_or_app. right. left. reflexivity.
        - destruct l0 as [|c l0].
          + left. rewrite app_nil_r in E1. cbn [app] in E2.
            inversion E2. auto.
          + right. inversion E2; subst. exists l0. auto. }
      destruct Hhere as [[-> ->] | (a' & -> & E')].
      * exists [x], y, lines. repeat split. discriminate.
      * destruct (IH a' b Hl E') as (pre & l & post & Hp & Hne & Ha & Hb).
        exists (x :: pre), l, post. rewrite Hp. repeat split.
        -- discriminate.
        -- destruct pre as [|p0 pre]; [congruence|].
           rewrite Join_cons. rewrite Ha. reflexivity.
        -- exact Hb.
Qed.

End SplitJoin.

(** ** [parseMarkdown]: every heading outside a fence starts a slide *)

Section HeadingsMaximal.
Import strings stringsFacts.

Lemma fenceCount_snoc (cur : list str) (line : str) :
  fenceCount (cur ++ [line])
  = fenceCount cur + (if HasPrefix line "```" then 1 else 0).
Proof.
  unfold fenceCount. rewrite filter_app, length_app. cbn [filter].
  destruct (HasPrefix line "```"); reflexivity.
Qed.

Lemma Hashed_not_fence (l : str) : Hashed l -> HasPrefix l "```" = false.
Proof.
  unfold Hashed. intros H. apply HasPrefix_iff in H. destruct H as [r ->].
  reflexivity.
Qed.

Lemma Hashed_first (l : str) (post : list str) :
  Hashed (Join (l :: post) [nl]) -> Hashed l.
Proof.
  destruct post as [|y post]; [auto|]. rewrite Join_cons.
  destruct l as [|c l]; [discriminate|]. unfold Hashed.
  cbn [app]. rewrite !HasPrefix_hash. auto.
Qed.

Lemma Inner_snoc (cur : list str) (line : str) :
  Inner cur ->
  (cur <> [] -> Hashed line -> Nat.odd (fenceCount cur) = true) ->
  Inner (cur ++ [line]).
Proof.
  intros Hi Hl pre l post E Hne Hh.
  destruct post as [|p post] using rev_ind.
  - apply app_inj_tail in E. destruct E as [-> ->]. auto.
  - clear IHpost. rewrite app_comm_cons, app_assoc in E.
    apply app_inj_tail in E. destruct E as [E _].
    exact (Hi pre l post E Hne Hh).
Qed.

Lemma Inner_one (line : str) : Inner [line].
Proof.
  intros pre l post E Hne _. destruct pre as [|p pre]; [congruence|].
  destruct pre; discriminate.
Qed.

Lemma Inner_HeadingsFenced (cur : list str) :
  NlFree cur -> Inner cur -> HeadingsFenced (Join cur [nl]).
Proof.
  intros Hn Hi a b E Hh.
  destruct (Join_cut cur a b Hn E) as (pre & l & post & Hc & Hne & Ha & Hb).
  subst a b. unfold fences. rewrite Split_Join.
  - apply (Hi pre l post Hc Hne). exact (Hashed_first l post Hh).
  - exact Hne.
  - subst cur. apply Forall_app in Hn. tauto.
Qed.

Lemma headingLoop_maximal (lines : list str) :
  forall (slides currentSlide : list str) (inCode : bool),
    NlFree lines -> NlFree currentSlide -> Inner currentSlide ->
    Nat.odd (fenceCount currentSlide) = inCode ->
    Forall HeadingsFenced slides ->
    Forall HeadingsFenced
      (flush (headingLoop lines slides currentSlide inCode)).
Proof.
  induction lines as [|line rest IH]; intros slides cs b Hl Hc Hi Hp Hs.
  - cbn [headingLoop]. unfold flush. cbn [fst snd].
    destruct (0 <? length cs); [|exact Hs].
    apply Forall_app. split; [exact Hs|]. constructor; [|constructor].
    apply Inner_HeadingsFenced; assumption.
  - pose proof (Forall_inv Hl) as Hline.
    pose proof (Forall_inv_tail Hl) as Hrest.
    assert (Hc' : NlFree (cs ++ [line])).
    { apply Forall_app. split; [exact Hc|].
      constructor; [assumption|constructor]. }
    cbn [headingLoop]. destruct (HasPrefix line "```") eqn:Ef.
    { apply IH; try assumption.
      - apply Inner_snoc; [exact Hi|]. intros _ Hh.
        apply Hashed_not_fence in Hh. congruence.
      - rewrite fenceCount_snoc, Ef, Nat.add_1_r, Nat.odd_succ.
        rewrite <- Nat.negb_odd, Hp. reflexivity. }
    destruct (negb b && HasPrefix line "#") eqn:E.
    + apply andb_true_iff in E. destruct E as [Eb Eh].
      apply negb_true_iff in Eb. subst b.
      apply IH; try assumption.
      * constructor; [assumption|constructor].
      * apply Inner_one.
      * rewrite Eb. unfold fenceCount. cbn [filter]. rewrite Ef. reflexivity.
      * destruct (0 <? length cs); [|exact Hs].
        apply Forall_app. split; [exact Hs|]. constructor; [|constructor].
        apply Inner_HeadingsFenced; assumption.
    + apply IH; try assumption.
      * apply Inner_snoc; [exact Hi|]. intros _ Hh.
        unfold Hashed in Hh. rewrite Hh, andb_true_r in E.
        apply negb_false_iff in E. congruence.
      * rewrite fenceCount_snoc, Ef, Nat.add_0_r. exact Hp.
Qed.

(** X5. Without a separator in the text, every line that starts with [#]
    outside a fenced block starts a slide: within a slide, a later
    line starts with [#] only after an odd number of fence lines. *)
Theorem parseMarkdown_headings_maximal :
  forall content : str,
    ~ Occurs slideBreak (TrimSpace content) ->
    Forall HeadingsFenced (parseMarkdown content).
Proof.
  intros content H. rewrite (parseMarkdown_heading_path content H).
  apply headingLoop_maximal.
  - apply Split_NlFree.
  - constructor.
  - intros pre l post E. destruct pre; discriminate.
  - reflexivity.
  - constructor.
Qed.

(** The statement at a text with a [#] line in a fenced block. *)
Lemma parseMarkdown_headings_maximal_witness :
  Forall HeadingsFenced
    (parseMarkdown (golit "intro\n# A\nbody\n```\n# code\n```\n# B")).
Proof.
  apply parseMarkdown_headings_maximal.
  apply Cut_None. vm_compute. reflexivity.
Defined.

End HeadingsMaximal.

(** ** [parseInline]: text without markup *)

Ltac absent := cbn; intuition discriminate.

Ltac lacks :=
  let c := fresh "c" in
  let Hc := fresh "Hc" in
  intros c Hc; cbn in Hc;
  repeat (destruct Hc as [<-|Hc]; [absent|]); destruct Hc.

Section InlinePlain.
Import strings stringsFacts regexp regexpSpec regexpFacts.

Lemma Lacks_one (c : ascii) (cs : list ascii) (s : str) :
  Lacks cs s -> In c cs -> ~ In c s.
Proof. intros H Hc. exact (H c Hc). Qed.

Lemma Lacks_app (cs : list ascii) (a b : str) :
  Lacks cs a -> Lacks cs b -> Lacks cs (a ++ b).
Proof.
  intros Ha Hb c Hc Hin. apply in_app_or in Hin.
  destruct Hin; [exact (Ha c Hc H) | exact (Hb c Hc H)].
Qed.

Lemma Lacks_incl (cs cs' : list ascii) (s : str) :
  incl cs' cs -> Lacks cs s -> Lacks cs' s.
Proof. intros Hi H c Hc. apply H. apply Hi. exact Hc. Qed.

(** A regular expression whose matches all hold the byte [c] finds
    nothing in a text without [c]. *)
Lemma find_absent (r : regex) (c : ascii) (s : str) (b : bool) :
  (forall b' s' m cs rest,
      matchAt r b' s' = Some (m, cs, rest) -> In c m) ->
  ~ In c s -> find r b s = None.
Proof.
  intros Hr Hs.
  destruct (find r b s) as [[[[pre m] cs] rest]|] eqn:E; [|reflexivity].
  exfalso. destruct (find_sound r s _ _ _ _ _ E) as [Hd [b' Hm]].
  apply Hr in Hm. apply Hs. rewrite Hd.
  apply in_or_app. right. apply in_or_app. left. exact Hm.
Qed.

Lemma codeRegex_holds b s m cs rest :
  matchAt codeRegex b s = Some (m, cs, rest) -> In "`"%char m.
Proof.
  intros H. apply codeRegex_shape in H.
  destruct H as (c & _ & _ & -> & _). left; reflexivity.
Qed.

Lemma imageRegex_holds b s m cs rest :
  matchAt imageRegex b s = Some (m, cs, rest) -> In "["%char m.
Proof.
  intros H. apply imageRegex_shape in H.
  destruct H as (a & x & -> & _). right; left; reflexivity.
Qed.

Lemma linkRegex_holds b s m cs rest :
  matchAt linkRegex b s = Some (m, cs, rest) -> In "["%char m.
Proof.
  intros H. apply linkRegex_shape in H.
  destruct H as (a & x & -> & _). left; reflexivity.
Qed.

Lemma boldRegex_holds b s m cs rest :
  matchAt boldRegex b s = Some (m, cs, rest) -> In "*"%char m.
Proof.
  intros H. apply boldRegex_shape in H.
  destruct H as (x & -> & _). left; reflexivity.
Qed.

Lemma italicRegex_holds b s m cs rest :
  matchAt italicRegex b s = Some (m, cs, rest) -> In "*"%char m.
Proof.
  intros H. apply italicRegex_shape in H.
  destruct H as (g1 & x & g3 & -> & _).
  apply in_or_app. right. left; reflexivity.
Qed.

Lemma findAllFuel_none (r : regex) (b : bool) (s : str) (fuel : nat) :
  find r b s = None -> findAllFuel fuel r b s = ([], s).
Proof.
  intros H. destruct fuel; cbn [findAllFuel]; [reflexivity|].
  rewrite H. reflexivity.
Qed.

Lemma ReplaceAllStringFunc_none (r : regex) (s : str) (f : str -> str) :
  find r true s = None -> ReplaceAllStringFunc r s f = s.
Proof.
  intros H. unfold ReplaceAllStringFunc, findAll.
  rewrite findAllFuel_none by exact H. reflexivity.
Qed.

Lemma ReplaceAllString_none (r : regex) (s : str) (t : list tpart) :
  find r true s = None -> ReplaceAllString r s t = s.
Proof.
  intros H. unfold ReplaceAllString, findAll.
  rewrite findAllFuel_none by exact H. reflexivity.
Qed.

Lemma protectCode_none (e : str) :
  ~ In "`"%char e -> protectCode e = ([], e).
Proof.
  intros H. unfold protectCode, findAll.
  rewrite findAllFuel_none
    by (apply (find_absent codeRegex "`"); [exact codeRegex_holds | exact H]).
  reflexivity.
Qed.

(** The passes after the code pass leave a text without [[] and [*]
    as it is. *)
Lemma markupPasses_none (s : str) :
  ~ In "["%char s -> ~ In "*"%char s -> markupPasses s = s.
Proof.
  intros Hb Hs. unfold markupPasses.
  rewrite (ReplaceAllStringFunc_none imageRegex s)
    by (apply (find_absent imageRegex "[");
        [exact imageRegex_holds | exact Hb]).
  rewrite (ReplaceAllStringFunc_none linkRegex s)
    by (apply (find_absent linkRegex "["); [exact linkRegex_holds | exact Hb]).
  rewrite (ReplaceAllString_none boldRegex s)
    by (apply (find_absent boldRegex "*"); [exact boldRegex_holds | exact Hs]).
  apply ReplaceAllString_none.
  apply (find_absent italicRegex "*"); [exact italicRegex_holds | exact Hs].
Qed.

Lemma escapeByte_bytes (c x : ascii) :
  In c (html.escapeByte x) -> c = x \/ In c entityBytes.
Proof.
  unfold html.escapeByte.
  repeat match goal with
         | |- context [if ?t then _ else _] =>
           destruct t; [intros H; right; cbn in H |- *; intuition auto 30|]
         end.
  intros [H|[]]. left. congruence.
Qed.

Lemma EscapeString_absent (c : ascii) (s : str) :
  ~ In c entityBytes -> ~ In c s -> ~ In c (html.EscapeString s).
Proof.
  intros He Hs Hin. unfold html.EscapeString in Hin.
  apply in_flat_map in Hin. destruct Hin as [x [Hx Hb]].
  apply escapeByte_bytes in Hb. destruct Hb as [->|Hb]; contradiction.
Qed.

Lemma EscapeString_Lacks (cs : list ascii) (s : str) :
  Lacks cs entityBytes -> Lacks cs s -> Lacks cs (html.EscapeString s).
Proof.
  intros He Hs c Hc.
  apply EscapeString_absent; [exact (He c Hc) | exact (Hs c Hc)].
Qed.

Lemma parseInline_unmarked (o : order) (e : str) :
  ~ In "`"%char e ->
  (let (codePlaceholders, text) := protectCode e in
   restoreCode (rangeMap o codePlaceholders) (markupPasses text))
  = markupPasses e.
Proof.
  intros H. rewrite protectCode_none by exact H. reflexivity.
Qed.

Lemma parseInline_plain (o : order) (text : str) :
  Lacks ["`"; "["; "*"]%char text ->
  parseInline o text = html.EscapeString text.
Proof.
  intros H. unfold parseInline.
  rewrite parseInline_unmarked
    by (apply EscapeString_absent; [absent | apply H; cbn; auto]).
  apply markupPasses_none;
    (apply EscapeString_absent; [absent | apply H; cbn; auto]).
Qed.

(** X6. Text that holds no backtick, no opening bracket and no
    asterisk is escaped and nothing more. *)
Theorem parseInline_plain_text :
  forall (o : order) (text : str),
    Lacks ["`"; "["; "*"]%char text ->
    parseInline o text = html.EscapeString text.
Proof. exact parseInline_plain. Qed.

(** The statement at a text with special bytes, underscores and a
    placeholder's text. *)
Lemma parseInline_plain_text_witness :
  parseInline [] "a < b & (c) __CODE0__ _d_ !"
  = html.EscapeString "a < b & (c) __CODE0__ _d_ !".
Proof.
  apply parseInline_plain_text.
  intros c Hc. cbn in Hc. cbn.
  repeat (destruct Hc as [<-|Hc]; [intuition discriminate|]). destruct Hc.
Defined.

End InlinePlain.

(** ** [parseInline]: bold text *)

Ltac notin :=
  let Hin := fresh "Hin" in
  intros Hin;
  repeat (rewrite ?in_app_iff in Hin; cbn in Hin);
  intuition (try discriminate; eauto).

Ltac esc_lacks H :=
  apply EscapeString_Lacks in H;
  [| let Hc := fresh "Hc" in
     intros ? Hc; cbn in Hc;
     repeat (destruct Hc as [<-|Hc]; [absent|]); destruct Hc].

Section InlineBold.
Import strings stringsFacts regexp regexpSpec regexpFacts.

Lemma find_unfold (r : regex) (b : bool) (s : str) :
  find r b s
  = match matchAt r b s with
    | Some (m, cs, rest) => Some ([], m, cs, rest)
    | None =>
      match s with
      | [] => None
      | c :: s' =>
        match find r false s' with
        | Some (pre, m, cs, rest) => Some (c :: pre, m, cs, rest)
        | None => None
        end
      end
    end.
Proof. destruct s; reflexivity. Qed.

(** The search passes over a stretch of text at no byte of which a
    match starts. *)
Lemma find_pass (r : regex) (P s : str) :
  (forall b p1 d p2, P = p1 ++ d :: p2 -> matchAt r b (d :: p2 ++ s) = None) ->
  forall b,
    find r b (P ++ s)
    = match find r (b && isEmpty P) s with
      | Some (pre, m, cs, rest) => Some (P ++ pre, m, cs, rest)
      | None => None
      end.
Proof.
  intros HP. induction P as [|d P IH]; intros b.
  - cbn [app isEmpty]. rewrite andb_true_r.
    destruct (find r b s) as [[[[pre m] cs] rest]|]; reflexivity.
  - cbn [app isEmpty]. rewrite andb_false_r. rewrite find_unfold.
    rewrite (HP b [] d P eq_refl).
    rewrite IH.
    + cbn [andb]. destruct (find r false s) as [[[[pre m] cs] rest]|];
        reflexivity.
    + intros b' p1 d' p2 E. apply (HP b' (d :: p1)). rewrite E. reflexivity.
Qed.

Lemma find_here (r : regex) (b : bool) (s m rest : str) (cs : list str) :
  matchAt r b s = Some (m, cs, rest) -> find r b s = Some ([], m, cs, rest).
Proof. intros H. rewrite find_unfold, H. reflexivity. Qed.

Lemma find_skip (r : regex) (P s m rest : str) (cs : list str) :
  (forall b d x, In d P -> matchAt r b (d :: x) = None) ->
  (forall b, matchAt r b s = Some (m, cs, rest)) ->
  forall b, find r b (P ++ s) = Some (P, m, cs, rest).
Proof.
  intros HP Hs b. rewrite find_pass.
  - rewrite (find_here r _ s m rest cs) by apply Hs.
    rewrite app_nil_r. reflexivity.
  - intros b' p1 d p2 E. apply HP. rewrite E.
    apply in_or_app. right. left. reflexivity.
Qed.

Lemma findAll_one (r : regex) (s pre m rest : str) (cs : list str) :
  s <> [] ->
  find r true s = Some (pre, m, cs, rest) ->
  find r false rest = None ->
  findAll r s = ([(pre, m, cs)], rest).
Proof.
  intros Hne H1 H2. unfold findAll.
  destruct s as [|c s]; [congruence|]. cbn [length findAllFuel].
  rewrite H1, findAllFuel_none by exact H2. reflexivity.
Qed.

Lemma boldRegex_complete (b : bool) (x rest : str) :
  x <> [] -> ~ In "*"%char x ->
  matchAt boldRegex b
    ("*"%char :: "*"%char :: x ++ "*"%char :: "*"%char :: rest)
  = Some ("*"%char :: "*"%char :: x ++ ["*"%char; "*"%char], [x], rest).
Proof.
  intros Hne Hc. destruct x as [|d a]; [congruence|].
  apply notChr_forallb in Hc. cbn [forallb] in Hc.
  apply andb_true_iff in Hc. destruct Hc as [Hd Ha].
  unfold matchAt, boldRegex. cbn [run app]. rewrite !Ascii.eqb_refl, Hd.
  rewrite starGreedy_stop.
  - rewrite !Ascii.eqb_refl, firstn_prefix_cons.
    replace ("*"%char :: "*"%char :: d :: a ++ "*"%char :: "*"%char :: rest)
      with (("*"%char :: "*"%char :: d :: a ++ ["*"%char; "*"%char]) ++ rest)
      by (cbn [app]; rewrite <- app_assoc; reflexivity).
    rewrite firstn_prefix. reflexivity.
  - exact Ha.
  - reflexivity.
  - intros d' x Hd'. cbn [run]. unfold notChr in Hd'.
    apply negb_true_iff in Hd'. rewrite Hd'. reflexivity.
Qed.

Lemma chr_first_fails (c : ascii) (r : regex) (b : bool) (d : ascii)
    (x : str) :
  d <> c -> matchAt (Cat (Chr c) r) b (d :: x) = None.
Proof.
  intros H. unfold matchAt. cbn [run].
  apply Ascii.eqb_neq in H. rewrite H. reflexivity.
Qed.

(** X7. Bold text inside a line of plain text is set between
    [<strong>] and [</strong>]; the text around it is escaped. *)
Theorem parseInline_bold :
  forall (o : order) (pre x post : str),
    Lacks ["`"; "["; "*"]%char pre ->
    Lacks ["`"; "["; "*"]%char x ->
    Lacks ["`"; "["; "*"]%char post ->
    x <> [] ->
    parseInline o (pre ++ "**" ++ x ++ "**" ++ post)
    = html.EscapeString pre ++ "<strong>" ++ html.EscapeString x
        ++ "</strong>" ++ html.EscapeString post.
Proof.
  intros o pre x post Hpre Hx Hpost Hne. unfold parseInline.
  rewrite !EscapeString_app.
  change (html.EscapeString "**") with ("**" : str).
  esc_lacks Hpre. esc_lacks Hx. esc_lacks Hpost.
  apply EscapeString_not_nil in Hne.
  set (P := html.EscapeString pre) in *. set (X := html.EscapeString x) in *.
  set (Q := html.EscapeString post) in *.
  assert (Hp1 : ~ In "`"%char P) by (apply Hpre; cbn; auto).
  assert (Hp2 : ~ In "["%char P) by (apply Hpre; cbn; auto).
  assert (Hp3 : ~ In "*"%char P) by (apply Hpre; cbn; auto).
  assert (Hx1 : ~ In "`"%char X) by (apply Hx; cbn; auto).
  assert (Hx2 : ~ In "["%char X) by (apply Hx; cbn; auto).
  assert (Hx3 : ~ In "*"%char X) by (apply Hx; cbn; auto).
  assert (Hq1 : ~ In "`"%char Q) by (apply Hpost; cbn; auto).
  assert (Hq2 : ~ In "["%char Q) by (apply Hpost; cbn; auto).
  assert (Hq3 : ~ In "*"%char Q) by (apply Hpost; cbn; auto).
  rewrite parseInline_unmarked by notin.
  unfold markupPasses.
  rewrite (ReplaceAllStringFunc_none imageRegex)
    by (apply (find_absent imageRegex "["); [exact imageRegex_holds | notin]).
  rewrite (ReplaceAllStringFunc_none linkRegex)
    by (apply (find_absent linkRegex "["); [exact linkRegex_holds | notin]).
  assert (E : ReplaceAllString boldRegex (P ++ "**" ++ X ++ "**" ++ Q)
                boldTemplate
              = P ++ "<strong>" ++ X ++ "</strong>" ++ Q).
  { unfold ReplaceAllString.
    change (P ++ "**" ++ X ++ "**" ++ Q)
      with (P ++ "*"%char :: "*"%char :: X ++ "*"%char :: "*"%char :: Q).
    rewrite (findAll_one boldRegex _ P
               ("*"%char :: "*"%char :: X ++ ["*"%char; "*"%char]) Q [X]).
    - cbn [flat_map expand boldTemplate nth app].
      repeat (progress (cbn [app]; rewrite <- ?app_assoc)). reflexivity.
    - destruct P; discriminate.
    - apply find_skip.
      + intros b d x0 Hd. apply chr_first_fails. intros ->. contradiction.
      + intros b. rewrite boldRegex_complete by assumption.
        reflexivity.
    - apply (find_absent boldRegex "*"); [exact boldRegex_holds | assumption]. }
  rewrite E. apply ReplaceAllString_none.
  apply (find_absent italicRegex "*"); [exact italicRegex_holds | notin].
Qed.

(** The statement at bold text that holds special bytes. *)
Lemma parseInline_bold_witness :
  parseInline [] ("be " ++ "**" ++ "very <sure>" ++ "**" ++ "!")
  = html.EscapeString "be " ++ "<strong>" ++ html.EscapeString "very <sure>"
      ++ "</strong>" ++ html.EscapeString "!".
Proof.
  apply parseInline_bold; try lacks. discriminate.
Defined.

End InlineBold.

(** ** [parseInline]: links and images *)

Section InlineLinks.
Import strings stringsFacts regexp regexpSpec regexpFacts.

Lemma linkRegex_complete (b : bool) (label url rest : str) :
  label <> [] -> ~ In "]"%char label ->
  url <> [] -> ~ In ")"%char url ->
  matchAt linkRegex b
    ("["%char :: label ++ "]"%char :: "("%char :: url ++ ")"%char :: rest)
  = Some ("["%char :: label ++ "]"%char :: "("%char :: url ++ [")"%char],
          [label; url], rest).
Proof.
  intros Hl1 Hl2 Hu1 Hu2.
  destruct label as [|d a]; [congruence|].
  destruct url as [|d2 a2]; [congruence|].
  apply notChr_forallb in Hl2, Hu2. cbn [forallb] in Hl2, Hu2.
  apply andb_true_iff in Hl2, Hu2.
  destruct Hl2 as [Hd Ha]. destruct Hu2 as [Hd2 Ha2].
  unfold matchAt, linkRegex. cbn [run app]. rewrite !Ascii.eqb_refl, Hd.
  rewrite starGreedy_stop;
    [| exact Ha | reflexivity
     | intros d' x Hd'; cbn [run]; unfold notChr in Hd';
       apply negb_true_iff in Hd'; rewrite Hd'; reflexivity].
  cbn [run]. rewrite !Ascii.eqb_refl, Hd2.
  rewrite starGreedy_stop;
    [| exact Ha2 | reflexivity
     | intros d' x Hd'; cbn [run]; unfold notChr in Hd';
       apply negb_true_iff in Hd'; rewrite Hd'; reflexivity].
  cbn [run]. rewrite !Ascii.eqb_refl.
  rewrite (firstn_prefix_cons d a), (firstn_prefix_cons d2 a2).
  replace ("["%char :: d :: a ++ "]"%char :: "("%char :: d2 :: a2
             ++ ")"%char :: rest)
    with (("["%char :: (d :: a) ++ "]"%char :: "("%char :: (d2 :: a2)
             ++ [")"%char]) ++ rest)
    by (cbn [app]; rewrite <- !app_assoc; cbn [app]; rewrite <- !app_assoc;
        reflexivity).
  rewrite firstn_prefix. reflexivity.
Qed.

Lemma imageRegex_complete (b : bool) (alt src rest : str) :
  ~ In "]"%char alt -> src <> [] -> ~ In ")"%char src ->
  matchAt imageRegex b
    ("!"%char :: "["%char :: alt ++ "]"%char :: "("%char :: src
       ++ ")"%char :: rest)
  = Some ("!"%char :: "["%char :: alt ++ "]"%char :: "("%char :: src
            ++ [")"%char],
          [alt; src], rest).
Proof.
  intros Hl2 Hu1 Hu2.
  destruct src as [|d2 a2]; [congruence|].
  apply notChr_forallb in Hl2, Hu2. cbn [forallb] in Hu2.
  apply andb_true_iff in Hu2. destruct Hu2 as [Hd2 Ha2].
  unfold matchAt, imageRegex. cbn [run app]. rewrite !Ascii.eqb_refl.
  rewrite starGreedy_stop;
    [| exact Hl2 | reflexivity
     | intros d' x Hd'; cbn [run]; unfold notChr in Hd';
       apply negb_true_iff in Hd'; rewrite Hd'; reflexivity].
  cbn [run]. rewrite !Ascii.eqb_refl, Hd2.
  rewrite starGreedy_stop;
    [| exact Ha2 | reflexivity
     | intros d' x Hd'; cbn [run]; unfold notChr in Hd';
       apply negb_true_iff in Hd'; rewrite Hd'; reflexivity].
  cbn [run]. rewrite !Ascii.eqb_refl.
  rewrite (firstn_prefix alt), (firstn_prefix_cons d2 a2).
  replace ("!"%char :: "["%char :: alt ++ "]"%char :: "("%char :: d2 :: a2
             ++ ")"%char :: rest)
    with (("!"%char :: "["%char :: alt ++ "]"%char :: "("%char :: (d2 :: a2)
             ++ [")"%char]) ++ rest)
    by (cbn [app]; rewrite <- !app_assoc; cbn [app]; rewrite <- !app_assoc;
        reflexivity).
  rewrite firstn_prefix. reflexivity.
Qed.

Lemma normalizeAssetPath_bytes (c : ascii) (src : str) :
  In c (normalizeAssetPath src) -> In c src \/ In c "/assets/".
Proof.
  unfold normalizeAssetPath. destruct (_ || _); [auto|].
  intros H. apply in_app_or in H. tauto.
Qed.

Lemma escapeByte_last (x : ascii) :
  EndsWith "!" (html.escapeByte x) -> x = "!"%char.
Proof.
  unfold html.escapeByte.
  repeat match goal with
         | |- context [if ?t then _ else _] =>
           destruct t;
           [intros [p Hp];
            repeat (destruct p as [|? p]; try discriminate)|]
         end.
  intros [p Hp]. destruct p as [|? p]; [inversion Hp; reflexivity|].
  destruct p; discriminate.
Qed.

Lemma EscapeString_ends (s : str) :
  EndsWith "!" (html.EscapeString s) -> EndsWith "!" s.
Proof.
  destruct s as [|x s] using rev_ind.
  - intros [p Hp]. destruct p; discriminate.
  - clear IHs. intros [p Hp]. rewrite EscapeString_app in Hp.
    change (html.EscapeString [x]) with (html.escapeByte x ++ []) in Hp.
    rewrite app_nil_r in Hp.
    assert (Hx : EndsWith "!" (html.escapeByte x)).
    { assert (Hne : html.escapeByte x <> []).
      { unfold html.escapeByte.
        repeat match goal with
               | |- context [if ?t then _ else _] => destruct t; [discriminate|]
               end.
        discriminate. }
      destruct (html.escapeByte x) as [|y l] using rev_ind; [congruence|].
      rewrite app_assoc in Hp. apply app_inj_tail in Hp.
      destruct Hp as [_ ->]. exists l. reflexivity. }
    apply escapeByte_last in Hx. subst x. exists s. reflexivity.
Qed.

(** Where the only opening bracket does not follow an exclamation
    mark, [imageRegex] finds nothing. *)
Lemma imageRegex_none (b : bool) (P Y : str) :
  ~ In "["%char P -> ~ EndsWith "!" P -> ~ In "["%char Y ->
  find imageRegex b (P ++ "["%char :: Y) = None.
Proof.
  intros HP He HY.
  destruct (find imageRegex b (P ++ "["%char :: Y))
    as [[[[pre m] cs] rest]|] eqn:E; [|reflexivity].
  exfalso. destruct (find_sound imageRegex _ _ _ _ _ _ E) as [Hd [b' Hm]].
  apply imageRegex_shape in Hm. destruct Hm as (alt & src & -> & _ & _).
  cbn [app] in Hd. apply app_eq_app in Hd.
  destruct Hd as [l [[E1 E2]|[E1 E2]]].
  - destruct l as [|c [|c' l]]; cbn [app] in E2; inversion E2; subst.
    + apply He. exists pre. reflexivity.
    + apply HP. apply in_or_app. right. right. left. reflexivity.
  - destruct l as [|c l]; cbn [app] in E2; inversion E2; subst.
    apply HY. apply in_or_app. right. right. left. reflexivity.
Qed.

Lemma linkRepl_link (label url : str) :
  label <> [] -> ~ In "]"%char label ->
  url <> [] -> ~ In ")"%char url ->
  linkRepl ("["%char :: label ++ "]"%char :: "("%char :: url ++ [")"%char])
  = "<a href=" ++ dquote :: normalizeAssetPath url ++ dquote :: ">"
      ++ label ++ "</a>".
Proof.
  intros H1 H2 H3 H4. unfold linkRepl, FindStringSubmatch.
  rewrite (find_here linkRegex true _ _ _ _
             (linkRegex_complete true label url [] H1 H2 H3 H4)).
  reflexivity.
Qed.

Lemma imageRepl_image (alt src : str) :
  ~ In "]"%char alt -> src <> [] -> ~ In ")"%char src ->
  imageRepl ("!"%char :: "["%char :: alt ++ "]"%char :: "("%char :: src
               ++ [")"%char])
  = "<img src=" ++ dquote :: normalizeAssetPath src ++ dquote :: " alt="
      ++ dquote :: alt ++ dquote :: "/>".
Proof.
  intros H2 H3 H4. unfold imageRepl, FindStringSubmatch.
  rewrite (find_here imageRegex true _ _ _ _
             (imageRegex_complete true alt src [] H2 H3 H4)).
  reflexivity.
Qed.

(** X8. A link inside a line of plain text: the label is kept, the
    target goes through [normalizeAssetPath]. *)
Theorem parseInline_link :
  forall (o : order) (pre label url post : str),
    Lacks ["`"; "["; "*"]%char pre -> ~ EndsWith "!" pre ->
    Lacks ["`"; "["; "]"; "*"]%char label -> label <> [] ->
    Lacks ["`"; "["; ")"; "*"]%char url -> url <> [] ->
    Lacks ["`"; "["; "*"]%char post ->
    parseInline o (pre ++ "[" ++ label ++ "](" ++ url ++ ")" ++ post)
    = html.EscapeString pre
        ++ "<a href=" ++ dquote :: normalizeAssetPath (html.EscapeString url)
        ++ dquote :: ">" ++ html.EscapeString label ++ "</a>"
        ++ html.EscapeString post.
Proof.
  intros o pre label url post Hpre Hend Hl Hlne Hu Hune Hpost.
  unfold parseInline. rewrite !EscapeString_app.
  change (html.EscapeString "[") with ("[" : str).
  change (html.EscapeString "](") with ("](" : str).
  change (html.EscapeString ")") with (")" : str).
  esc_lacks Hpre. esc_lacks Hl. esc_lacks Hu. esc_lacks Hpost.
  apply EscapeString_not_nil in Hlne, Hune.
  assert (Hend' : ~ EndsWith "!" (html.EscapeString pre))
    by (intros H; apply Hend, EscapeString_ends, H).
  clear Hend.
  set (P := html.EscapeString pre) in *.
  set (L := html.EscapeString label) in *.
  set (U := html.EscapeString url) in *.
  set (Q := html.EscapeString post) in *.
  clearbody P L U Q.
  assert (Hp1 : ~ In "`"%char P) by (apply Hpre; cbn; auto).
  assert (Hp2 : ~ In "["%char P) by (apply Hpre; cbn; auto).
  assert (Hp3 : ~ In "*"%char P) by (apply Hpre; cbn; auto).
  assert (Hl1 : ~ In "`"%char L) by (apply Hl; cbn; auto).
  assert (Hl2 : ~ In "["%char L) by (apply Hl; cbn; auto).
  assert (Hl3 : ~ In "]"%char L) by (apply Hl; cbn; auto).
  assert (Hl4 : ~ In "*"%char L) by (apply Hl; cbn; auto).
  assert (Hu1 : ~ In "`"%char U) by (apply Hu; cbn; auto).
  assert (Hu2 : ~ In "["%char U) by (apply Hu; cbn; auto).
  assert (Hu3 : ~ In ")"%char U) by (apply Hu; cbn; auto).
  assert (Hu4 : ~ In "*"%char U) by (apply Hu; cbn; auto).
  assert (Hq1 : ~ In "`"%char Q) by (apply Hpost; cbn; auto).
  assert (Hq2 : ~ In "["%char Q) by (apply Hpost; cbn; auto).
  assert (Hq3 : ~ In "*"%char Q) by (apply Hpost; cbn; auto).
  assert (Hn : ~ In "*"%char (normalizeAssetPath U)).
  { intros H. apply normalizeAssetPath_bytes in H. destruct H as [H|H];
      [contradiction | cbn in H; intuition discriminate]. }
  rewrite parseInline_unmarked by notin.
  unfold markupPasses.
  change (P ++ "[" ++ L ++ "](" ++ U ++ ")" ++ Q)
    with (P ++ "["%char :: L ++ "]"%char :: "("%char :: U ++ ")"%char :: Q).
  rewrite (ReplaceAllStringFunc_none imageRegex)
    by (apply imageRegex_none; [assumption | assumption | notin]).
  assert (E : ReplaceAllStringFunc linkRegex
                (P ++ "["%char :: L ++ "]"%char :: "("%char :: U
                   ++ ")"%char :: Q) linkRepl
              = P ++ "<a href=" ++ dquote :: normalizeAssetPath U
                  ++ dquote :: ">" ++ L ++ "</a>" ++ Q).
  { unfold ReplaceAllStringFunc.
    rewrite (findAll_one linkRegex _ P
               ("["%char :: L ++ "]"%char :: "("%char :: U ++ [")"%char])
               Q [L; U]).
    - cbn [flat_map]. rewrite linkRepl_link by assumption.
      repeat (progress (cbn [app]; rewrite <- ?app_assoc)). reflexivity.
    - destruct P; discriminate.
    - apply find_skip.
      + intros b d x0 Hd. apply chr_first_fails. intros ->. contradiction.
      + intros b. apply linkRegex_complete; assumption.
    - apply (find_absent linkRegex "["); [exact linkRegex_holds | assumption]. }
  rewrite E. set (N := normalizeAssetPath U) in *. clearbody N.
  rewrite (ReplaceAllString_none boldRegex)
    by (apply (find_absent boldRegex "*"); [exact boldRegex_holds | notin]).
  apply ReplaceAllString_none.
  apply (find_absent italicRegex "*"); [exact italicRegex_holds | notin].
Qed.

(** The statement at a link with a relative target that holds an
    ampersand. *)
Lemma parseInline_link_witness :
  parseInline [] ("see " ++ "[" ++ "the docs" ++ "](" ++ "docs/a&b.html"
                    ++ ")" ++ " now")
  = html.EscapeString "see "
      ++ "<a href=" ++ dquote
      :: normalizeAssetPath (html.EscapeString "docs/a&b.html")
      ++ dquote :: ">" ++ html.EscapeString "the docs" ++ "</a>"
      ++ html.EscapeString " now".
Proof.
  apply parseInline_link; try lacks; try discriminate.
  intros [p Hp]. apply (f_equal (@rev ascii)) in Hp.
  rewrite rev_app_distr in Hp. discriminate.
Defined.

(** X9. An image inside a line of plain text: the source goes through
    [normalizeAssetPath]. *)
Theorem parseInline_image :
  forall (o : order) (pre alt src post : str),
    Lacks ["`"; "["; "*"]%char pre ->
    Lacks ["`"; "["; "]"; "*"]%char alt ->
    Lacks ["`"; "["; ")"; "*"]%char src -> src <> [] ->
    Lacks ["`"; "["; "*"]%char post ->
    parseInline o (pre ++ "![" ++ alt ++ "](" ++ src ++ ")" ++ post)
    = html.EscapeString pre
        ++ "<img src=" ++ dquote :: normalizeAssetPath (html.EscapeString src)
        ++ dquote :: " alt=" ++ dquote :: html.EscapeString alt
        ++ dquote :: "/>" ++ html.EscapeString post.
Proof.
  intros o pre label url post Hpre Hl Hu Hune Hpost.
  unfold parseInline. rewrite !EscapeString_app.
  change (html.EscapeString "![") with ("![" : str).
  change (html.EscapeString "](") with ("](" : str).
  change (html.EscapeString ")") with (")" : str).
  esc_lacks Hpre. esc_lacks Hl. esc_lacks Hu. esc_lacks Hpost.
  apply EscapeString_not_nil in Hune.
  set (P := html.EscapeString pre) in *.
  set (L := html.EscapeString label) in *.
  set (U := html.EscapeString url) in *.
  set (Q := html.EscapeString post) in *.
  clearbody P L U Q.
  assert (Hp1 : ~ In "`"%char P) by (apply Hpre; cbn; auto).
  assert (Hp2 : ~ In "["%char P) by (apply Hpre; cbn; auto).
  assert (Hp3 : ~ In "*"%char P) by (apply Hpre; cbn; auto).
  assert (Hl1 : ~ In "`"%char L) by (apply Hl; cbn; auto).
  assert (Hl2 : ~ In "["%char L) by (apply Hl; cbn; auto).
  assert (Hl3 : ~ In "]"%char L) by (apply Hl; cbn; auto).
  assert (Hl4 : ~ In "*"%char L) by (apply Hl; cbn; auto).
  assert (Hu1 : ~ In "`"%char U) by (apply Hu; cbn; auto).
  assert (Hu2 : ~ In "["%char U) by (apply Hu; cbn; auto).
  assert (Hu3 : ~ In ")"%char U) by (apply Hu; cbn; auto).
  assert (Hu4 : ~ In "*"%char U) by (apply Hu; cbn; auto).
  assert (Hq1 : ~ In "`"%char Q) by (apply Hpost; cbn; auto).
  assert (Hq2 : ~ In "["%char Q) by (apply Hpost; cbn; auto).
  assert (Hq3 : ~ In "*"%char Q) by (apply Hpost; cbn; auto).
  assert (Hn : ~ In "*"%char (normalizeAssetPath U)).
  { intros H. apply normalizeAssetPath_bytes in H. destruct H as [H|H];
      [contradiction | cbn in H; intuition discriminate]. }
  assert (Hn' : ~ In "["%char (normalizeAssetPath U)).
  { intros H. apply normalizeAssetPath_bytes in H. destruct H as [H|H];
      [contradiction | cbn in H; intuition discriminate]. }
  rewrite parseInline_unmarked by notin.
  unfold markupPasses.
  change (P ++ "![" ++ L ++ "](" ++ U ++ ")" ++ Q)
    with (P ++ "!"%char :: "["%char :: L ++ "]"%char :: "("%char :: U
            ++ ")"%char :: Q).
  assert (E : ReplaceAllStringFunc imageRegex
                (P ++ "!"%char :: "["%char :: L ++ "]"%char :: "("%char :: U
                   ++ ")"%char :: Q) imageRepl
              = P ++ "<img src=" ++ dquote :: normalizeAssetPath U
                  ++ dquote :: " alt=" ++ dquote :: L ++ dquote :: "/>"
                  ++ Q).
  { unfold ReplaceAllStringFunc.
    rewrite (findAll_one imageRegex _ P
               ("!"%char :: "["%char :: L ++ "]"%char :: "("%char :: U
                  ++ [")"%char])
               Q [L; U]).
    - cbn [flat_map]. rewrite imageRepl_image by assumption.
      repeat (progress (cbn [app]; rewrite <- ?app_assoc)). reflexivity.
    - destruct P; discriminate.
    - rewrite find_pass.
      + rewrite (find_here imageRegex _ _ _ _ _
                   (imageRegex_complete _ L U Q Hl3 Hune Hu3)).
        rewrite app_nil_r. reflexivity.
      + intros b p1 d p2 EP.
        assert (Hd : ~ In "["%char (d :: p2)).
        { intros H. apply Hp2. rewrite EP. apply in_or_app. right. exact H. }
        unfold matchAt, imageRegex. cbn [run].
        destruct (Ascii.eqb d "!"); [|reflexivity].
        destruct p2 as [|d' p2]; cbn [app]; [reflexivity|].
        destruct (Ascii.eqb d' "[") eqn:Ed; [|reflexivity].
        apply Ascii.eqb_eq in Ed. subst d'. exfalso. apply Hd.
        right. left. reflexivity.
    - apply (find_absent imageRegex "[");
        [exact imageRegex_holds | assumption]. }
  rewrite E. set (N := normalizeAssetPath U) in *. clearbody N.
  rewrite (ReplaceAllStringFunc_none linkRegex)
    by (apply (find_absent linkRegex "["); [exact linkRegex_holds | notin]).
  rewrite (ReplaceAllString_none boldRegex)
    by (apply (find_absent boldRegex "*"); [exact boldRegex_holds | notin]).
  apply ReplaceAllString_none.
  apply (find_absent italicRegex "*"); [exact italicRegex_holds | notin].
Qed.

(** The statement at an image with a relative source. *)
Lemma parseInline_image_witness :
  parseInline [] ("logo: " ++ "![" ++ "our logo" ++ "](" ++ "img/logo.png"
                    ++ ")" ++ [])
  = html.EscapeString "logo: "
      ++ "<img src=" ++ dquote
      :: normalizeAssetPath (html.EscapeString "img/logo.png")
      ++ dquote :: " alt=" ++ dquote :: html.EscapeString "our logo"
      ++ dquote :: "/>" ++ html.EscapeString [].
Proof.
  apply parseInline_image; try lacks; try discriminate.
Defined.

End InlineLinks.

(** ** [parseInline]: italic text *)

Section InlineItalic.
Import strings stringsFacts regexp regexpSpec regexpFacts.

Lemma starLazy_unfold (p : ascii -> bool) (k : str -> option result)
    (s : str) :
  starLazy p k s
  = match k s with
    | Some r => Some r
    | None =>
      match s with
      | c :: s' => if p c then starLazy p k s' else None
      | [] => None
      end
    end.
Proof. destruct s; reflexivity. Qed.

(** A lazy repetition runs on to the first place where the rest
    matches. *)
Lemma starLazy_stop (p : ascii -> bool) (k : str -> option result)
    (a rest : str) (r : result) :
  forallb p a = true ->
  (forall d x, p d = true -> k (d :: x) = None) ->
  k rest = Some r ->
  starLazy p k (a ++ rest) = Some r.
Proof.
  intros Ha Hk Hr. induction a as [|d a IH]; cbn [app].
  - rewrite starLazy_unfold, Hr. reflexivity.
  - cbn [forallb] in Ha. apply andb_true_iff in Ha. destruct Ha as [Hd Ha].
    rewrite starLazy_unfold, (Hk d _ Hd), Hd. exact (IH Ha).
Qed.

Lemma notChr2_forallb (x y : ascii) (c : str) :
  forallb (notChr2 x y) c = true <-> ~ In x c /\ ~ In y c.
Proof.
  induction c as [|d c IH]; cbn [forallb In].
  - tauto.
  - rewrite andb_true_iff, IH. unfold notChr2 at 1.
    rewrite andb_true_iff, !negb_true_iff, !Ascii.eqb_neq.
    intuition congruence.
Qed.

Lemma italicRegex_complete (b : bool) (g1 x g3 Q : str) :
  x <> [] -> ~ In "*"%char x -> ~ In nl x ->
  (g1 = [] /\ b = true \/ g1 = [" "%char]) ->
  (g3 = [] /\ Q = [] \/ g3 = [" "%char]) ->
  matchAt italicRegex b (g1 ++ "*"%char :: x ++ "*"%char :: g3 ++ Q)
  = Some (g1 ++ "*"%char :: x ++ "*"%char :: g3, [g1; x; g3], Q).
Proof.
  intros Hne Hs Hn H1 H3. destruct x as [|d a]; [congruence|].
  assert (Hx : forallb (notChr2 "*" nl) (d :: a) = true)
    by (apply notChr2_forallb; auto).
  cbn [forallb] in Hx. apply andb_true_iff in Hx. destruct Hx as [Hd Ha].
  assert (Hbody : forall g, run (Cat (Chr "*")
               (Cat (Grp (PlusLazy (notChr2 "*" nl)))
                  (Cat (Chr "*") (Grp (Alt (Cls spaceClass) Eol)))))
             false ("*"%char :: (d :: a) ++ "*"%char :: g3 ++ Q) [g]
             (fun _ s' cs => Some (cs, s'))
           = Some ([g; d :: a; g3], Q)).
  { intros g. cbn [run app]. rewrite Ascii.eqb_refl, Hd.
    apply starLazy_stop; [exact Ha | |].
    - intros d' x' Hd'. unfold notChr2 in Hd'.
      apply andb_true_iff in Hd'. destruct Hd' as [Hd' _].
      apply negb_true_iff in Hd'. rewrite Hd'. reflexivity.
    - cbn [run]. rewrite Ascii.eqb_refl.
      rewrite (firstn_prefix_cons d a).
      destruct H3 as [[-> ->] | ->]; cbn [app run];
        [|change (spaceClass " ") with true; cbv iota;
          rewrite (firstn_one " ")];
        reflexivity. }
  assert (Hm : firstn
                 (length ((g1 ++ "*"%char :: (d :: a) ++ "*"%char :: g3) ++ Q)
                  - length Q)
                 ((g1 ++ "*"%char :: (d :: a) ++ "*"%char :: g3) ++ Q)
               = g1 ++ "*"%char :: (d :: a) ++ "*"%char :: g3)
    by apply firstn_prefix.
  replace (g1 ++ "*"%char :: (d :: a) ++ "*"%char :: g3 ++ Q)
    with ((g1 ++ "*"%char :: (d :: a) ++ "*"%char :: g3) ++ Q)
    by (rewrite <- !app_assoc; cbn [app]; rewrite <- !app_assoc; reflexivity).
  unfold matchAt.
  assert (Hrun : run italicRegex b
                   ((g1 ++ "*"%char :: (d :: a) ++ "*"%char :: g3) ++ Q) []
                   (fun _ s' cs => Some (cs, s'))
                 = Some ([g1; d :: a; g3], Q)).
  { replace ((g1 ++ "*"%char :: (d :: a) ++ "*"%char :: g3) ++ Q)
      with (g1 ++ "*"%char :: (d :: a) ++ "*"%char :: g3 ++ Q)
      by (rewrite <- !app_assoc; cbn [app]; rewrite <- !app_assoc; reflexivity).
    unfold italicRegex.
    destruct H1 as [[-> ->] | ->].
    - cbn [app]. cbn [run]. rewrite firstn_none. cbn [app].
      change (Cat (Chr "*")
               (Cat (Grp (PlusLazy (notChr2 "*" nl)))
                  (Cat (Chr "*") (Grp (Alt (Cls spaceClass) Eol)))))
        with (Cat (Chr "*")
               (Cat (Grp (PlusLazy (notChr2 "*" nl)))
                  (Cat (Chr "*") (Grp (Alt (Cls spaceClass) Eol))))) in Hbody.
      pose proof (Hbody []) as Hb. cbn [run app] in Hb. rewrite Hb.
      reflexivity.
    - pose proof (Hbody [" "%char]) as Hb. cbn [run app] in Hb.
      destruct b; cbn [app run]; change (Ascii.eqb " " "*") with false;
        change (spaceClass " ") with true; cbv iota;
        rewrite (firstn_one " "); cbn [app]; rewrite Hb; reflexivity. }
  rewrite Hrun, Hm. reflexivity.
Qed.

(** Two asterisks with text between them hold no bold markup. *)
Lemma boldRegex_none (b : bool) (A X B : str) :
  ~ In "*"%char A -> ~ In "*"%char X -> X <> [] -> ~ In "*"%char B ->
  find boldRegex b (A ++ "*"%char :: X ++ "*"%char :: B) = None.
Proof.
  intros HA HX Hne HB. destruct X as [|d a]; [congruence|].
  assert (Hd : d <> "*"%char) by (intros ->; apply HX; left; reflexivity).
  rewrite find_pass.
  2:{ intros b' p1 c p2 E. apply chr_first_fails. intros ->. apply HA.
      rewrite E. apply in_or_app. right. left. reflexivity. }
  rewrite find_unfold.
  assert (E1 : forall b', matchAt boldRegex b'
                            ("*"%char :: (d :: a) ++ "*"%char :: B) = None).
  { intros b'. unfold matchAt, boldRegex. cbn [run app].
    rewrite Ascii.eqb_refl. apply Ascii.eqb_neq in Hd. rewrite Hd.
    reflexivity. }
  rewrite E1.
  rewrite find_pass.
  2:{ intros b' p1 c p2 E. apply chr_first_fails. intros ->. apply HX.
      rewrite E. apply in_or_app. right. left. reflexivity. }
  rewrite find_unfold.
  assert (E2 : forall b', matchAt boldRegex b' ("*"%char :: B) = None).
  { intros b'. unfold matchAt, boldRegex. cbn [run].
    rewrite Ascii.eqb_refl. destruct B as [|c B]; [reflexivity|].
    assert (Hc : c <> "*"%char) by (intros ->; apply HB; left; reflexivity).
    apply Ascii.eqb_neq in Hc. rewrite Hc. reflexivity. }
  rewrite E2.
  rewrite (find_absent boldRegex "*" B false boldRegex_holds HB).
  reflexivity.
Qed.

Lemma italicRegex_fails (b : bool) (d y : ascii) (rest : str) :
  d <> "*"%char -> y <> "*"%char ->
  matchAt italicRegex b (d :: y :: rest) = None.
Proof.
  intros Hd Hy. apply Ascii.eqb_neq in Hd, Hy.
  unfold matchAt, italicRegex. cbn [run]. rewrite Hd, Hy.
  destruct b, (spaceClass d); reflexivity.
Qed.

(** X10. Italic text in a line of plain text: the asterisks stand at the
    start of the text or after a space, and at its end or before a
    space. *)
Theorem parseInline_italic :
  forall (o : order) (pre g1 x g3 post : str),
    Lacks ["`"; "["; "*"]%char pre ->
    Lacks ["`"; "["; "*"; nl]%char x -> x <> [] ->
    Lacks ["`"; "["; "*"]%char post ->
    (g1 = [] /\ pre = [] \/ g1 = [" "%char]) ->
    (g3 = [] /\ post = [] \/ g3 = [" "%char]) ->
    parseInline o (pre ++ g1 ++ "*" ++ x ++ "*" ++ g3 ++ post)
    = html.EscapeString pre ++ g1 ++ "<em>" ++ html.EscapeString x
        ++ "</em>" ++ g3 ++ html.EscapeString post.
Proof.
  intros o pre g1 x g3 post Hpre Hx Hne Hpost H1 H3.
  unfold parseInline. rewrite !EscapeString_app.
  change (html.EscapeString "*") with ("*" : str).
  assert (Eg1 : html.EscapeString g1 = g1)
    by (destruct H1 as [[-> _] | ->]; reflexivity).
  assert (Eg3 : html.EscapeString g3 = g3)
    by (destruct H3 as [[-> _] | ->]; reflexivity).
  rewrite Eg1, Eg3.
  assert (H1' : g1 = [] /\ html.EscapeString pre = [] \/ g1 = [" "%char])
    by (destruct H1 as [[-> ->] | ->]; auto).
  assert (H3' : g3 = [] /\ html.EscapeString post = [] \/ g3 = [" "%char])
    by (destruct H3 as [[-> ->] | ->]; auto).
  clear H1 H3 Eg1 Eg3.
  esc_lacks Hpre. esc_lacks Hx. esc_lacks Hpost.
  apply EscapeString_not_nil in Hne.
  set (P := html.EscapeString pre) in *. set (X := html.EscapeString x) in *.
  set (Q := html.EscapeString post) in *. clearbody P X Q.
  assert (Hp1 : ~ In "`"%char P) by (apply Hpre; cbn; auto).
  assert (Hp2 : ~ In "["%char P) by (apply Hpre; cbn; auto).
  assert (Hp3 : ~ In "*"%char P) by (apply Hpre; cbn; auto).
  assert (Hx1 : ~ In "`"%char X) by (apply Hx; cbn; auto).
  assert (Hx2 : ~ In "["%char X) by (apply Hx; cbn; auto).
  assert (Hx3 : ~ In "*"%char X) by (apply Hx; cbn; auto).
  assert (Hx4 : ~ In nl X) by (apply Hx; cbn; auto).
  assert (Hq1 : ~ In "`"%char Q) by (apply Hpost; cbn; auto).
  assert (Hq2 : ~ In "["%char Q) by (apply Hpost; cbn; auto).
  assert (Hq3 : ~ In "*"%char Q) by (apply Hpost; cbn; auto).
  assert (Hg1 : forall c, In c g1 -> c = " "%char)
    by (destruct H1' as [[-> _] | ->]; cbn; intuition).
  assert (Hg3 : forall c, In c g3 -> c = " "%char)
    by (destruct H3' as [[-> _] | ->]; cbn; intuition).
  assert (Hg1n : forall c, c <> " "%char -> ~ In c g1)
    by (intros c Hc Hin; apply Hc, Hg1, Hin).
  assert (Hg3n : forall c, c <> " "%char -> ~ In c g3)
    by (intros c Hc Hin; apply Hc, Hg3, Hin).
  pose proof (Hg1n "`"%char ltac:(discriminate)).
  pose proof (Hg1n "["%char ltac:(discriminate)).
  pose proof (Hg1n "*"%char ltac:(discriminate)).
  pose proof (Hg3n "`"%char ltac:(discriminate)).
  pose proof (Hg3n "["%char ltac:(discriminate)).
  pose proof (Hg3n "*"%char ltac:(discriminate)).
  clear Hg1 Hg3 Hg1n Hg3n.
  rewrite parseInline_unmarked by notin.
  unfold markupPasses.
  rewrite (ReplaceAllStringFunc_none imageRegex)
    by (apply (find_absent imageRegex "["); [exact imageRegex_holds | notin]).
  rewrite (ReplaceAllStringFunc_none linkRegex)
    by (apply (find_absent linkRegex "["); [exact linkRegex_holds | notin]).
  change (P ++ g1 ++ "*" ++ X ++ "*" ++ g3 ++ Q)
    with (P ++ g1 ++ "*"%char :: X ++ "*"%char :: g3 ++ Q).
  rewrite (ReplaceAllString_none boldRegex).
  2:{ rewrite app_assoc. apply boldRegex_none; try assumption; notin. }
  unfold ReplaceAllString.
  rewrite (findAll_one italicRegex _ P
             (g1 ++ "*"%char :: X ++ "*"%char :: g3) Q [g1; X; g3]).
  - cbn [flat_map expand italicTemplate nth app].
    repeat (progress (cbn [app]; rewrite <- ?app_assoc)). reflexivity.
  - destruct P; [|discriminate]. destruct g1; discriminate.
  - destruct H1' as [[-> ->] | ->].
    + cbn [app]. apply find_here.
      apply (italicRegex_complete true [] X g3 Q); auto.
    + rewrite find_pass.
      * rewrite (find_here italicRegex _ _ _ _ _
                   (italicRegex_complete _ [" "%char] X g3 Q Hne Hx3 Hx4
                      (or_intror eq_refl) H3')).
        rewrite app_nil_r. reflexivity.
      * intros b p1 d p2 E.
        assert (Hd : ~ In "*"%char (d :: p2)).
        { intros Hin. apply Hp3. rewrite E. apply in_or_app. right. exact Hin. }
        destruct p2 as [|y p2]; cbn [app]; apply italicRegex_fails;
          try discriminate; intros ->; apply Hd; cbn; auto.
  - apply (find_absent italicRegex "*"); [exact italicRegex_holds | assumption].
Qed.

(** The statement at italic text at the end of a line. *)
Lemma parseInline_italic_witness :
  parseInline [] ("this is" ++ [" "%char] ++ "*" ++ "not bold" ++ "*" ++ []
                    ++ [])
  = html.EscapeString "this is" ++ [" "%char] ++ "<em>"
      ++ html.EscapeString "not bold" ++ "</em>" ++ [] ++ html.EscapeString [].
Proof.
  apply parseInline_italic; try lacks; try discriminate; auto.
Defined.

End InlineItalic.

(** ** [parseInline]: where asterisks stay asterisks *)

Section ItalicBoundaries.
Import strings stringsFacts regexp regexpSpec regexpFacts.

Lemma stars_app (a b : str) : stars (a ++ b) = stars a + stars b.
Proof. apply count_occ_app. Qed.

Lemma stars_none (s : str) : ~ In "*"%char s <-> stars s = 0.
Proof. apply count_occ_not_In. Qed.

Lemma stars_cons (s : str) : stars ("*"%char :: s) = S (stars s).
Proof. unfold stars. apply count_occ_cons_eq. reflexivity. Qed.

(** Italic markup takes two asterisks. *)
Lemma italicRegex_one_star (b : bool) (s : str) :
  stars s <= 1 -> find italicRegex b s = None.
Proof.
  intros H.
  destruct (find italicRegex b s) as [[[[pre m] cs] rest]|] eqn:E;
    [|reflexivity].
  exfalso. destruct (find_sound italicRegex _ _ _ _ _ _ E) as [Hd [b' Hm]].
  apply italicRegex_shape in Hm. destruct Hm as (g1 & x & g3 & -> & _ & _).
  rewrite Hd in H. rewrite !stars_app, stars_cons, !stars_app, stars_cons in H.
  lia.
Qed.

Lemma italicRegex_not_here (d : ascii) (rest : str) :
  matchAt italicRegex false (d :: rest) = None
  \/ spaceClass d = true.
Proof.
  destruct (spaceClass d) eqn:E; [right; reflexivity|]. left.
  unfold matchAt, italicRegex. cbn [run]. rewrite E. reflexivity.
Qed.

Lemma italicRegex_nonspace (b : bool) (d : ascii) (rest : str) :
  spaceClass d = false -> d <> "*"%char ->
  matchAt italicRegex b (d :: rest) = None.
Proof.
  intros Hs Hd. apply Ascii.eqb_neq in Hd.
  unfold matchAt, italicRegex. cbn [run]. rewrite Hs, Hd.
  destruct b; reflexivity.
Qed.

Lemma italicRegex_star (rest : str) :
  matchAt italicRegex false ("*"%char :: rest) = None.
Proof. reflexivity. Qed.

(** The lazy repetition of the italic body gives up at an asterisk
    after which the expression cannot go on. *)
Lemma starLazy_fails (p : ascii -> bool) (k : str -> option result)
    (a rest : str) :
  (forall d x, p d = true -> k (d :: x) = None) ->
  forallb p a = true ->
  k rest = None ->
  match rest with [] => True | c :: _ => p c = false end ->
  starLazy p k (a ++ rest) = None.
Proof.
  intros Hk Ha Hr Hc. induction a as [|d a IH]; cbn [app].
  - rewrite starLazy_unfold, Hr. destruct rest as [|c rest]; [reflexivity|].
    rewrite Hc. reflexivity.
  - cbn [forallb] in Ha. apply andb_true_iff in Ha. destruct Ha as [Hd Ha].
    rewrite starLazy_unfold, (Hk d _ Hd), Hd. exact (IH Ha).
Qed.

(** Where the closing asterisk is followed by a byte that is not
    white space, no match starts at the opening one. *)
Lemma italicRegex_open_end (b : bool) (g1 x : str) (q : ascii) (Q : str) :
  ~ In "*"%char x -> ~ In nl x ->
  spaceClass q = false ->
  (g1 = [] \/ exists c, g1 = [c] /\ c <> "*"%char) ->
  matchAt italicRegex b (g1 ++ "*"%char :: x ++ "*"%char :: q :: Q) = None.
Proof.
  intros Hx Hn Hq Hg.
  unfold matchAt, italicRegex.
  set (body := Cat (Chr "*")
                 (Cat (Grp (PlusLazy (notChr2 "*" nl)))
                    (Cat (Chr "*") (Grp (Alt (Cls spaceClass) Eol))))).
  assert (Hbody : forall b' cs,
             run body b' ("*"%char :: x ++ "*"%char :: q :: Q) cs
               (fun _ s' cs' => Some (cs', s'))
             = None).
  { intros b' cs. subst body. cbn [run]. rewrite Ascii.eqb_refl.
    destruct x as [|d a]; cbn [app]; [reflexivity|].
    assert (Hda : forallb (notChr2 "*" nl) (d :: a) = true)
      by (apply notChr2_forallb; auto).
    cbn [forallb] in Hda. apply andb_true_iff in Hda.
    destruct Hda as [Hd Ha]. rewrite Hd.
    apply starLazy_fails; [| exact Ha | | reflexivity].
    - intros d' x' Hd'. unfold notChr2 in Hd'.
      apply andb_true_iff in Hd'. destruct Hd' as [Hd' _].
      apply negb_true_iff in Hd'. rewrite Hd'. reflexivity.
    - rewrite Ascii.eqb_refl, Hq. reflexivity. }
  assert (Hother : forall b' c rest cs,
             c <> "*"%char ->
             run body b' (c :: rest) cs (fun _ s' cs' => Some (cs', s'))
             = None).
  { intros b' c rest cs Hc. subst body. cbn [run].
    apply Ascii.eqb_neq in Hc. rewrite Hc. reflexivity. }
  clearbody body. cbn [run].
  destruct Hg as [-> | (c & -> & Hc)]; cbn [app].
  - destruct b; [rewrite Hbody|]; reflexivity.
  - destruct b; [rewrite (Hother _ c) by exact Hc|];
      (destruct (spaceClass c); [rewrite Hbody|]; reflexivity).
Qed.

Lemma noPair_found (a b : str) :
  noPair (a ++ "*"%char :: "*"%char :: b) = false.
Proof.
  induction a as [|c a IH].
  - reflexivity.
  - cbn [app]. cbn [app] in IH.
    destruct a as [|d a]; cbn [app noPair] in *.
    + rewrite andb_false_r. reflexivity.
    + cbn [noPair] in IH. rewrite IH. apply andb_false_r.
Qed.

Lemma boldRegex_no_pair (b : bool) (s : str) :
  noPair s = true -> find boldRegex b s = None.
Proof.
  intros H.
  destruct (find boldRegex b s) as [[[[pre m] cs] rest]|] eqn:E;
    [|reflexivity].
  exfalso. destruct (find_sound boldRegex _ _ _ _ _ _ E) as [Hd [b' Hm]].
  apply boldRegex_shape in Hm. destruct Hm as (x & -> & _ & _).
  rewrite Hd in H. cbn [app] in H. rewrite noPair_found in H. discriminate.
Qed.

Lemma noPair_skip (X s : str) :
  ~ In "*"%char X -> s <> [] -> noPair (X ++ s) = noPair s.
Proof.
  intros HX Hs. induction X as [|c X IH]; [reflexivity|].
  assert (Hc : c <> "*"%char) by (intros ->; apply HX; left; reflexivity).
  assert (HX' : ~ In "*"%char X) by (intros H; apply HX; right; exact H).
  cbn [app]. specialize (IH HX').
  assert (E : exists d r, X ++ s = d :: r).
  { destruct X as [|d X]; [destruct s as [|d s]; [congruence|]|];
      eexists; eexists; reflexivity. }
  destruct E as (d & r & E). rewrite E in *. cbn [noPair].
  apply Ascii.eqb_neq in Hc. rewrite Hc. cbn [andb negb].
  exact IH.
Qed.

Lemma noPair_star (d : ascii) (s : str) :
  d <> "*"%char -> noPair ("*"%char :: d :: s) = noPair (d :: s).
Proof.
  intros Hd. apply Ascii.eqb_neq in Hd.
  change (noPair ("*"%char :: d :: s))
    with (negb (Ascii.eqb "*" "*" && Ascii.eqb d "*") && noPair (d :: s)).
  rewrite Hd, andb_false_r. reflexivity.
Qed.

Lemma noPair_free (s : str) : ~ In "*"%char s -> noPair s = true.
Proof.
  induction s as [|c s IH]; [reflexivity|]. intros H.
  assert (Hc : c <> "*"%char) by (intros ->; apply H; left; reflexivity).
  apply Ascii.eqb_neq in Hc.
  destruct s as [|d s]; [reflexivity|].
  change (noPair (c :: d :: s))
    with (negb (Ascii.eqb c "*" && Ascii.eqb d "*") && noPair (d :: s)).
  rewrite Hc. cbn [andb negb]. apply IH. intros Hin. apply H. right. exact Hin.
Qed.

(** Asterisks with text between each two of them hold no bold
    markup. *)
Lemma noPair_spread (A X B : str) :
  ~ In "*"%char A -> ~ In "*"%char X -> X <> [] ->
  noPair B = true -> (B = [] \/ exists d r, B = d :: r /\ d <> "*"%char) ->
  noPair (A ++ "*"%char :: X ++ "*"%char :: B) = true.
Proof.
  intros HA HX Hne HB Hd.
  rewrite noPair_skip by (try assumption; discriminate).
  destruct X as [|x X]; [congruence|].
  assert (Hx : x <> "*"%char) by (intros ->; apply HX; left; reflexivity).
  cbn [app]. rewrite noPair_star by exact Hx.
  change (x :: X ++ "*"%char :: B) with ((x :: X) ++ "*"%char :: B).
  rewrite noPair_skip by (try assumption; discriminate).
  destruct Hd as [-> | (d & r & -> & Hd)]; [reflexivity|].
  rewrite noPair_star by exact Hd. exact HB.
Qed.

Lemma escapeByte_ends (c : ascii) :
  spaceClass c = false -> c <> "*"%char ->
  (exists p l, html.escapeByte c = p ++ [l]
               /\ spaceClass l = false /\ l <> "*"%char)
  /\ (exists q r, html.escapeByte c = q :: r
                  /\ spaceClass q = false /\ q <> "*"%char).
Proof.
  intros Hs Hc. unfold html.escapeByte.
  destruct (Ascii.eqb c "&").
  { split; [exists ("&amp" : str), ";"%char | exists "&"%char, ("amp;" : str)];
      repeat split; discriminate. }
  destruct (Ascii.eqb c "'").
  { split; [exists ("&#39" : str), ";"%char | exists "&"%char, ("#39;" : str)];
      repeat split; discriminate. }
  destruct (Ascii.eqb c "<").
  { split; [exists ("&lt" : str), ";"%char | exists "&"%char, ("lt;" : str)];
      repeat split; discriminate. }
  destruct (Ascii.eqb c ">").
  { split; [exists ("&gt" : str), ";"%char | exists "&"%char, ("gt;" : str)];
      repeat split; discriminate. }
  destruct (Ascii.eqb c dquote).
  { split; [exists ("&#34" : str), ";"%char | exists "&"%char, ("#34;" : str)];
      repeat split; discriminate. }
  split.
  - exists [], c. auto.
  - exists c, []. auto.
Qed.

Lemma find_two_stars_none (P X Q : str) :
  P <> [] ->
  ~ In "*"%char P -> ~ In "*"%char X -> ~ In "*"%char Q ->
  (exists R l, P = R ++ [l] /\ spaceClass l = false) ->
  find italicRegex true (P ++ "*"%char :: X ++ "*"%char :: Q) = None.
Proof.
  intros Hne HP HX HQ (R & l & EP & Hl).
  rewrite find_pass.
  - replace (true && isEmpty P) with false
      by (destruct P; [congruence | reflexivity]).
    rewrite find_unfold, italicRegex_star.
    rewrite italicRegex_one_star; [reflexivity|].
    rewrite stars_app, stars_cons.
    apply stars_none in HX, HQ. lia.
  - intros b p1 d p2 E.
    assert (Hd : d <> "*"%char).
    { intros ->. apply HP. rewrite E. apply in_or_app. right. left.
      reflexivity. }
    destruct p2 as [|y p2]; cbn [app].
    + rewrite EP in E. apply app_inj_tail in E. destruct E as [_ <-].
      apply italicRegex_nonspace; assumption.
    + apply italicRegex_fails; [exact Hd|].
      intros ->. apply HP. rewrite E. apply in_or_app. right. right. left.
      reflexivity.
Qed.

Lemma find_open_end_none (P X : str) (q : ascii) (Q : str) :
  ~ In "*"%char P -> ~ In "*"%char X -> ~ In nl X -> ~ In "*"%char (q :: Q) ->
  spaceClass q = false ->
  find italicRegex true (P ++ "*"%char :: X ++ "*"%char :: q :: Q) = None.
Proof.
  intros HP HX Hn HQ Hq.
  rewrite find_pass.
  - rewrite find_unfold.
    rewrite (italicRegex_open_end _ [] X q Q HX Hn Hq (or_introl eq_refl)).
    rewrite italicRegex_one_star; [reflexivity|].
    rewrite stars_app, stars_cons.
    apply stars_none in HX, HQ. lia.
  - intros b p1 d p2 E.
    assert (Hd : d <> "*"%char).
    { intros ->. apply HP. rewrite E. apply in_or_app. right. left.
      reflexivity. }
    destruct p2 as [|y p2]; cbn [app].
    + apply (italicRegex_open_end b [d] X q Q HX Hn Hq).
      right. exists d. auto.
    + apply italicRegex_fails; [exact Hd|].
      intros ->. apply HP. rewrite E. apply in_or_app. right. right. left.
      reflexivity.
Qed.

Lemma unchanged (o : order) (e : str) :
  ~ In "`"%char e -> ~ In "["%char e -> noPair e = true ->
  find italicRegex true e = None ->
  (let (codePlaceholders, text) := protectCode e in
   restoreCode (rangeMap o codePlaceholders) (markupPasses text))
  = e.
Proof.
  intros H1 H2 H3 H4. rewrite parseInline_unmarked by exact H1.
  unfold markupPasses.
  rewrite (ReplaceAllStringFunc_none imageRegex)
    by (apply (find_absent imageRegex "[");
        [exact imageRegex_holds | exact H2]).
  rewrite (ReplaceAllStringFunc_none linkRegex)
    by (apply (find_absent linkRegex "["); [exact linkRegex_holds | exact H2]).
  rewrite (ReplaceAllString_none boldRegex)
    by (apply boldRegex_no_pair; exact H3).
  apply ReplaceAllString_none. exact H4.
Qed.

(** X11. Asterisks make italic text only at the edge of the text or next
    to white space: after a byte that is not white space the opening
    asterisk is plain text, and so is the closing one before such a
    byte.  And the white space after a closing asterisk belongs to the
    match, so of two italic words with one space between them the
    second is left as it is. *)
Theorem parseInline_italic_needs_space :
  (forall (o : order) (pre x post : str) (c : ascii),
      Lacks ["`"; "["; "*"]%char pre ->
      Lacks ["`"; "["; "*"]%char [c] -> regexp.spaceClass c = false ->
      Lacks ["`"; "["; "*"]%char x -> x <> [] ->
      Lacks ["`"; "["; "*"]%char post ->
      parseInline o (pre ++ [c] ++ "*" ++ x ++ "*" ++ post)
      = html.EscapeString (pre ++ [c] ++ "*" ++ x ++ "*" ++ post))
  /\ (forall (o : order) (pre x post : str) (c : ascii),
         Lacks ["`"; "["; "*"]%char pre ->
         Lacks ["`"; "["; "*"; nl]%char x -> x <> [] ->
         Lacks ["`"; "["; "*"]%char [c] -> regexp.spaceClass c = false ->
         Lacks ["`"; "["; "*"]%char post ->
         parseInline o (pre ++ "*" ++ x ++ "*" ++ [c] ++ post)
         = html.EscapeString (pre ++ "*" ++ x ++ "*" ++ [c] ++ post))
  /\ (forall (o : order) (x y : str),
         Lacks ["`"; "["; "*"; nl]%char x -> x <> [] ->
         Lacks ["`"; "["; "*"]%char y -> y <> [] ->
         parseInline o ("*" ++ x ++ "* *" ++ y ++ "*")
         = "<em>" ++ html.EscapeString x ++ "</em> *"
             ++ html.EscapeString y ++ "*").
Proof.
  split; [|split].
  - intros o pre x post c Hpre Hc Hsp Hx Hne Hpost.
    unfold parseInline. rewrite !EscapeString_app.
    change (html.EscapeString "*") with ("*" : str).
    change (html.EscapeString [c]) with (html.escapeByte c ++ []).
    rewrite app_nil_r.
    assert (Hcs : c <> "*"%char).
    { intros ->. apply (Hc "*"%char); cbn; auto. }
    destruct (escapeByte_ends c Hsp Hcs) as [(p & l & Ec & Hl & Hls) _].
    assert (Hce : Lacks ["`"; "["; "*"]%char (html.escapeByte c)).
    { esc_lacks Hc. change (html.EscapeString [c])
        with (html.escapeByte c ++ []) in Hc.
      rewrite app_nil_r in Hc. exact Hc. }
    esc_lacks Hpre. esc_lacks Hx. esc_lacks Hpost.
    apply EscapeString_not_nil in Hne.
    set (P := html.EscapeString pre) in *.
    set (X := html.EscapeString x) in *.
    set (Q := html.EscapeString post) in *.
    set (C := html.escapeByte c) in *. clearbody P X Q C.
    pose proof (Lacks_app _ _ _ Hpre Hce) as HPC.
    assert (E : P ++ C ++ "*" ++ X ++ "*" ++ Q
                = (P ++ C) ++ "*"%char :: X ++ "*"%char :: Q)
      by (rewrite <- app_assoc; reflexivity).
    rewrite E.
    assert (H1 : ~ In "*"%char (P ++ C)) by (apply HPC; cbn; auto).
    assert (H2 : ~ In "*"%char X) by (apply Hx; cbn; auto).
    assert (H3 : ~ In "*"%char Q) by (apply Hpost; cbn; auto).
    assert (H4 : ~ In "`"%char (P ++ C)) by (apply HPC; cbn; auto).
    assert (H5 : ~ In "["%char (P ++ C)) by (apply HPC; cbn; auto).
    assert (H6 : ~ In "`"%char X) by (apply Hx; cbn; auto).
    assert (H7 : ~ In "["%char X) by (apply Hx; cbn; auto).
    assert (H8 : ~ In "`"%char Q) by (apply Hpost; cbn; auto).
    assert (H9 : ~ In "["%char Q) by (apply Hpost; cbn; auto).
    set (PC := P ++ C) in *.
    assert (HPCe : exists R l', PC = R ++ [l'] /\ spaceClass l' = false).
    { exists (P ++ p), l. subst PC. rewrite Ec, app_assoc. auto. }
    assert (HPCn : PC <> []).
    { destruct HPCe as (R & l' & -> & _). destruct R; discriminate. }
    clearbody PC.
    apply unchanged.
    + notin.
    + notin.
    + apply noPair_spread; try assumption.
      * apply noPair_free; assumption.
      * destruct Q as [|d r]; [left; reflexivity|]. right. exists d, r.
        split; [reflexivity|]. intros ->. apply H3. left; reflexivity.
    + apply find_two_stars_none; assumption.
  - intros o pre x post c Hpre Hx Hne Hc Hsp Hpost.
    unfold parseInline. rewrite !EscapeString_app.
    change (html.EscapeString "*") with ("*" : str).
    change (html.EscapeString [c]) with (html.escapeByte c ++ []).
    rewrite app_nil_r.
    assert (Hcs : c <> "*"%char).
    { intros ->. apply (Hc "*"%char); cbn; auto. }
    destruct (escapeByte_ends c Hsp Hcs) as [_ (q & r & Ec & Hq & Hqs)].
    assert (Hce : Lacks ["`"; "["; "*"]%char (html.escapeByte c)).
    { esc_lacks Hc. change (html.EscapeString [c])
        with (html.escapeByte c ++ []) in Hc.
      rewrite app_nil_r in Hc. exact Hc. }
    esc_lacks Hpre. esc_lacks Hx. esc_lacks Hpost.
    apply EscapeString_not_nil in Hne.
    set (P := html.EscapeString pre) in *.
    set (X := html.EscapeString x) in *.
    set (Q := html.EscapeString post) in *.
    rewrite Ec in *. clearbody P X Q.
    pose proof (Lacks_app _ _ _ Hce Hpost) as HCQ.
    assert (E : P ++ "*" ++ X ++ "*" ++ (q :: r) ++ Q
                = P ++ "*"%char :: X ++ "*"%char :: q :: (r ++ Q))
      by reflexivity.
    rewrite E. change ((q :: r) ++ Q) with (q :: r ++ Q) in HCQ.
    assert (H1 : ~ In "*"%char P) by (apply Hpre; cbn; auto).
    assert (H2 : ~ In "*"%char X) by (apply Hx; cbn; auto).
    assert (H3 : ~ In "*"%char (q :: r ++ Q)) by (apply HCQ; cbn; auto).
    assert (H4 : ~ In "`"%char P) by (apply Hpre; cbn; auto).
    assert (H5 : ~ In "["%char P) by (apply Hpre; cbn; auto).
    assert (H6 : ~ In "`"%char X) by (apply Hx; cbn; auto).
    assert (H7 : ~ In "["%char X) by (apply Hx; cbn; auto).
    assert (H8 : ~ In "`"%char (q :: r ++ Q)) by (apply HCQ; cbn; auto).
    assert (H9 : ~ In "["%char (q :: r ++ Q)) by (apply HCQ; cbn; auto).
    assert (H10 : ~ In nl X) by (apply Hx; cbn; auto).
    set (QQ := r ++ Q) in *. clearbody QQ.
    apply unchanged.
    + cbn [In] in H8. notin.
    + cbn [In] in H9. notin.
    + apply noPair_spread; try assumption.
      * apply noPair_free; assumption.
      * right. exists q, QQ. auto.
    + apply find_open_end_none; assumption.
  - intros o x y Hx Hxne Hy Hyne.
    unfold parseInline. rewrite !EscapeString_app.
    change (html.EscapeString "*") with ("*" : str).
    change (html.EscapeString "* *") with ("* *" : str).
    esc_lacks Hx. esc_lacks Hy.
    apply EscapeString_not_nil in Hxne, Hyne.
    set (X := html.EscapeString x) in *.
    set (Y := html.EscapeString y) in *. clearbody X Y.
    assert (H2 : ~ In "*"%char X) by (apply Hx; cbn; auto).
    assert (H3 : ~ In "*"%char Y) by (apply Hy; cbn; auto).
    assert (H6 : ~ In "`"%char X) by (apply Hx; cbn; auto).
    assert (H7 : ~ In "["%char X) by (apply Hx; cbn; auto).
    assert (H8 : ~ In "`"%char Y) by (apply Hy; cbn; auto).
    assert (H9 : ~ In "["%char Y) by (apply Hy; cbn; auto).
    assert (H10 : ~ In nl X) by (apply Hx; cbn; auto).
    change ("*" ++ X ++ "* *" ++ Y ++ "*")
      with ("*"%char :: X ++ "*"%char :: " "%char :: "*"%char :: Y
              ++ ["*"%char]).
    rewrite parseInline_unmarked by notin.
    unfold markupPasses.
    rewrite (ReplaceAllStringFunc_none imageRegex)
      by (apply (find_absent imageRegex "["); [exact imageRegex_holds | notin]).
    rewrite (ReplaceAllStringFunc_none linkRegex)
      by (apply (find_absent linkRegex "["); [exact linkRegex_holds | notin]).
    rewrite (ReplaceAllString_none boldRegex).
    2:{ apply boldRegex_no_pair.
        apply (noPair_spread [] X (" "%char :: "*"%char :: Y ++ ["*"%char]));
          try assumption.
        - intros [].
        - apply (noPair_spread [" "%char] Y []); try assumption;
            try reflexivity.
          + cbn. intuition discriminate.
          + left; reflexivity.
        - right. eexists; eexists. split; [reflexivity | discriminate]. }
    unfold ReplaceAllString.
    rewrite (findAll_one italicRegex _ []
               ("*"%char :: X ++ "*"%char :: [" "%char])
               ("*"%char :: Y ++ ["*"%char]) [[]; X; [" "%char]]).
    + cbn [flat_map expand italicTemplate nth app].
      repeat (progress (cbn [app]; rewrite <- ?app_assoc)). reflexivity.
    + discriminate.
    + apply find_here.
      apply (italicRegex_complete true [] X [" "%char]
               ("*"%char :: Y ++ ["*"%char])); auto.
    + rewrite find_unfold, italicRegex_star.
      rewrite italicRegex_one_star; [reflexivity|].
      rewrite stars_app. apply stars_none in H3. rewrite H3. reflexivity.
Qed.

(** The statement at asterisks inside a word. *)
Lemma parseInline_italic_needs_space_witness :
  parseInline [] ("snake" ++ ["_"%char] ++ "*" ++ "case" ++ "*" ++ " names")
  = html.EscapeString
      ("snake" ++ ["_"%char] ++ "*" ++ "case" ++ "*" ++ " names").
Proof.
  apply (proj1 parseInline_italic_needs_space); try lacks;
    try reflexivity; try discriminate.
Defined.

End ItalicBoundaries.

(** ** [parseInline]: one pass after the other *)

Section InlineNesting.
Import strings stringsFacts regexp regexpSpec regexpFacts.

Lemma normalizeAssetPath_rooted (r : str) :
  normalizeAssetPath ("/"%char :: r) = "/"%char :: r.
Proof.
  unfold normalizeAssetPath.
  replace (HasPrefix (ToLower ("/"%char :: r)) "/") with true
    by reflexivity.
  rewrite !orb_true_r. reflexivity.
Qed.

(** X12. An image as the label of a link: the image pass runs first, and
    the link pass takes the [img] element for its label. *)
Theorem parseInline_linked_image :
  forall (o : order) (alt src url : str),
    Lacks ["`"; "["; "]"; "*"]%char alt ->
    Lacks ["`"; "["; "]"; ")"; "*"]%char src -> src <> [] ->
    Lacks ["`"; "["; ")"; "*"]%char url -> url <> [] ->
    parseInline o ("[![" ++ alt ++ "](" ++ src ++ ")](" ++ url ++ ")")
    = "<a href=" ++ dquote :: normalizeAssetPath (html.EscapeString url)
        ++ dquote :: ">"
        ++ ("<img src=" ++ dquote
              :: normalizeAssetPath (html.EscapeString src)
              ++ dquote :: " alt=" ++ dquote :: html.EscapeString alt
              ++ dquote :: "/>")
        ++ "</a>".
Proof.
  intros o alt src url Ha Hs Hsne Hu Hune.
  unfold parseInline. rewrite !EscapeString_app.
  change (html.EscapeString "[![") with ("[![" : str).
  change (html.EscapeString "](") with ("](" : str).
  change (html.EscapeString ")](") with (")](" : str).
  change (html.EscapeString ")") with (")" : str).
  esc_lacks Ha. esc_lacks Hs. esc_lacks Hu.
  apply EscapeString_not_nil in Hsne, Hune.
  set (A := html.EscapeString alt) in *.
  set (S := html.EscapeString src) in *.
  set (U := html.EscapeString url) in *. clearbody A S U.
  assert (Ha1 : ~ In "`"%char A) by (apply Ha; cbn; auto).
  assert (Ha2 : ~ In "["%char A) by (apply Ha; cbn; auto).
  assert (Ha3 : ~ In "]"%char A) by (apply Ha; cbn; auto).
  assert (Ha4 : ~ In "*"%char A) by (apply Ha; cbn; auto).
  assert (Hs1 : ~ In "`"%char S) by (apply Hs; cbn; auto).
  assert (Hs2 : ~ In "["%char S) by (apply Hs; cbn; auto).
  assert (Hs3 : ~ In "]"%char S) by (apply Hs; cbn; auto).
  assert (Hs4 : ~ In ")"%char S) by (apply Hs; cbn; auto 10).
  assert (Hs5 : ~ In "*"%char S) by (apply Hs; cbn; auto 10).
  assert (Hu1 : ~ In "`"%char U) by (apply Hu; cbn; auto).
  assert (Hu2 : ~ In "["%char U) by (apply Hu; cbn; auto).
  assert (Hu3 : ~ In ")"%char U) by (apply Hu; cbn; auto).
  assert (Hu4 : ~ In "*"%char U) by (apply Hu; cbn; auto).
  assert (Hn : forall c, ~ In c S -> ~ In c ("/assets/" : str) ->
                         ~ In c (normalizeAssetPath S)).
  { intros c H1 H2 H. apply normalizeAssetPath_bytes in H. tauto. }
  assert (Hn1 : ~ In "["%char (normalizeAssetPath S))
    by (apply Hn; [assumption | cbn; intuition discriminate]).
  assert (Hn2 : ~ In "]"%char (normalizeAssetPath S))
    by (apply Hn; [assumption | cbn; intuition discriminate]).
  assert (Hn3 : ~ In "*"%char (normalizeAssetPath S))
    by (apply Hn; [assumption | cbn; intuition discriminate]).
  assert (Hm : ~ In "*"%char (normalizeAssetPath U)).
  { intros H. apply normalizeAssetPath_bytes in H. destruct H as [H|H];
      [contradiction | cbn in H; intuition discriminate]. }
  rewrite parseInline_unmarked by notin.
  unfold markupPasses.
  change ("[![" ++ A ++ "](" ++ S ++ ")](" ++ U ++ ")")
    with (["["%char]
            ++ "!"%char :: "["%char :: A ++ "]"%char :: "("%char :: S
            ++ ")"%char :: "]"%char :: "("%char :: U ++ [")"%char]).
  assert (E : ReplaceAllStringFunc imageRegex
                (["["%char]
                   ++ "!"%char :: "["%char :: A ++ "]"%char :: "("%char :: S
                   ++ ")"%char :: "]"%char :: "("%char :: U ++ [")"%char])
                imageRepl
              = "["%char
                  :: ("<img src=" ++ dquote :: normalizeAssetPath S
                        ++ dquote :: " alt=" ++ dquote :: A ++ dquote :: "/>")
                  ++ "]"%char :: "("%char :: U ++ [")"%char]).
  { unfold ReplaceAllStringFunc.
    rewrite (findAll_one imageRegex _ ["["%char]
               ("!"%char :: "["%char :: A ++ "]"%char :: "("%char :: S
                  ++ [")"%char])
               ("]"%char :: "("%char :: U ++ [")"%char]) [A; S]).
    - cbn [flat_map]. rewrite imageRepl_image by assumption.
      repeat (progress (cbn [app]; rewrite <- ?app_assoc)). reflexivity.
    - discriminate.
    - apply find_skip.
      + intros b d x0 Hd. apply chr_first_fails.
        destruct Hd as [<-|[]]. discriminate.
      + intros b. apply imageRegex_complete; assumption.
    - apply (find_absent imageRegex "["); [exact imageRegex_holds | notin]. }
  rewrite E. clear E.
  set (N := normalizeAssetPath S) in *. clearbody N.
  set (IMG := "<img src=" ++ dquote :: N ++ dquote :: " alt=" ++ dquote
                :: A ++ dquote :: "/>").
  assert (Hi1 : ~ In "]"%char IMG) by (subst IMG; notin).
  assert (Hi2 : ~ In "*"%char IMG) by (subst IMG; notin).
  assert (Hi3 : IMG <> []) by (subst IMG; discriminate).
  clearbody IMG.
  assert (E : ReplaceAllStringFunc linkRegex
                ("["%char :: IMG ++ "]"%char :: "("%char :: U ++ [")"%char])
                linkRepl
              = "<a href=" ++ dquote :: normalizeAssetPath U ++ dquote :: ">"
                  ++ IMG ++ "</a>").
  { unfold ReplaceAllStringFunc.
    rewrite (findAll_one linkRegex _ []
               ("["%char :: IMG ++ "]"%char :: "("%char :: U ++ [")"%char])
               [] [IMG; U]).
    - cbn [flat_map]. rewrite linkRepl_link by assumption.
      rewrite !app_nil_r. reflexivity.
    - discriminate.
    - apply find_here. apply linkRegex_complete; assumption.
    - reflexivity. }
  rewrite E. clear E.
  set (M := normalizeAssetPath U) in *. clearbody M.
  rewrite (ReplaceAllString_none boldRegex)
    by (apply (find_absent boldRegex "*"); [exact boldRegex_holds | notin]).
  apply ReplaceAllString_none.
  apply (find_absent italicRegex "*"); [exact italicRegex_holds | notin].
Qed.

(** The statement at a logo that links to a page. *)
Lemma parseInline_linked_image_witness :
  parseInline [] ("[![" ++ "logo" ++ "](" ++ "logo.png" ++ ")]("
                    ++ "https://example.org/?a=1&b=2" ++ ")")
  = "<a href=" ++ dquote
      :: normalizeAssetPath (html.EscapeString "https://example.org/?a=1&b=2")
      ++ dquote :: ">"
      ++ ("<img src=" ++ dquote
            :: normalizeAssetPath (html.EscapeString "logo.png")
            ++ dquote :: " alt=" ++ dquote :: html.EscapeString "logo"
            ++ dquote :: "/>")
      ++ "</a>".
Proof.
  apply parseInline_linked_image; try lacks; discriminate.
Defined.

(** X13. The bold pass runs over what the link pass wrote, the value of
    [href] included: bold markup in the target of a link ends up as a
    [strong] element inside the attribute. *)
Theorem parseInline_bold_in_target :
  forall (o : order) (label u1 u2 u3 : str),
    Lacks ["`"; "["; "]"; "*"]%char label -> label <> [] ->
    Lacks ["`"; "["; ")"; "*"]%char u1 ->
    Lacks ["`"; "["; ")"; "*"]%char u2 -> u2 <> [] ->
    Lacks ["`"; "["; ")"; "*"]%char u3 ->
    parseInline o
      ("[" ++ label ++ "](/" ++ u1 ++ "**" ++ u2 ++ "**" ++ u3 ++ ")")
    = "<a href=" ++ dquote :: "/" ++ html.EscapeString u1
        ++ "<strong>" ++ html.EscapeString u2 ++ "</strong>"
        ++ html.EscapeString u3
        ++ dquote :: ">" ++ html.EscapeString label ++ "</a>".
Proof.
  intros o label u1 u2 u3 Hl Hlne H1 H2 H2ne H3.
  unfold parseInline. rewrite !EscapeString_app.
  change (html.EscapeString "[") with ("[" : str).
  change (html.EscapeString "](/") with ("](/" : str).
  change (html.EscapeString "**") with ("**" : str).
  change (html.EscapeString ")") with (")" : str).
  esc_lacks Hl. esc_lacks H1. esc_lacks H2. esc_lacks H3.
  apply EscapeString_not_nil in Hlne, H2ne.
  set (L := html.EscapeString label) in *.
  set (U1 := html.EscapeString u1) in *.
  set (U2 := html.EscapeString u2) in *.
  set (U3 := html.EscapeString u3) in *. clearbody L U1 U2 U3.
  assert (Hl1 : ~ In "`"%char L) by (apply Hl; cbn; auto).
  assert (Hl2 : ~ In "["%char L) by (apply Hl; cbn; auto).
  assert (Hl3 : ~ In "]"%char L) by (apply Hl; cbn; auto).
  assert (Hl4 : ~ In "*"%char L) by (apply Hl; cbn; auto).
  assert (Ha1 : ~ In "`"%char U1) by (apply H1; cbn; auto).
  assert (Ha2 : ~ In "["%char U1) by (apply H1; cbn; auto).
  assert (Ha3 : ~ In ")"%char U1) by (apply H1; cbn; auto).
  assert (Ha4 : ~ In "*"%char U1) by (apply H1; cbn; auto).
  assert (Hb1 : ~ In "`"%char U2) by (apply H2; cbn; auto).
  assert (Hb2 : ~ In "["%char U2) by (apply H2; cbn; auto).
  assert (Hb3 : ~ In ")"%char U2) by (apply H2; cbn; auto).
  assert (Hb4 : ~ In "*"%char U2) by (apply H2; cbn; auto).
  assert (Hc1 : ~ In "`"%char U3) by (apply H3; cbn; auto).
  assert (Hc2 : ~ In "["%char U3) by (apply H3; cbn; auto).
  assert (Hc3 : ~ In ")"%char U3) by (apply H3; cbn; auto).
  assert (Hc4 : ~ In "*"%char U3) by (apply H3; cbn; auto).
  rewrite parseInline_unmarked by notin.
  unfold markupPasses.
  set (T := "/"%char :: U1 ++ "*"%char :: "*"%char :: U2
              ++ "*"%char :: "*"%char :: U3).
  replace ("[" ++ L ++ "](/" ++ U1 ++ "**" ++ U2 ++ "**" ++ U3 ++ ")")
    with ([] ++ "["%char :: L ++ "]"%char :: "("%char :: T ++ ")"%char :: [])
    by (subst T; change ("](/" : str) with ["]"; "("; "/"]%char;
        change ("**" : str) with ["*"; "*"]%char;
        repeat (progress (cbn [app]; rewrite <- ?app_assoc)); reflexivity).
  assert (HT1 : ~ In ")"%char T) by (subst T; notin).
  assert (HT2 : ~ In "["%char T) by (subst T; notin).
  assert (HT3 : T <> []) by (subst T; discriminate).
  rewrite (ReplaceAllStringFunc_none imageRegex)
    by (apply imageRegex_none;
        [intros [] | intros [p Hp]; destruct p; discriminate | notin]).
  assert (E : ReplaceAllStringFunc linkRegex
                ([] ++ "["%char :: L ++ "]"%char :: "("%char :: T
                   ++ ")"%char :: []) linkRepl
              = "<a href=" ++ dquote :: T ++ dquote :: ">" ++ L ++ "</a>").
  { unfold ReplaceAllStringFunc.
    rewrite (findAll_one linkRegex _ []
               ("["%char :: L ++ "]"%char :: "("%char :: T ++ [")"%char])
               [] [L; T]).
    - cbn [flat_map]. rewrite linkRepl_link by assumption.
      subst T. rewrite normalizeAssetPath_rooted, !app_nil_r. reflexivity.
    - discriminate.
    - apply find_here. apply linkRegex_complete; assumption.
    - reflexivity. }
  rewrite E. clear E HT1 HT2 HT3. subst T.
  assert (E : ReplaceAllString boldRegex
                ("<a href=" ++ dquote :: ("/"%char :: U1 ++ "*"%char
                   :: "*"%char :: U2 ++ "*"%char :: "*"%char :: U3)
                   ++ dquote :: ">" ++ L ++ "</a>") boldTemplate
              = "<a href=" ++ dquote :: "/" ++ U1 ++ "<strong>" ++ U2
                  ++ "</strong>" ++ U3 ++ dquote :: ">" ++ L ++ "</a>").
  { unfold ReplaceAllString.
    rewrite (findAll_one boldRegex _
               ("<a href=" ++ dquote :: "/"%char :: U1)
               ("*"%char :: "*"%char :: U2 ++ ["*"%char; "*"%char])
               (U3 ++ dquote :: ">" ++ L ++ "</a>") [U2]).
    - cbn [flat_map expand boldTemplate nth app].
      repeat (progress (cbn [app]; rewrite <- ?app_assoc)). reflexivity.
    - discriminate.
    - replace ("<a href=" ++ dquote :: ("/"%char :: U1 ++ "*"%char
                 :: "*"%char :: U2 ++ "*"%char :: "*"%char :: U3)
                 ++ dquote :: ">" ++ L ++ "</a>")
        with (("<a href=" ++ dquote :: "/"%char :: U1)
                ++ "*"%char :: "*"%char :: U2 ++ "*"%char :: "*"%char
                :: (U3 ++ dquote :: ">" ++ L ++ "</a>"))
        by (repeat (progress (cbn [app]; rewrite <- ?app_assoc));
            reflexivity).
      apply find_skip.
      + intros b d x0 Hd. apply chr_first_fails. intros ->. revert Hd. notin.
      + intros b. apply boldRegex_complete; assumption.
    - apply (find_absent boldRegex "*"); [exact boldRegex_holds | notin]. }
  rewrite E. apply ReplaceAllString_none.
  apply (find_absent italicRegex "*"); [exact italicRegex_holds | notin].
Qed.

(** The statement at the target [/a**b**c]. *)
Lemma parseInline_bold_in_target_witness :
  parseInline [] ("[" ++ "docs" ++ "](/" ++ "a" ++ "**" ++ "b" ++ "**"
                    ++ "c" ++ ")")
  = "<a href=" ++ dquote :: "/" ++ html.EscapeString "a"
      ++ "<strong>" ++ html.EscapeString "b" ++ "</strong>"
      ++ html.EscapeString "c"
      ++ dquote :: ">" ++ html.EscapeString "docs" ++ "</a>".
Proof.
  apply parseInline_bold_in_target; try lacks; discriminate.
Defined.

End InlineNesting.

(** ** [markdownToHTML]: ordered items and long runs of [#] *)

Section OrderedItems.
Import strings stringsFacts regexp regexpSpec regexpFacts.

(** A greedy repetition takes the whole run of the class when the
    rest matches after it. *)
Lemma starGreedy_longest (p : ascii -> bool) (k : str -> option result)
    (a rest : str) (r : result) :
  forallb p a = true ->
  match rest with [] => True | c :: _ => p c = false end ->
  k rest = Some r ->
  starGreedy p k (a ++ rest) = Some r.
Proof.
  intros Ha Hr Hk. induction a as [|d a IH]; cbn [app].
  - destruct rest as [|c rest]; cbn [starGreedy]; [exact Hk|].
    rewrite Hr. exact Hk.
  - cbn [forallb] in Ha. apply andb_true_iff in Ha. destruct Ha as [Hd Ha].
    cbn [starGreedy]. rewrite Hd, (IH Ha). reflexivity.
Qed.

Lemma orderedListRegex_complete (D W C : str) :
  D <> [] -> forallb digitClass D = true ->
  W <> [] -> forallb spaceClass W = true ->
  C <> [] -> ~ In nl C -> spaceClass (hd " "%char C) = false ->
  FindStringSubmatch orderedListRegex (D ++ "."%char :: W ++ C)
  = [D ++ "."%char :: W ++ C; D; C].
Proof.
  intros HD1 HD2 HW1 HW2 HC1 HC2 HC3.
  destruct D as [|d D]; [congruence|].
  destruct W as [|w W]; [congruence|].
  destruct C as [|c C]; [congruence|].
  cbn [forallb] in HD2, HW2.
  apply andb_true_iff in HD2, HW2.
  destruct HD2 as [Hd HD]. destruct HW2 as [Hw HW]. cbn [hd] in HC3.
  assert (Hany : forallb anyClass (c :: C) = true).
  { apply forallb_forall. intros x Hx. unfold anyClass.
    apply negb_true_iff. apply N.eqb_neq. intros E. apply HC2.
    replace nl with x; [exact Hx|].
    unfold code in E. apply (f_equal ascii_of_N) in E.
    rewrite ascii_N_embedding in E. exact E. }
  cbn [forallb] in Hany. apply andb_true_iff in Hany.
  destruct Hany as [Hc HC].
  unfold FindStringSubmatch.
  assert (E : matchAt orderedListRegex true
                ((d :: D) ++ "."%char :: (w :: W) ++ c :: C)
              = Some ((d :: D) ++ "."%char :: (w :: W) ++ c :: C,
                      [d :: D; c :: C], [])).
  { unfold matchAt, orderedListRegex. cbn [run app]. rewrite Hd.
    erewrite starGreedy_longest; [| exact HD | reflexivity |].
    2:{ cbn [run]. rewrite Ascii.eqb_refl, Hw.
        erewrite starGreedy_longest; [reflexivity | exact HW | exact HC3 |].
        cbn [run]. rewrite Hc.
        replace C with (C ++ []) at 1 by apply app_nil_r.
        erewrite starGreedy_longest; [reflexivity | exact HC | exact I |].
        cbn [run]. reflexivity. }
    cbv beta iota zeta. change (length (@nil ascii)) with 0.
    rewrite !Nat.sub_0_r, !firstn_all, (firstn_prefix_cons d D).
    reflexivity. }
  rewrite (find_here _ _ _ _ _ _ E). reflexivity.
Qed.

Lemma digit_first (d : ascii) (t : str) :
  digitClass d = true ->
  HasPrefix (d :: t) "```" = false
  /\ HasPrefix (d :: t) "#" = false
  /\ str_eqb (d :: t) "---" = false
  /\ str_eqb (d :: t) "***" = false
  /\ str_eqb (d :: t) "___" = false
  /\ HasPrefix (d :: t) "- " = false
  /\ HasPrefix (d :: t) "* " = false.
Proof.
  intros H.
  destruct d as [[] [] [] [] [] [] [] []]; try discriminate H;
    repeat split; reflexivity.
Qed.

(** X14. An ordered item is rendered without its number: the text after
    the number, the full stop and the white space is the item. *)
Theorem ordered_item_drops_number :
  (forall (o : order) (st : state) (line D W C : str),
      inCodeBlock st = false ->
      TrimSpace line = D ++ "."%char :: W ++ C ->
      D <> [] -> forallb digitClass D = true ->
      W <> [] -> forallb spaceClass W = true ->
      C <> [] -> ~ In nl C -> spaceClass (hd " "%char C) = false ->
      step o st line
      = (mkState false false true,
         (if inUL st then [closeUL] else [])
         ++ (if inOL st then [] else [openOL])
         ++ [liTag (parseInline o C)]))
  /\ (forall os : nat -> order,
         markdownToHTML os (golit "3. c\n7. d")
         = golit "<ol>\n<li>c</li>\n<li>d</li>\n</ol>\n").
Proof.
  split; [|intros os; vm_compute; reflexivity].
  intros o st line D W C Hc Ht HD1 HD2 HW1 HW2 HC1 HC2 HC3.
  unfold step. rewrite Ht, Hc.
  rewrite (orderedListRegex_complete D W C) by assumption.
  destruct D as [|d D]; [congruence|].
  cbn [forallb] in HD2. apply andb_true_iff in HD2. destruct HD2 as [Hd _].
  destruct (digit_first d (D ++ "."%char :: W ++ C) Hd)
    as (E1 & E2 & E3 & E4 & E5 & E6 & E7).
  cbn [app]. rewrite E1, E2, E3, E4, E5, E6, E7.
  reflexivity.
Qed.

(** The statement at item 12, met while an unordered list is open. *)
Lemma ordered_item_drops_number_witness :
  step [] (mkState false true false) "  12.   twelve  "
  = (mkState false false true,
     [closeUL] ++ [openOL] ++ [liTag (parseInline [] "twelve")]).
Proof.
  apply (proj1 ordered_item_drops_number [] (mkState false true false)
           "  12.   twelve  " "12" "   " "twelve");
    try reflexivity; try discriminate.
  cbn. intuition discriminate.
Defined.

(** X15. Seven or more [#] do not make a heading: the line is a
    paragraph, [#] and all. *)
Theorem long_hash_run_is_paragraph :
  forall (o : order) (st : state) (line r : str) (n : nat),
    inCodeBlock st = false ->
    TrimSpace line = repeat "#"%char n ++ r ->
    HasPrefix r "#" = false ->
    7 <= n ->
    step o st line
    = (mkState false false false,
       closers st ++ [pTag (parseInline o (TrimSpace line))]).
Proof.
  intros o st line r n Hc Ht Hr Hn.
  assert (Hrun : HashRun n (TrimSpace line)) by (exists r; auto).
  assert (Hfirst : exists t, TrimSpace line = "#"%char :: t).
  { rewrite Ht. destruct n; [lia|]. eexists. reflexivity. }
  destruct Hfirst as [t Et].
  unfold step. rewrite Hc.
  rewrite (HashRun_headingLevel n _ Hrun).
  replace (n <=? 6) with false by (symmetry; apply Nat.leb_gt; lia).
  assert (Hnum : FindStringSubmatch orderedListRegex (TrimSpace line) = []).
  { destruct (FindStringSubmatch orderedListRegex (TrimSpace line)) eqn:E;
      [reflexivity|].
    exfalso. destruct (numbered_digit (TrimSpace line)) as (d & x & Hd & Hdig).
    - rewrite E. discriminate.
    - rewrite Et in Hd. inversion Hd; subst. discriminate. }
  rewrite Hnum. rewrite Et. cbn [HasPrefix str_eqb isEmpty negb andb orb
    Ascii.eqb Bool.eqb String.list_ascii_of_string length Nat.ltb Nat.leb].
  rewrite app_assoc. reflexivity.
Qed.

(** The statement at seven [#], met while an unordered list is
    open. *)
Lemma long_hash_run_is_paragraph_witness :
  step [] (mkState false true false) " ####### seven"
  = (mkState false false false,
     closers (mkState false true false)
     ++ [pTag (parseInline [] (TrimSpace " ####### seven"))]).
Proof.
  apply (long_hash_run_is_paragraph [] (mkState false true false)
           " ####### seven" " seven" 7); try reflexivity.
Defined.

End OrderedItems.

(** ** [markdownToHTML]: white space around a line *)

Section Indentation.
Import strings stringsFacts.

Lemma step_trimmed (o : order) (st : state) (line : str) :
  inCodeBlock st = false -> step o st (TrimSpace line) = step o st line.
Proof.
  intros Hc. unfold step. rewrite TrimSpace_idem, Hc. reflexivity.
Qed.

Lemma step_stays_outside (o : order) (st : state) (line : str) :
  inCodeBlock st = false -> ~ IsFence line ->
  inCodeBlock (fst (step o st line)) = false.
Proof.
  intros Hc Hf. pose proof (step_case o st line) as H.
  destruct H; try contradiction; cbn [fst inCodeBlock]; congruence.
Qed.

Lemma IsFence_trimmed (line : str) : IsFence (TrimSpace line) <-> IsFence line.
Proof. unfold IsFence. rewrite TrimSpace_idem. tauto. Qed.

Lemma loop_trimmed (os : nat -> order) (lines : list str) :
  forall (i : nat) (st : state),
    inCodeBlock st = false ->
    Forall (fun l => ~ IsFence l) lines ->
    loop os i st (map TrimSpace lines) = loop os i st lines.
Proof.
  induction lines as [|line rest IH]; intros i st Hc Hf; [reflexivity|].
  inversion Hf as [|? ? Hline Hrest]; subst.
  cbn [map loop]. rewrite step_trimmed by exact Hc.
  pose proof (step_stays_outside (os i) st line Hc Hline) as Hc'.
  destruct (step (os i) st line) as [st' out]. cbn [fst] in Hc'.
  rewrite IH by assumption. reflexivity.
Qed.

Lemma TrimSpace_NlFree (l : str) : ~ In nl l -> ~ In nl (TrimSpace l).
Proof.
  intros H Hin. apply H. destruct (TrimSpace_within l) as (p & q & E).
  rewrite E. apply in_or_app. right. apply in_or_app. left. exact Hin.
Qed.

Lemma Join_nil (lines : list str) :
  lines <> [] -> Join lines [nl] = [] -> lines = [[]].
Proof.
  destruct lines as [|l [|l' ls]]; [congruence| |].
  - cbn [Join]. intros _ ->. reflexivity.
  - intros _. rewrite Join_cons. intros H. destruct l; discriminate.
Qed.

Lemma step_blank (o : order) (st : state) (line : str) :
  inCodeBlock st = false -> TrimSpace line = [] -> step o st line = (st, []).
Proof.
  intros Hc Ht. unfold step. rewrite Ht, Hc. reflexivity.
Qed.

(** X16. Where no line is a fence, white space at the start and at the end
    of a line changes nothing. *)
Theorem markdownToHTML_ignores_indentation :
  forall (os : nat -> order) (lines : list str),
    lines <> [] -> NlFree lines ->
    Forall (fun l => ~ IsFence l) lines ->
    markdownToHTML os (Join (map TrimSpace lines) [nl])
    = markdownToHTML os (Join lines [nl]).
Proof.
  intros os lines Hne Hn Hf. unfold markdownToHTML. f_equal.
  assert (Hn' : NlFree (map TrimSpace lines)).
  { apply Forall_map. eapply Forall_impl; [|exact Hn].
    intros l. apply TrimSpace_NlFree. }
  assert (Hne' : map TrimSpace lines <> [])
    by (destruct lines; [congruence | discriminate]).
  unfold written. rewrite !Split_Join by assumption.
  rewrite loop_trimmed by (try reflexivity; assumption).
  destruct (isEmpty (Join lines [nl])) eqn:E1.
  { apply isEmpty_true in E1. apply Join_nil in E1; [|exact Hne].
    subst lines. reflexivity. }
  destruct (isEmpty (Join (map TrimSpace lines) [nl])) eqn:E2;
    [|reflexivity].
  apply isEmpty_true in E2. apply Join_nil in E2; [|exact Hne'].
  destruct lines as [|l [|l' ls]]; try discriminate.
  inversion E2 as [Ht].
  cbn [loop]. rewrite step_blank by (try reflexivity; assumption).
  reflexivity.
Qed.

(** The statement at an indented heading, item and paragraph. *)
Lemma markdownToHTML_ignores_indentation_witness :
  markdownToHTML (fun _ => [])
    (Join (map TrimSpace ["  # Title " : str; "   - item" : str;
                          "     text" : str]) [nl])
  = markdownToHTML (fun _ => [])
      (Join ["  # Title " : str; "   - item" : str; "     text" : str] [nl]).
Proof.
  apply markdownToHTML_ignores_indentation.
  - discriminate.
  - repeat constructor; cbn; intuition discriminate.
  - repeat constructor; intros [r Hr]; vm_compute in Hr; discriminate.
Defined.

End Indentation.

(** ** [markdownToHTML]: fenced blocks *)

Section FencedBlocks.
Import strings stringsFacts.

Lemma trimRev_keeps_fence (r : str) :
  exists r', trimRev (r ++ "```") = r' ++ "```".
Proof.
  remember (length r) as n eqn:Hn. revert r Hn.
  induction n as [n IH] using lt_wf_ind. intros r Hn.
  destruct r as [|c1 r1]; [exists []; reflexivity|].
  cbn [app trimRev]. destruct (isSpace1 c1).
  { apply (IH (length r1)); [simpl in Hn; lia | reflexivity]. }
  destruct r1 as [|c2 r2].
  { exists [c1]. cbn [app].
    change (isSpace2 "`" c1)
      with (false && (N.eqb (code c1) 133 || N.eqb (code c1) 160)).
    cbn [andb].
    replace (isSpace3 "`" "`" c1) with false; [reflexivity|].
    unfold isSpace3. reflexivity. }
  cbn [app]. destruct (isSpace2 c2 c1).
  { apply (IH (length r2)); [simpl in Hn; lia | reflexivity]. }
  destruct r2 as [|c3 r3].
  { exists [c1; c2]. cbn [app].
    replace (isSpace3 "`" c2 c1) with false; [reflexivity|].
    unfold isSpace3. reflexivity. }
  cbn [app]. destruct (isSpace3 c3 c2 c1).
  { apply (IH (length r3)); [simpl in Hn; lia | reflexivity]. }
  exists (c1 :: c2 :: c3 :: r3). reflexivity.
Qed.

(** A line that starts with three backticks is a fence line, whatever
    follows them. *)
Lemma IsFence_info (info : str) : IsFence ("```" ++ info).
Proof.
  unfold IsFence, TrimSpace.
  replace (TrimLeftSpace ("```" ++ info)) with ("```" ++ info)
    by (symmetry; apply TrimLeftSpace_fix; destruct info; reflexivity).
  unfold TrimRightSpace. rewrite rev_app_distr.
  change (rev "```") with ("```" : str).
  destruct (trimRev_keeps_fence (rev info)) as [r' ->].
  exists (rev r'). rewrite rev_app_distr. reflexivity.
Qed.

Lemma loop_code (os : nat -> order) (body : list str) :
  forall (i : nat) (st : state),
    inCodeBlock st = true ->
    Forall (fun l => ~ IsFence l) body ->
    loop os i st body
    = (st, flat_map (fun l => [html.EscapeString l; [nl]]) body).
Proof.
  induction body as [|l body IH]; intros i st Hc Hf; [reflexivity|].
  inversion Hf as [|? ? Hl Hb]; subst. cbn [loop flat_map].
  assert (E : step (os i) st l = (st, [html.EscapeString l; [nl]])).
  { unfold step.
    destruct (HasPrefix (TrimSpace l) "```") eqn:Ef;
      [apply fence_guard in Ef; contradiction|].
    rewrite Hc. reflexivity. }
  rewrite E, IH by assumption. reflexivity.
Qed.

Lemma loop_app (os : nat -> order) (l1 l2 : list str) :
  forall (i : nat) (st : state),
    loop os i st (l1 ++ l2)
    = (fst (loop os (i + length l1) (fst (loop os i st l1)) l2),
       snd (loop os i st l1)
       ++ snd (loop os (i + length l1) (fst (loop os i st l1)) l2)).
Proof.
  induction l1 as [|l l1 IH]; intros i st.
  - cbn [app loop length fst snd]. rewrite Nat.add_0_r.
    destruct (loop os i st l2). reflexivity.
  - cbn [app loop length].
    destruct (step (os i) st l) as [st' out].
    rewrite IH. rewrite <- Nat.add_succ_comm.
    destruct (loop os (S i) st' l1) as [st1 out1]. cbn [fst snd].
    destruct (loop os (S i + length l1) st1 l2) as [st2 out2].
    cbn [fst snd]. rewrite app_assoc. reflexivity.
Qed.

Lemma EscapeString_lines (body : list str) :
  concat (flat_map (fun l => [html.EscapeString l; [nl]]) body)
  = html.EscapeString (concat (map (fun l => l ++ [nl]) body)).
Proof.
  induction body as [|l body IH]; [reflexivity|].
  cbn [flat_map map concat app]. rewrite IH, !EscapeString_app.
  rewrite <- app_assoc. reflexivity.
Qed.

Lemma step_fence (o : order) (st : state) (line : str) :
  IsFence line ->
  step o st line
  = (mkState (negb (inCodeBlock st)) false false,
     closers st ++ [if inCodeBlock st then closePre else openPre]).
Proof.
  intros H. apply fence_guard in H. unfold step. rewrite H.
  unfold closers. destruct (inCodeBlock st); reflexivity.
Qed.

(** X17. A fenced block comes out as its lines, escaped and otherwise
    untouched, between [<pre><code>] and [</code></pre>]; what follows
    the opening backticks on their line is dropped, and a block still
    open at the end of the text is closed there. *)
Theorem fenced_block_verbatim :
  forall (os : nat -> order) (info : str) (body : list str),
    ~ In nl info -> NlFree body ->
    Forall (fun l => ~ IsFence l) body ->
    markdownToHTML os (Join (("```" ++ info) :: body ++ ["```" : str]) [nl])
    = openPre
        ++ html.EscapeString (concat (map (fun l => l ++ [nl]) body))
        ++ closePre
    /\ markdownToHTML os (Join (("```" ++ info) :: body) [nl])
       = openPre
           ++ html.EscapeString (concat (map (fun l => l ++ [nl]) body))
           ++ closePre.
Proof.
  intros os info body Hi Hn Hf.
  assert (Hfirst : ~ In nl ("```" ++ info)).
  { intros H. apply in_app_or in H. destruct H as [H|H]; [|contradiction].
    cbn in H. intuition discriminate. }
  assert (Hlast : ~ In nl ("```" : str)) by (cbn; intuition discriminate).
  assert (Hne : forall rest,
             isEmpty (Join (("```" ++ info) :: rest) [nl]) = false).
  { intros [|x rest]; reflexivity. }
  unfold markdownToHTML, written. rewrite !Hne.
  rewrite !Split_Join; try discriminate.
  2:{ constructor; assumption. }
  2:{ constructor; [assumption|]. apply Forall_app. split; [assumption|].
      constructor; [assumption | constructor]. }
  cbn [loop]. rewrite (step_fence _ _ _ (IsFence_info info)).
  cbn [inCodeBlock negb closers initState inUL inOL app].
  rewrite loop_app.
  rewrite !(loop_code os body 1 (mkState true false false) eq_refl Hf).
  cbn [fst snd loop].
  rewrite (step_fence _ _ "```" (IsFence_info [])).
  cbn [inCodeBlock negb closers inUL inOL app finish].
  rewrite app_nil_r. cbn [concat].
  rewrite !concat_app, EscapeString_lines. cbn [concat].
  rewrite !app_nil_r. split; reflexivity.
Qed.

(** The statement at a block of three lines with its language
    named. *)
Lemma fenced_block_verbatim_witness :
  markdownToHTML (fun _ => [])
    (Join (("```" ++ "go") :: ["if a < b {" : str; "  # not a heading" : str;
                               "}" : str] ++ ["```" : str]) [nl])
  = openPre
      ++ html.EscapeString
           (concat (map (fun l => l ++ [nl])
                      ["if a < b {" : str; "  # not a heading" : str;
                       "}" : str]))
      ++ closePre.
Proof.
  apply fenced_block_verbatim.
  - cbn. intuition discriminate.
  - repeat constructor; cbn; intuition discriminate.
  - repeat constructor; intros [r Hr]; vm_compute in Hr; discriminate.
Defined.

End FencedBlocks.

(** ** [markdownToHTML]: prose *)

Section ProseFacts.
Import strings stringsFacts.

Lemma step_prose (o : order) (line : str) :
  Prose line ->
  step o initState line
  = (initState,
     if isEmpty (TrimSpace line) then [] else [renderProse line]).
Proof.
  intros [Hl Hc]. unfold renderProse.
  destruct (TrimSpace line) as [|c t] eqn:Et.
  { apply step_blank; [reflexivity | exact Et]. }
  destruct Hc as (H1 & H2 & H3 & H4).
  assert (H5 : c <> "`"%char).
  { intros ->. apply (Hl "`"%char); cbn; auto. }
  assert (H6 : c <> "*"%char).
  { intros ->. apply (Hl "*"%char); cbn; auto. }
  unfold step. rewrite Et.
  assert (Hnum : regexp.FindStringSubmatch orderedListRegex (c :: t) = []).
  { destruct (regexp.FindStringSubmatch orderedListRegex (c :: t)) eqn:E;
      [reflexivity|].
    exfalso. destruct (numbered_digit (c :: t)) as (d & x & Hd & Hdig).
    - rewrite E. discriminate.
    - inversion Hd; subst. congruence. }
  rewrite Hnum.
  apply Ascii.eqb_neq in H1, H2, H3, H5, H6.
  change (HasPrefix (c :: t) "```")
    with (Ascii.eqb "`" c && HasPrefix t "``").
  change (HasPrefix (c :: t) "#") with (Ascii.eqb "#" c && HasPrefix t []).
  change (HasPrefix (c :: t) "- ") with (Ascii.eqb "-" c && HasPrefix t " ").
  change (HasPrefix (c :: t) "* ") with (Ascii.eqb "*" c && HasPrefix t " ").
  change (str_eqb (c :: t) "---") with (Ascii.eqb c "-" && str_eqb t "--").
  change (str_eqb (c :: t) "***") with (Ascii.eqb c "*" && str_eqb t "**").
  change (str_eqb (c :: t) "___") with (Ascii.eqb c "_" && str_eqb t "__").
  rewrite (Ascii.eqb_sym "`"), (Ascii.eqb_sym "#"), (Ascii.eqb_sym "-"),
    (Ascii.eqb_sym "*").
  rewrite H1, H2, H3, H5, H6.
  cbn [andb orb initState inCodeBlock inUL inOL length Nat.ltb Nat.leb
       isEmpty negb app].
  rewrite parseInline_plain by exact Hl. reflexivity.
Qed.

Lemma loop_prose (os : nat -> order) (lines : list str) :
  forall i,
    Forall Prose lines ->
    loop os i initState lines
    = (initState,
       flat_map (fun l => if isEmpty (TrimSpace l) then []
                          else [renderProse l]) lines).
Proof.
  induction lines as [|l lines IH]; intros i H; [reflexivity|].
  inversion H as [|? ? Hl Hr]; subst.
  cbn [loop flat_map]. rewrite step_prose by exact Hl.
  rewrite IH by exact Hr. reflexivity.
Qed.

Lemma concat_prose (lines : list str) :
  concat (flat_map (fun l => if isEmpty (TrimSpace l) then []
                             else [renderProse l]) lines)
  = concat (map renderProse lines).
Proof.
  induction lines as [|l lines IH]; [reflexivity|].
  cbn [flat_map map concat]. rewrite concat_app, IH. f_equal.
  unfold renderProse. destruct (isEmpty (TrimSpace l)); cbn [concat app];
    rewrite ?app_nil_r; reflexivity.
Qed.

(** X18. Prose comes out as paragraphs of escaped text, one for each line
    that is not blank: the lines of a paragraph are not joined. *)
Theorem markdownToHTML_prose :
  forall (os : nat -> order) (lines : list str),
    lines <> [] -> NlFree lines -> Forall Prose lines ->
    markdownToHTML os (Join lines [nl]) = concat (map renderProse lines).
Proof.
  intros os lines Hne Hn Hp. unfold markdownToHTML, written.
  destruct (isEmpty (Join lines [nl])) eqn:E.
  - apply isEmpty_true in E. apply Join_nil in E; [|exact Hne].
    subst lines. reflexivity.
  - rewrite Split_Join by assumption.
    rewrite loop_prose by exact Hp.
    cbn [finish initState inCodeBlock inUL inOL app].
    rewrite app_nil_r. apply concat_prose.
Qed.

(** The statement at three lines of text and a blank one. *)
Lemma markdownToHTML_prose_witness :
  markdownToHTML (fun _ => [])
    (Join ["Tom & Jerry" : str; "  are <friends>" : str; [] : str;
           "(mostly)" : str] [nl])
  = concat (map renderProse
              ["Tom & Jerry" : str; "  are <friends>" : str; [] : str;
               "(mostly)" : str]).
Proof.
  apply markdownToHTML_prose.
  - discriminate.
  - repeat constructor; cbn; intuition discriminate.
  - repeat constructor; try lacks; cbn; intuition discriminate.
Defined.

End ProseFacts.

(** ** [main]: the deck *)

Section DeckFacts.
Import strings stringsFacts.

Lemma slidesFrom_length (oss : nat -> nat -> order) (l : list str) :
  forall i, length (slidesFrom oss i l) = length l.
Proof.
  induction l as [|s l IH]; intros i; cbn [slidesFrom length];
    [reflexivity|]. rewrite IH. reflexivity.
Qed.

Lemma slidesFrom_numbers (oss : nat -> nat -> order) (l : list str) :
  forall i, map Number (slidesFrom oss i l) = seq (i + 1) (length l).
Proof.
  induction l as [|s l IH]; intros i; cbn [slidesFrom length map seq];
    [reflexivity|].
  cbn [Number]. rewrite IH, !Nat.add_1_r. reflexivity.
Qed.

Lemma slidesFrom_contents (oss : nat -> nat -> order) (l : list str) :
  forall i,
    Forall (fun s => Escaped allTags (Content s)) (slidesFrom oss i l).
Proof.
  induction l as [|s l IH]; intros i; cbn [slidesFrom]; constructor.
  - cbn [Content]. unfold markdownToHTML. apply concat_Escaped.
    apply Forall_impl with (P := ChunkOK); [exact ChunkOK_Escaped|].
    apply written_ChunkOK.
  - apply IH.
Qed.

Lemma slidesContent_length (theme : Theme.Theme) (body : str) :
  length (slidesContent theme body)
  = (if isEmpty (TrimSpace (Theme.FirstSlide theme)) then 0 else 1)
    + length (parseMarkdown body)
    + (if isEmpty (TrimSpace (Theme.LastSlide theme)) then 0 else 1).
Proof.
  unfold slidesContent.
  destruct (isEmpty (TrimSpace (Theme.FirstSlide theme)));
    destruct (isEmpty (TrimSpace (Theme.LastSlide theme)));
    cbn [negb]; rewrite ?length_app; cbn [length app]; lia.
Qed.

(** X19. The deck is never empty and its slides are numbered from 1 on,
    one after the other; there are as many as [parseMarkdown] finds in
    the body, and one more for each of the theme's first and last
    slide that is not blank. *)
Theorem deck_slides_numbered :
  forall (yaml : str -> option Frontmatter) (oss : nat -> nat -> order)
         (theme : Theme.Theme) (mdContent : str),
    let slides := fst (fst (deck yaml oss theme mdContent)) in
    let body := snd (parseFrontmatter yaml mdContent) in
    slides <> []
    /\ map Number slides = seq 1 (length slides)
    /\ length slides
       = (if isEmpty (TrimSpace (Theme.FirstSlide theme)) then 0 else 1)
         + length (parseMarkdown body)
         + (if isEmpty (TrimSpace (Theme.LastSlide theme)) then 0 else 1).
Proof.
  intros yaml oss theme mdContent. unfold deck.
  destruct (parseFrontmatter yaml mdContent) as [deckTitle body].
  cbn [fst snd].
  assert (Hlen : length (slidesFrom oss 0 (slidesContent theme body))
                 = (if isEmpty (TrimSpace (Theme.FirstSlide theme))
                    then 0 else 1)
                   + length (parseMarkdown body)
                   + (if isEmpty (TrimSpace (Theme.LastSlide theme))
                      then 0 else 1))
    by (rewrite slidesFrom_length; apply slidesContent_length).
  split; [|split].
  - intros E. rewrite E in Hlen. cbn [length] in Hlen.
    pose proof (parseMarkdown_not_nil body) as Hn.
    destruct (parseMarkdown body); [congruence|]. cbn [length] in Hlen. lia.
  - rewrite slidesFrom_numbers, slidesFrom_length. reflexivity.
  - exact Hlen.
Qed.

(** X20. Every slide of the deck, the theme's first and last slide
    included, is escaped markup: each [<], [>] and [&] of it belongs
    to an entity or to a tag that [markdownToHTML] writes. *)
Theorem deck_slides_escaped :
  forall (yaml : str -> option Frontmatter) (oss : nat -> nat -> order)
         (theme : Theme.Theme) (mdContent : str),
    Forall (fun s => Escaped allTags (Content s))
      (fst (fst (deck yaml oss theme mdContent))).
Proof.
  intros yaml oss theme mdContent. unfold deck.
  destruct (parseFrontmatter yaml mdContent) as [deckTitle body].
  cbn [fst]. apply slidesFrom_contents.
Qed.



End DeckFacts.

(** ** [resolveConfigPath] *)

Section ConfigPathFacts.
Import strings stringsFacts.

Variable Getenv : str -> str.
Variable UserHomeDir : option str.
Variable Stat : str -> option bool.
Variable filepathJoin : str -> str -> str.

Lemma fileExists_true (path : str) :
  fileExists Stat path = true <-> HasText path /\ Stat path = Some false.
Proof.
  unfold fileExists, HasText.
  destruct (isEmpty (TrimSpace path)) eqn:E.
  - apply isEmpty_true in E. split; [discriminate | tauto].
  - assert (Hne : TrimSpace path <> [])
      by (intros H; rewrite H in E; discriminate).
    destruct (Stat path) as [[]|]; cbn [negb]; split;
      try discriminate; try tauto; intros [_ H]; discriminate.
Qed.

(** X22. [resolveConfigPath] never returns a blank path.  It returns the
    path given on the command line when that is not blank, and
    otherwise a path at which [os.Stat] finds something that is not a
    directory, or the name [themes.yaml]. *)
Theorem resolveConfigPath_result :
  forall userSpecified : str,
    let r :=
      resolveConfigPath Getenv UserHomeDir Stat filepathJoin userSpecified in
    HasText r
    /\ (HasText userSpecified -> r = userSpecified)
    /\ (~ HasText userSpecified ->
        (HasText r /\ Stat r = Some false) \/ r = "themes.yaml").
Proof.
  intros userSpecified r.
  assert (Hlocal :
            let local :=
              if fileExists Stat "slides.md.yaml" then "slides.md.yaml" : str
              else if fileExists Stat "themes.yaml" then "themes.yaml" : str
              else "themes.yaml" : str in
            HasText local
            /\ ((HasText local /\ Stat local = Some false)
                \/ local = "themes.yaml")).
  { cbv zeta. destruct (fileExists Stat "slides.md.yaml") eqn:E1.
    - apply fileExists_true in E1. split; [tauto | left; exact E1].
    - destruct (fileExists Stat "themes.yaml");
        (split; [unfold HasText; vm_compute; discriminate
                | right; reflexivity]). }
  cbv zeta in Hlocal. subst r. unfold resolveConfigPath, HasText.
  destruct (isEmpty (TrimSpace userSpecified)) eqn:Eu; cbn [negb].
  2:{ assert (Hu : TrimSpace userSpecified <> [])
        by (intros H; rewrite H in Eu; discriminate).
      tauto. }
  apply isEmpty_true in Eu.
  match goal with
  | |- context [if negb (isEmpty (TrimSpace ?x)) then _ else _] =>
    set (xdg := x)
  end.
  destruct (negb (isEmpty (TrimSpace xdg))).
  - destruct (fileExists Stat (filepathJoin xdg "slides.md.yaml")) eqn:Ec.
    + apply fileExists_true in Ec. unfold HasText in Ec.
      split; [tauto|]. split; [congruence|]. intros _. left. exact Ec.
    + unfold HasText in Hlocal. split; [tauto|].
      split; [congruence|]. intros _. tauto.
  - unfold HasText in Hlocal. split; [tauto|].
    split; [congruence|]. intros _. tauto.
Qed.

End ConfigPathFacts.

(** The statement at a path given on the command line, with nothing
    on the disk. *)
Lemma resolveConfigPath_result_witness :
  resolveConfigPath (fun _ => []) None (fun _ => None) (fun a b => a ++ b)
    "conf/my themes.yaml"
  = "conf/my themes.yaml".
Proof.
  apply (proj1 (proj2 (resolveConfigPath_result
                         (fun _ => []) None (fun _ => None)
                         (fun a b => a ++ b) "conf/my themes.yaml"))).
  unfold HasText. vm_compute. discriminate.
Defined.

(** ** [normalizeAssetPath], once more *)

Section AssetPaths.
Import strings stringsFacts.

Lemma normalizeAssetPath_absolute (src : str) :
  AbsoluteTarget (normalizeAssetPath src).
Proof.
  destruct (normalizeAssetPath_cases src) as [[H E]|[H E]].
  - rewrite E. exact H.
  - rewrite E. right. right. right.
    exists "/", ("assets/" ++ src). split; reflexivity.
Qed.

(** X23. [normalizeAssetPath] ends with the path it is given, never
    returns the empty path (the empty path comes back as [/assets/]),
    and run on its own result changes nothing. *)
Theorem normalizeAssetPath_idempotent :
  forall src : str,
    normalizeAssetPath (normalizeAssetPath src) = normalizeAssetPath src
    /\ normalizeAssetPath src <> []
    /\ (normalizeAssetPath src = src
        \/ normalizeAssetPath src = "/assets/" ++ src).
Proof.
  intros src. split; [|split].
  - destruct (normalizeAssetPath_cases (normalizeAssetPath src))
      as [[_ E]|[H _]]; [exact E|].
    exfalso. apply H. apply normalizeAssetPath_absolute.
  - destruct (normalizeAssetPath_cases src) as [[H E]|[H E]]; rewrite E.
    + intros ->. destruct H as [H|[H|[H|H]]];
        destruct H as (a & r & Hs & Ha);
        destruct a; try discriminate; destruct r; discriminate.
    + discriminate.
  - destruct (normalizeAssetPath_cases src) as [[_ E]|[_ E]]; auto.
Qed.

End AssetPaths.

(** ** [renderSlides]: the template data *)

Section RenderFacts.
Import strings stringsFacts.

(** X24. In the data handed to the template the logo is never empty, and
    the colours of the classification banner are never blank: a theme
    without a logo gets [/assets/], a theme without colours the
    defaults. *)
Theorem renderData_defaults :
  forall (today : str) (formatFixed2 : PrimFloat.float -> str)
         (slides : list Slide) (theme : Theme.Theme)
         (pageTitle transition : str),
    let d := renderData today formatFixed2 slides theme pageTitle transition in
    data.Logo d <> []
    /\ AbsoluteTarget (data.Logo d)
    /\ (Theme.Logo theme = [] -> data.Logo d = "/assets/")
    /\ HasText (data.Bg (data.classification d))
    /\ HasText (data.Fg (data.classification d))
    /\ data.Title d = pageTitle /\ data.DeckTitle d = pageTitle
    /\ data.Slides d = slides.
Proof.
  intros today formatFixed2 slides theme pageTitle transition d.
  subst d. unfold renderData.
  cbn [data.Logo data.classification data.Bg data.Fg data.Title
       data.DeckTitle data.Slides].
  repeat split.
  - destruct (normalizeAssetPath_cases (Theme.Logo theme)) as [[H E]|[H E]];
      rewrite E; [|discriminate].
    intros E0. rewrite E0 in H. destruct H as [H|[H|[H|H]]];
      destruct H as (a & r & Hs & Ha);
      destruct a; try discriminate; destruct r; discriminate.
  - apply normalizeAssetPath_absolute.
  - intros ->. reflexivity.
  - unfold HasText.
    destruct (isEmpty (TrimSpace (Theme.ClassificationBg theme))) eqn:E.
    + vm_compute. discriminate.
    + intros H. rewrite H in E. discriminate.
  - unfold HasText.
    destruct (isEmpty (TrimSpace (Theme.ClassificationFg theme))) eqn:E.
    + vm_compute. discriminate.
    + intros H. rewrite H in E. discriminate.
Qed.

(** The statement at a theme without a logo. *)
Lemma renderData_defaults_witness :
  data.Logo
    (renderData [] (fun _ => []) []
       (Theme.mkTheme [] [] [] [] [] [] [] [] false [] PrimFloat.zero false
          0%Z [] [])
       "deck" "cut")
  = "/assets/".
Proof.
  apply (proj1 (proj2 (proj2 (renderData_defaults [] (fun _ => []) []
           (Theme.mkTheme [] [] [] [] [] [] [] [] false [] PrimFloat.zero
              false 0%Z [] [])
           "deck" "cut")))).
  reflexivity.
Defined.

End RenderFacts.

(** ** [main]: the page title *)

Section DeckTitle.
Import strings stringsFacts.

(** X25. The page title is the theme's title unless the YAML decoder
    accepted the frontmatter and returned a title that is not blank;
    a document that does not open with the delimiter line gets the
    theme's title. *)
Theorem deck_title_source :
  forall (yaml : str -> option Frontmatter) (oss : nat -> nat -> order)
         (theme : Theme.Theme) (mdContent : str),
    let title := snd (fst (deck yaml oss theme mdContent)) in
    (title = Theme.Title theme
     \/ (HasText title
         /\ exists fmText fm, yaml fmText = Some fm /\ Title fm = title))
    /\ (~ BeginsWithDelimiter (TrimSpace mdContent) ->
        title = Theme.Title theme).
Proof.
  intros yaml oss theme mdContent. unfold deck, parseFrontmatter.
  destruct (negb (HasPrefix (TrimSpace mdContent) ("---" ++ [nl]))
            && negb (str_eqb (TrimSpace mdContent) "---")) eqn:Eb.
  { cbn [fst snd]. unfold pageTitle.
    replace (isEmpty (TrimSpace [])) with true by reflexivity.
    cbn [negb]. auto. }
  assert (Hb : BeginsWithDelimiter (TrimSpace mdContent)).
  { apply BeginsWithDelimiter_iff.
    destruct (HasPrefix (TrimSpace mdContent) ("---" ++ [nl]));
      [reflexivity|].
    destruct (str_eqb (TrimSpace mdContent) "---");
      [reflexivity | discriminate]. }
  assert (Hplain : forall body : str,
             let title := snd (fst (slidesFrom oss 0 (slidesContent theme body),
                                    pageTitle theme [], transition theme)) in
             (title = Theme.Title theme
              \/ (HasText title
                  /\ exists fmText fm,
                      yaml fmText = Some fm /\ Title fm = title))
             /\ (~ BeginsWithDelimiter (TrimSpace mdContent) ->
                 title = Theme.Title theme)).
  { intros body. cbn [fst snd]. unfold pageTitle.
    replace (isEmpty (TrimSpace [])) with true by reflexivity.
    cbn [negb]. auto. }
  destruct (SplitN2 (TrimSpace mdContent) slideBreak)
    as [|part0 [|part1 [|x l]]]; try apply Hplain.
  destruct (yaml (TrimPrefix part0 ("---" ++ [nl]))) as [fm|] eqn:Ey;
    [|apply Hplain].
  cbn [fst snd]. split; [|intros H; contradiction].
  unfold pageTitle.
  destruct (isEmpty (TrimSpace (Title fm))) eqn:Et; cbn [negb];
    [left; reflexivity|].
  right. split.
  - unfold HasText. intros H. rewrite H in Et. discriminate.
  - eauto.
Qed.

(** The statement at a document without frontmatter. *)
Lemma deck_title_source_witness :
  snd (fst (deck titleLineYaml (fun _ _ => [])
              (Theme.mkTheme [] [] "Theme title" [] [] [] [] [] false []
                 PrimFloat.zero false 0%Z [] [])
              (golit "# One\ntext")))
  = "Theme title".
Proof.
  apply (proj2 (deck_title_source titleLineYaml (fun _ _ => [])
                  (Theme.mkTheme [] [] "Theme title" [] [] [] [] [] false []
                     PrimFloat.zero false 0%Z [] [])
                  (golit "# One\ntext"))).
  intros [H|[r H]]; vm_compute in H; discriminate.
Defined.

End DeckTitle.

(** ** [renderSlides]: the watermark *)

Section WatermarkFacts.
Import strings stringsFacts.




End WatermarkFacts.
